(** * Feedback-loop hiring simulation: a shallow embedding and its properties

    The development follows [src/app/utils.py], [src/app/metrics.py] and
    [src/app/simulation.py].

    Number model.  A finite Python float is the rational ([Q]) that is its
    exact value, and numeric equality is [Qeq] ([==]).  The parameters and
    the draws are finite; NaN and infinite inputs are outside the model.

    Three computations are modelled in IEEE binary64, operation by
    operation, because what they decide depends on the rounding:
    - the HR score [final_score] and its comparisons (eligibility, ranking),
      on [pyfloat], which has the infinities and NaN an overflow can make;
    - the capacity cap [int(hiring_capacity * len(applicant_records))],
      with the [OverflowError] of [int()] on an infinite product;
    - the metrics of [compute_iteration_metrics]: the rates, the
      differences and [round(x, 6)], which returns the double nearest to
      the rounded decimal.
    [b64_round] is the rounding to the nearest binary64 number, ties to
    even, with the subnormal range; the sign of zero is not modelled
    ([-0.0] and [0.0] are equal as numbers).  A parameter or a skill enters
    these computations through [py_float]: itself when it is a double, else
    the nearest double, so that a parameter written [58 # 100] stands for
    the Python float [0.58].

    The remaining arithmetic (the exposure blend, the two feedback updates,
    the preference noise) is idealised to be exact: each result goes
    through [clamp] and is only compared afterwards.

    Runtime model.  Three pieces of the Python runtime are not part of the
    repository and are taken as parameters or modelled from their documented
    behaviour:
    - [math.log2] is a parameter [log2 : Q -> Q]; its domain error on
      non-positive arguments is explicit in [math_log2];
    - [random.Random] is an interface ([PRNG]) with a seeding function and
      the two draws the code uses, [random()] and [gauss(mu, sigma)];
    - [list.sort(key=..., reverse=True)] is modelled as CPython does it:
      reverse, stable ascending sort, reverse. *)

From Stdlib Require Import ZArith QArith Qround Qabs Qpower Lqa Lia List
  Sorting.Sorted Sorting.Permutation.
From stdpp Require Import base gmap strings list fin_maps sorting.

Local Open Scope Q_scope.

(** ** Rational helpers *)

(** [x < y] on floats, as a boolean. *)
Definition Qltb (x y : Q) : bool :=
  match Qcompare x y with Lt => true | _ => false end.

(** [x >= y] on floats, as a boolean. *)
Definition Qgeb (x y : Q) : bool := Qle_bool y x.

(** Python's [int(x)] on a float: truncation toward zero. *)
Definition py_int (x : Q) : Z := Z.quot (Qnum x) (Zpos (Qden x)).

(** Round to the nearest integer, ties to the even neighbour. *)
Definition round_half_even (x : Q) : Z :=
  let f := Qfloor x in
  match Qcompare (x - inject_Z f) (1 # 2) with
  | Lt => f
  | Gt => (f + 1)%Z
  | Eq => if Z.even f then f else (f + 1)%Z
  end.

(** The decimal with [ndigits] fractional digits nearest to the exact value
    of [x], ties to even: the digits [round(x, ndigits)] works with. *)
Definition round_decimal (x : Q) (ndigits : nat) : Q :=
  let scale := (10 ^ Z.of_nat ndigits)%Z in
  inject_Z (round_half_even (x * inject_Z scale)) / inject_Z scale.

(** Python's two-argument [max(a, b)]: [b] only when it is strictly greater. *)
Definition py_max (a b : Q) : Q := if Qltb a b then b else a.

(** Python's two-argument [min(a, b)]: [b] only when it is strictly smaller. *)
Definition py_min (a b : Q) : Q := if Qltb b a then b else a.

(** ** Binary64 arithmetic *)

(** [floor(log2 x)] for a positive rational. *)
Definition ilog2 (x : Q) : Z :=
  let k := (Z.log2 (Qnum x) - Z.log2 (Zpos (Qden x)))%Z in
  if Qle_bool (2 ^ k) x then k else (k - 1)%Z.

(** The exponent of the unit in the last place of the binary64 grid at [x]:
    53 significant bits, and [2^-1074] in the subnormal range. *)
Definition b64_exponent (x : Q) : Z := Z.max (-1074) (ilog2 (Qabs x) - 52).

(** Rounding to the nearest binary64 number, ties to even, with the exponent
    not bounded above. *)
Definition b64_round (x : Q) : Q :=
  inject_Z (round_half_even (x / 2 ^ b64_exponent x)) * 2 ^ b64_exponent x.

(** Python's [round(x, ndigits)] on a float, for [ndigits >= 0]: the double
    nearest to the decimal with [ndigits] fractional digits that is nearest
    to the exact value of [x]. *)
Definition py_round (x : Q) (ndigits : nat) : Q :=
  b64_round (round_decimal x ndigits).

(** A Python float: a finite double, an infinity or NaN. *)
Inductive pyfloat : Type :=
| F_finite (q : Q)
| F_inf (negative : bool)
| F_nan.

(** The double an operation returns for the exact result [x]: the rounding
    overflows to an infinity from [2^1024] on. *)
Definition b64 (x : Q) : pyfloat :=
  let r := b64_round x in
  if Qle_bool (2 ^ 1024) (Qabs r) then F_inf (Qltb r 0) else F_finite r.

(** The Python float that holds the value [x]: [x] itself when it is a
    double, else the nearest double, as a number is read into a float. *)
Definition py_float (x : Q) : pyfloat := b64 x.

(** [-a]. *)
Definition float_neg (a : pyfloat) : pyfloat :=
  match a with
  | F_finite x => F_finite (- x)
  | F_inf s => F_inf (negb s)
  | F_nan => F_nan
  end.

(** [a + b]. *)
Definition float_add (a b : pyfloat) : pyfloat :=
  match a, b with
  | F_nan, _ | _, F_nan => F_nan
  | F_finite x, F_finite y => b64 (x + y)
  | F_inf s, F_finite _ | F_finite _, F_inf s => F_inf s
  | F_inf s, F_inf s' => if Bool.eqb s s' then F_inf s else F_nan
  end.

(** [a - b]. *)
Definition float_sub (a b : pyfloat) : pyfloat := float_add a (float_neg b).

(** [a * b]. *)
Definition float_mul (a b : pyfloat) : pyfloat :=
  match a, b with
  | F_nan, _ | _, F_nan => F_nan
  | F_finite x, F_finite y => b64 (x * y)
  | F_inf s, F_finite y | F_finite y, F_inf s =>
      if Qeq_bool y 0 then F_nan else F_inf (xorb s (Qltb y 0))
  | F_inf s, F_inf s' => F_inf (xorb s s')
  end.

(** [a < b]; false as soon as one side is NaN. *)
Definition float_ltb (a b : pyfloat) : bool :=
  match a, b with
  | F_nan, _ | _, F_nan => false
  | F_finite x, F_finite y => Qltb x y
  | F_finite _, F_inf s => negb s
  | F_inf s, F_finite _ => s
  | F_inf s, F_inf s' => s && negb s'
  end.

(** [a >= b]; false as soon as one side is NaN. *)
Definition float_geb (a b : pyfloat) : bool :=
  match a, b with
  | F_nan, _ | _, F_nan => false
  | _, _ => negb (float_ltb a b)
  end.

(** [a == b]; false as soon as one side is NaN. *)
Definition float_eqb (a b : pyfloat) : bool :=
  match a, b with
  | F_finite x, F_finite y => Qeq_bool x y
  | F_inf s, F_inf s' => Bool.eqb s s'
  | _, _ => false
  end.

(** The conversion of an [int] operand of a float operation: correctly
    rounded, [OverflowError] ([None]) when the integer is too large. *)
Definition float_of_int (n : Z) : option pyfloat :=
  match b64 (inject_Z n) with
  | F_finite q => Some (F_finite q)
  | _ => None
  end.

(** [int(a)] on a float: truncation toward zero, [OverflowError] on an
    infinity and [ValueError] on NaN (both [None]). *)
Definition py_int_float (a : pyfloat) : option Z :=
  match a with
  | F_finite q => Some (py_int q)
  | _ => None
  end.

(** ** utils.py *)

(** [clamp(value, lo, hi)]: [max(lo, min(hi, value))]. *)
Definition clamp (value lo hi : Q) : Q := py_max lo (py_min hi value).

(** [clamp(value)] with the default bounds [lo=0.0], [hi=1.0]. *)
Definition clamp01 (value : Q) : Q := clamp value 0 1.

(** [safe_div(numerator, denominator, default)]. *)
Definition safe_div (numerator denominator default : Q) : Q :=
  if Qeq_bool denominator 0 then default else numerator / denominator.

(** [safe_div(numerator, denominator)] with [default=0.0]. *)
Definition safe_div0 (numerator denominator : Q) : Q :=
  safe_div numerator denominator 0.

Section Entropy.

(** The value of [math.log2] on its domain. *)
Variable log2 : Q -> Q.

(** [math.log2(x)]: a domain error ([None]) unless [x] is strictly
    positive. *)
Definition math_log2 (x : Q) : option Q :=
  if Qltb 0 x then Some (log2 x) else None.

(** [shannon_entropy(p)]. *)
Definition shannon_entropy (p : Q) : option Q :=
  if Qle_bool p 0 || Qgeb p 1 then Some 0
  else
    lp ← math_log2 p;
    lq ← math_log2 (1 - p);
    Some (- (p * lp + (1 - p) * lq)).

End Entropy.

(** ** metrics.py *)

Local Open Scope string_scope.
Local Open Scope list_scope.
Local Open Scope Q_scope.

(** One iteration's record: the thirteen keys of the [MetricSnapshot]
    dictionary. *)
Record MetricSnapshot : Type := mkSnapshot {
  exposure_high_A : Q;
  exposure_high_B : Q;
  choice_high_A : Q;
  choice_high_B : Q;
  acceptance_rate_A : Q;
  acceptance_rate_B : Q;
  diversity_entropy_A : Q;
  diversity_entropy_B : Q;
  disparity_exposure : Q;
  disparity_accept : Q;
  reinforcement_index : Q;
  snap_p_high_A : Q;
  snap_p_high_B : Q
}.

(** [sum(1 for g in groups if g == g0)]. *)
Definition count_group (g0 : string) (groups : list string) : Z :=
  Z.of_nat (length (filter (fun g => String.eqb g g0) groups)).

(** [sum(v for g, v in zip(groups, vals) if g == g0)]. *)
Definition sum_where (g0 : string) (groups : list string) (vals : list Z) : Z :=
  foldr Z.add 0%Z
    (snd <$> filter (fun gv => String.eqb (fst gv) g0) (zip groups vals)).

(** [sum(1 for g, a in zip(groups, accepted) if g == g0 and a)]. *)
Definition count_accepted (g0 : string) (groups : list string)
    (accepted : list bool) : Z :=
  Z.of_nat (length
    (filter (fun ga => String.eqb (fst ga) g0 && snd ga) (zip groups accepted))).

(** The unrounded rate [safe_div(sum over the group, size of the group)]:
    the quotient of the two integers as a double. *)
Definition group_rate (total n : Z) : Q :=
  b64_round (safe_div0 (inject_Z total) (inject_Z n)).

(** The unrounded [exposure_high_<g0>] of [compute_iteration_metrics]. *)
Definition exposure_rate (g0 : string) (groups : list string)
    (shown_levels : list Z) : Q :=
  group_rate (sum_where g0 groups shown_levels) (count_group g0 groups).

Section Metrics.

Variable log2 : Q -> Q.

(** [compute_iteration_metrics(groups=..., shown_levels=..., ...)]. *)
Definition compute_iteration_metrics (groups : list string)
    (shown_levels chosen_levels : list Z) (accepted : list bool)
    (p_high_A p_high_B : Q) (prev_disparity_exposure : option Q)
    : option MetricSnapshot :=
  let n_A := count_group "A" groups in
  let n_B := count_group "B" groups in
  let shown_A := sum_where "A" groups shown_levels in
  let shown_B := sum_where "B" groups shown_levels in
  let exposure_A := group_rate shown_A n_A in
  let exposure_B := group_rate shown_B n_B in
  let chose_A := sum_where "A" groups chosen_levels in
  let chose_B := sum_where "B" groups chosen_levels in
  let choice_A := group_rate chose_A n_A in
  let choice_B := group_rate chose_B n_B in
  let acc_A := count_accepted "A" groups accepted in
  let acc_B := count_accepted "B" groups accepted in
  let acceptance_A := group_rate acc_A n_A in
  let acceptance_B := group_rate acc_B n_B in
  entropy_A ← shannon_entropy log2 exposure_A;
  entropy_B ← shannon_entropy log2 exposure_B;
  let disparity_exp := b64_round (exposure_A - exposure_B) in
  let disparity_acc := b64_round (acceptance_A - acceptance_B) in
  let reinforcement :=
    match prev_disparity_exposure with
    | Some prev => b64_round (disparity_exp - prev)
    | None => 0
    end in
  Some {|
    exposure_high_A := py_round exposure_A 6;
    exposure_high_B := py_round exposure_B 6;
    choice_high_A := py_round choice_A 6;
    choice_high_B := py_round choice_B 6;
    acceptance_rate_A := py_round acceptance_A 6;
    acceptance_rate_B := py_round acceptance_B 6;
    diversity_entropy_A := py_round entropy_A 6;
    diversity_entropy_B := py_round entropy_B 6;
    disparity_exposure := py_round disparity_exp 6;
    disparity_accept := py_round disparity_acc 6;
    reinforcement_index := py_round reinforcement 6;
    snap_p_high_A := py_round p_high_A 6;
    snap_p_high_B := py_round p_high_B 6
  |}.

End Metrics.

(** ** simulation.py: data classes *)

(** A single job-seeker agent. *)
Record Agent : Type := mkAgent {
  group : string;
  skill : Q;
  trust_in_algorithm : Q;
  adaptation_speed : Q;
  risk_tolerance : Q;
  preference_for_high : Q
}.

(** Institutional gatekeeper. *)
Record HRDepartment : Type := mkHR {
  trust_in_model : Q;
  institutional_bias : Q;
  hiring_threshold : Q;
  hiring_capacity : Q
}.

(** Recommendation engine; [p_high] is the group-keyed dictionary. *)
Record Platform : Type := mkPlatform {
  learning_rate : Q;
  diversity_regularization : Q;
  feedback_weight : Q;
  p_high : gmap string Q
}.

(** [SimParams]; the three fields whose names the actors also use carry a
    [params_] prefix. *)
Record SimParams : Type := mkParams {
  n_agents : Z;
  group_imbalance : Q;
  seed : Z;
  t_user : Q;
  a_user : Q;
  r_user : Q;
  t_hr : Q;
  b_hr : Q;
  params_hiring_threshold : Q;
  params_hiring_capacity : Q;
  lr : Q;
  diversity_reg : Q;
  params_feedback_weight : Q;
  iterations : Z
}.

(** The dictionaries appended to [applicant_records]. *)
Record ApplicantRecord : Type := mkApplicant {
  idx : nat;
  applicant_group : string;
  final_score : pyfloat;
  chosen_high : Z;
  meets_threshold : bool
}.

(** ** The random source *)

(** What the simulation uses of [random.Random]: construction from a seed,
    [random()] and [gauss(mu, sigma)].  Each draw returns the value and the
    generator's next state. *)
Class PRNG : Type := {
  rng_state : Type;
  rng_seed : Z -> rng_state;
  rng_random : rng_state -> Q * rng_state;
  rng_gauss : Q -> Q -> rng_state -> Q * rng_state
}.

(** Computations that consume draws and may raise ([None]). *)
Definition Sim `{PRNG} (A : Type) : Type := rng_state -> option (A * rng_state).

Definition sim_ret `{PRNG} {A : Type} (a : A) : Sim A := fun s => Some (a, s).

Definition sim_bind `{PRNG} {A B : Type} (m : Sim A) (k : A -> Sim B) : Sim B :=
  fun s => match m s with
           | Some (a, s') => k a s'
           | None => None
           end.

(** A dictionary or other fallible read that consumes no draw. *)
Definition sim_lift `{PRNG} {A : Type} (o : option A) : Sim A :=
  fun s => match o with
           | Some a => Some (a, s)
           | None => None
           end.

Definition draw_random `{PRNG} : Sim Q := fun s => Some (rng_random s).

Definition draw_gauss `{PRNG} (mu sigma : Q) : Sim Q :=
  fun s => Some (rng_gauss mu sigma s).

Notation "'let*' x ':=' m 'in' k" := (sim_bind m (fun x => k))
  (at level 10, x name, m at level 100, k at level 200, only parsing).

(** [for x in l: acc = body(acc, x)]. *)
Fixpoint sim_for `{PRNG} {A S : Type} (body : S -> A -> Sim S) (l : list A)
    (acc : S) : Sim S :=
  match l with
  | [] => sim_ret acc
  | x :: l' => let* acc' := body acc x in sim_for body l' acc'
  end.

(** ** The runtime's list sort *)

(** Stable ascending insertion on a key, with the keys' [<] (the only
    comparison the sort makes): the new element goes after the elements
    whose key is smaller and before the first one whose key is not. *)
Fixpoint insert_by_key {A K : Type} (ltb : K -> K -> bool) (key : A -> K)
    (x : A) (l : list A) : list A :=
  match l with
  | [] => [x]
  | y :: l' =>
      if ltb (key y) (key x) then y :: insert_by_key ltb key x l'
      else x :: y :: l'
  end.

(** Stable ascending sort on a key. *)
Fixpoint stable_sort_by_key {A K : Type} (ltb : K -> K -> bool) (key : A -> K)
    (l : list A) : list A :=
  match l with
  | [] => []
  | x :: l' => insert_by_key ltb key x (stable_sort_by_key ltb key l')
  end.

(** [l.sort(key=key, reverse=reverse)]: with [reverse=True] the list is
    reversed, sorted stably in ascending order, and reversed again. *)
Definition list_sort {A K : Type} (ltb : K -> K -> bool) (key : A -> K)
    (reverse : bool) (l : list A) : list A :=
  if reverse then rev (stable_sort_by_key ltb key (rev l))
  else stable_sort_by_key ltb key l.

(** ** simulation.py: run_simulation *)

Section Simulation.

Context `{G : PRNG}.
Variable log2 : Q -> Q.

(** Step 1, the agent-creation loop: [n] more agents are appended to
    [agents]. *)
Fixpoint create_agents (params : SimParams) (n : nat) (agents : list Agent)
    : Sim (list Agent) :=
  match n with
  | O => sim_ret agents
  | S n' =>
      let* u := draw_random in
      let g := if Qltb u (group_imbalance params) then "A" else "B" in
      let* x := draw_gauss (1 # 2) (15 # 100) in
      let skill := clamp01 x in
      let* e := draw_gauss 0 (5 # 100) in
      let pref := clamp01 (skill + e) in
      create_agents params n'
        (agents ++ [ {| group := g;
                        skill := skill;
                        trust_in_algorithm := t_user params;
                        adaptation_speed := a_user params;
                        risk_tolerance := r_user params;
                        preference_for_high := pref |} ])
  end.

(** The local lists and dictionaries filled by the per-agent loop. *)
Record AgentLoopVars : Type := mkLoopVars {
  groups : list string;
  shown_levels : list Z;
  chosen_levels : list Z;
  user_chose_high : gmap string (list Z);
  applicant_records : list ApplicantRecord
}.

Definition agent_loop_init : AgentLoopVars :=
  {| groups := [];
     shown_levels := [];
     chosen_levels := [];
     user_chose_high := <["A" := []]> (<["B" := []]> ∅);
     applicant_records := [] |}.

(** The body of [for agent in agents:]: exposure draw, trust draw, then
    the exploration or the preference draw, then the HR scores. *)
Definition agent_body (platform : Platform) (hr : HRDepartment)
    (v : AgentLoopVars) (agent : Agent) : Sim AgentLoopVars :=
  let g := group agent in
  let* p_base := sim_lift (p_high platform !! g) in
  let p_final :=
    clamp01 ((1 - diversity_regularization platform) * p_base
             + diversity_regularization platform * (1 # 2)) in
  let* u_shown := draw_random in
  let shown_high := if Qltb u_shown p_final then 1%Z else 0%Z in
  let* u_trust := draw_random in
  let* chosen :=
    (if Qltb u_trust (trust_in_algorithm agent) then
       let* u_explore := draw_random in
       sim_ret (if Qltb u_explore (risk_tolerance agent)
                then (1 - shown_high)%Z else shown_high)
     else
       let* u_pref := draw_random in
       sim_ret (if Qltb u_pref (preference_for_high agent)
                then 1%Z else 0%Z)) in
  let* u_list := sim_lift (user_chose_high v !! g) in
  let model_score := py_float (skill agent) in
  let human_score :=
    float_sub (py_float (skill agent))
      (py_float (if String.eqb g "B" then institutional_bias hr else 0)) in
  let score :=
    float_add
      (float_mul (py_float (trust_in_model hr)) model_score)
      (float_mul (float_sub (F_finite 1) (py_float (trust_in_model hr)))
                 human_score) in
  sim_ret
    {| groups := groups v ++ [g];
       shown_levels := shown_levels v ++ [shown_high];
       chosen_levels := chosen_levels v ++ [chosen];
       user_chose_high := <[g := u_list ++ [chosen]]> (user_chose_high v);
       applicant_records :=
         applicant_records v ++
         [ {| idx := length (applicant_records v);
              applicant_group := g;
              final_score := score;
              chosen_high := chosen;
              meets_threshold :=
                float_geb score (py_float (hiring_threshold hr)) |} ] |}.

(** [max_accept = max(1, int(hr.hiring_capacity * len(applicant_records)))]:
    the length is converted to a float, the product is a double, and
    [int()] raises on an infinite product. *)
Definition max_accept (hr : HRDepartment) (records : list ApplicantRecord)
    : option Z :=
  n ← float_of_int (Z.of_nat (length records));
  c ← py_int_float (float_mul (py_float (hiring_capacity hr)) n);
  Some (Z.max 1 c).

(** [eligible], after [eligible.sort(key=final_score, reverse=True)]. *)
Definition ranked_eligible (records : list ApplicantRecord)
    : list ApplicantRecord :=
  list_sort float_ltb final_score true
    (filter (fun r => meets_threshold r) records).

(** [accepted_set]: the [idx] of [eligible[:max_accept]].  [max_accept] is
    at least 1, so the slice is a prefix. *)
Definition accepted_set (max_accept : Z) (records : list ApplicantRecord)
    : gset nat :=
  list_to_set (idx <$> take (Z.to_nat max_accept) (ranked_eligible records)).

(** The body of [for r in applicant_records:]. *)
Definition record_body (accepted : gset nat)
    (acc : list bool * gmap string (list bool)) (r : ApplicantRecord)
    : option (list bool * gmap string (list bool)) :=
  let is_accepted := bool_decide (idx r ∈ accepted) in
  let flags := acc.1 ++ [is_accepted] in
  if (chosen_high r =? 1)%Z then
    h_list ← acc.2 !! applicant_group r;
    Some (flags, <[applicant_group r := h_list ++ [is_accepted]]> acc.2)
  else Some (flags, acc.2).

(** [for r in applicant_records:], from given accumulators. *)
Fixpoint record_loop (accepted : gset nat) (records : list ApplicantRecord)
    (acc : list bool * gmap string (list bool))
    : option (list bool * gmap string (list bool)) :=
  match records with
  | [] => Some acc
  | r :: records' =>
      acc' ← record_body accepted acc r;
      record_loop accepted records' acc'
  end.

(** [sum(l)] on a list of ints. *)
Definition sum_ints (l : list Z) : Z := foldr Z.add 0%Z l.

(** [sum(l)] on a list of bools: the number of [True]. *)
Definition sum_bools (l : list bool) : Z :=
  Z.of_nat (length (filter (fun b => Is_true b) l)).

(** The blend [observed] of step 4, from the group's two lists. *)
Definition observed_signal (platform : Platform) (u_list : list Z)
    (h_list : list bool) : Q :=
  let user_signal :=
    safe_div0 (inject_Z (sum_ints u_list))
              (inject_Z (Z.of_nat (length u_list))) in
  let hr_signal :=
    match h_list with
    | [] => user_signal
    | _ => safe_div0 (inject_Z (sum_bools h_list))
                     (inject_Z (Z.of_nat (length h_list)))
    end in
  feedback_weight platform * user_signal
  + (1 - feedback_weight platform) * hr_signal.

(** Step 4, the body of [for g in ("A", "B"):]. *)
Definition platform_update (chose : gmap string (list Z))
    (hr_accepted_high : gmap string (list bool)) (platform : Platform)
    (g : string) : option Platform :=
  u_list ← chose !! g;
  h_list ← hr_accepted_high !! g;
  let observed := observed_signal platform u_list h_list in
  p_old ← p_high platform !! g;
  Some {| learning_rate := learning_rate platform;
          diversity_regularization := diversity_regularization platform;
          feedback_weight := feedback_weight platform;
          p_high :=
            <[g := clamp01 ((1 - learning_rate platform) * p_old
                            + learning_rate platform * observed)]>
              (p_high platform) |}.

(** Step 4: [for g in ("A", "B"):]. *)
Definition platform_feedback (chose : gmap string (list Z))
    (hr_accepted_high : gmap string (list bool)) (platform : Platform)
    : option Platform :=
  platform' ← platform_update chose hr_accepted_high platform "A";
  platform_update chose hr_accepted_high platform' "B".

(** The assignment to [agent.preference_for_high] in step 5. *)
Definition internalize (agent : Agent) (shown : Z) : Agent :=
  let observed_level := inject_Z shown in
  {| group := group agent;
     skill := skill agent;
     trust_in_algorithm := trust_in_algorithm agent;
     adaptation_speed := adaptation_speed agent;
     risk_tolerance := risk_tolerance agent;
     preference_for_high :=
       clamp01 ((1 - adaptation_speed agent) * preference_for_high agent
                + adaptation_speed agent * observed_level) |}.

(** Step 5: [for agent, shown in zip(agents, shown_levels):].  The agents
    are updated in place; [zip] stops at the shorter list and leaves the
    remaining agents as they are. *)
Fixpoint update_preferences (agents : list Agent) (shown : list Z)
    : list Agent :=
  match agents, shown with
  | agent :: agents', s :: shown' =>
      internalize agent s :: update_preferences agents' shown'
  | _, _ => agents
  end.

(** The objects that live across iterations. *)
Record SimState : Type := mkState {
  st_agents : list Agent;
  st_platform : Platform;
  st_hr : HRDepartment
}.

(** The local variables of one pass of the iteration loop, together with
    the state the pass started from and the state it left. *)
Record IterationTrace : Type := mkTrace {
  tr_before : SimState;
  tr_prev_disparity : option Q;
  tr_vars : AgentLoopVars;
  tr_max_accept : Z;
  tr_accepted_flags : list bool;
  tr_hr_accepted_high : gmap string (list bool);
  tr_snapshot : MetricSnapshot;
  tr_after : SimState
}.

(** One pass of [for _t in range(params.iterations):]. *)
Definition iteration (st : SimState) (prev_disparity : option Q)
    : Sim IterationTrace :=
  let* v :=
    sim_for (agent_body (st_platform st) (st_hr st)) (st_agents st)
            agent_loop_init in
  let* cap := sim_lift (max_accept (st_hr st) (applicant_records v)) in
  let accepted := accepted_set cap (applicant_records v) in
  let* fh :=
    sim_lift (record_loop accepted (applicant_records v)
                ([], <["A" := []]> (<["B" := []]> ∅))) in
  let* platform' :=
    sim_lift (platform_feedback (user_chose_high v) fh.2 (st_platform st)) in
  let agents' := update_preferences (st_agents st) (shown_levels v) in
  let* p_A := sim_lift (p_high platform' !! "A") in
  let* p_B := sim_lift (p_high platform' !! "B") in
  let* snapshot :=
    sim_lift (compute_iteration_metrics log2 (groups v) (shown_levels v)
                (chosen_levels v) fh.1 p_A p_B prev_disparity) in
  sim_ret
    {| tr_before := st;
       tr_prev_disparity := prev_disparity;
       tr_vars := v;
       tr_max_accept := cap;
       tr_accepted_flags := fh.1;
       tr_hr_accepted_high := fh.2;
       tr_snapshot := snapshot;
       tr_after := {| st_agents := agents';
                      st_platform := platform';
                      st_hr := st_hr st |} |}.

(** Step 3, [n] more passes of the iteration loop; [history] holds the
    passes already made. *)
Fixpoint iteration_loop (n : nat) (st : SimState) (prev_disparity : option Q)
    (history : list IterationTrace) : Sim (list IterationTrace) :=
  match n with
  | O => sim_ret history
  | S n' =>
      let* tr := iteration st prev_disparity in
      iteration_loop n' (tr_after tr)
        (Some (disparity_exposure (tr_snapshot tr))) (history ++ [tr])
  end.

(** Steps 1 and 2: the agents, the HR department and the platform. *)
Definition initial_state (params : SimParams) : Sim SimState :=
  let* agents := create_agents params (Z.to_nat (n_agents params)) [] in
  sim_ret
    {| st_agents := agents;
       st_platform :=
         {| learning_rate := lr params;
            diversity_regularization := diversity_reg params;
            feedback_weight := params_feedback_weight params;
            p_high := <["A" := 1 # 2]> (<["B" := 1 # 2]> ∅) |};
       st_hr :=
         {| trust_in_model := t_hr params;
            institutional_bias := b_hr params;
            hiring_threshold := params_hiring_threshold params;
            hiring_capacity := params_hiring_capacity params |} |}.

(** The whole run with its local variables kept: the state after step 2
    and one trace per pass of the loop. *)
Definition run_trace (params : SimParams)
    : option (SimState * list IterationTrace) :=
  fst <$>
    (let* st0 := initial_state params in
     let* history :=
       iteration_loop (Z.to_nat (iterations params)) st0 None [] in
     sim_ret (st0, history)) (rng_seed (seed params)).

(** The dictionary [run_simulation] returns. *)
Record SimResult : Type := mkResult {
  result_iterations : list MetricSnapshot;
  result_params : SimParams
}.

(** [run_simulation(params)]. *)
Definition run_simulation (params : SimParams) : option SimResult :=
  run ← run_trace params;
  Some {| result_iterations := tr_snapshot <$> run.2;
          result_params :=
            {| n_agents := n_agents params;
               group_imbalance := group_imbalance params;
               seed := seed params;
               t_user := t_user params;
               a_user := a_user params;
               r_user := r_user params;
               t_hr := t_hr params;
               b_hr := b_hr params;
               params_hiring_threshold := params_hiring_threshold params;
               params_hiring_capacity := params_hiring_capacity params;
               lr := lr params;
               diversity_reg := diversity_reg params;
               params_feedback_weight := params_feedback_weight params;
               iterations := iterations params |} |}.

End Simulation.

(** ** A scripted random source

    The draws are read off a list, one after the other; [gauss(mu, sigma)]
    scales the scripted value.  An exhausted script keeps returning [0]. *)
Definition scripted_next (s : list Q) : Q * list Q :=
  match s with
  | [] => (0, [])
  | x :: s' => (x, s')
  end.

Definition scripted_prng (script : Z -> list Q) : PRNG :=
  {| rng_state := list Q;
     rng_seed := script;
     rng_random := scripted_next;
     rng_gauss := fun mu sigma s =>
       let (z, s') := scripted_next s in (mu + sigma * z, s') |}.

(** The same script read through a position: the state is the whole list
    and the index of the next draw. *)
Definition indexed_next (s : list Q * nat) : Q * (list Q * nat) :=
  (nth s.2 s.1 0, (s.1, S s.2)).

Definition indexed_prng (script : Z -> list Q) : PRNG :=
  {| rng_state := list Q * nat;
     rng_seed := fun seed => (script seed, 0%nat);
     rng_random := indexed_next;
     rng_gauss := fun mu sigma s =>
       let (z, s') := indexed_next s in (mu + sigma * z, s') |}.

(** The list source has read what the indexed source has passed. *)
Definition same_position (s1 : list Q) (s2 : list Q * nat) : Prop :=
  s1 = drop s2.2 s2.1.

(** A rational stand-in for [math.log2] on (0, 1], used where a concrete
    function is needed: [log2 x] is about [2 (x - 1) / ((x + 1) ln 2)]. *)
Definition log2_approx (x : Q) : Q :=
  Qred ((2 * (x - 1)) / ((x + 1) * (693147 # 1000000))).

(** ** Vocabulary of the statements *)

(** [final_score] of an agent under the HR department's blend. *)
Definition agent_score (hr : HRDepartment) (a : Agent) : pyfloat :=
  float_add
    (float_mul (py_float (trust_in_model hr)) (py_float (skill a)))
    (float_mul
       (float_sub (F_finite 1) (py_float (trust_in_model hr)))
       (float_sub (py_float (skill a))
          (py_float (if String.eqb (group a) "B"
                     then institutional_bias hr else 0)))).

(** An agent is eligible when its [final_score] reaches the threshold. *)
Definition eligibleb (hr : HRDepartment) (a : Agent) : bool :=
  float_geb (agent_score hr a) (py_float (hiring_threshold hr)).

(** The applicant record written for an agent. *)
Definition record_of (hr : HRDepartment) (a : Agent) (r : ApplicantRecord)
    : Prop :=
  applicant_group r = group a /\
  final_score r = agent_score hr a /\
  meets_threshold r = eligibleb hr a.

(** The two group labels. *)
Definition is_group (g : string) : Prop := g = "A" \/ g = "B".

(** A dictionary with both group labels as keys. *)
Definition has_groups {V : Type} (m : gmap string V) : Prop :=
  is_Some (m !! "A") /\ is_Some (m !! "B").

(** What the loop variables hold once the agents [done] are processed. *)
Definition agent_loop_inv (hr : HRDepartment) (done : list Agent)
    (v : AgentLoopVars) : Prop :=
  groups v = group <$> done /\
  length (shown_levels v) = length done /\
  Forall (fun x => x = 0%Z \/ x = 1%Z) (shown_levels v) /\
  length (chosen_levels v) = length done /\
  Forall2 (record_of hr) done (applicant_records v) /\
  idx <$> applicant_records v = seq 0 (length done) /\
  has_groups (user_chose_high v).

(** A float that is not NaN. *)
Definition not_nan (a : pyfloat) : Prop := a <> F_nan.

(** [a < b] and [a == b] on floats, as propositions. *)
Definition float_lt (a b : pyfloat) : Prop := float_ltb a b = true.

Definition float_eq (a b : pyfloat) : Prop := float_eqb a b = true.

(** Ascending on the key, input order among equal keys. *)
Definition key_then_tie {A : Type} (key : A -> pyfloat) (tie : A -> A -> Prop)
    (x y : A) : Prop :=
  float_lt (key x) (key y) \/ (float_eq (key x) (key y) /\ tie x y).

(** [r1] is ranked before [r2]: higher [final_score] first, and among equal
    scores the one generated earlier. *)
Definition outranks (r1 r2 : ApplicantRecord) : Prop :=
  float_lt (final_score r2) (final_score r1) \/
  (float_eq (final_score r1) (final_score r2) /\ (idx r1 < idx r2)%nat).

(** The number of [True] in a list of flags. *)
Definition count_true (flags : list bool) : nat :=
  length (filter (fun b => Is_true b) flags).

(** The double product [hiring_capacity * N], when [N] converts to a float
    and the product is finite. *)
Definition capacity_product (hr : HRDepartment) (N : nat) : option Q :=
  match float_of_int (Z.of_nat N) with
  | Some n =>
      match float_mul (py_float (hiring_capacity hr)) n with
      | F_finite q => Some q
      | _ => None
      end
  | None => None
  end.

(** The cap as the specification words it,
    [max(1, floor(hiring_capacity * N))], on the double product. *)
Definition capacity_cap (hr : HRDepartment) (N : nat) : option Z :=
  q ← capacity_product hr N; Some (Z.max 1 (Qfloor q)).

(** [accepted_flags] as the second loop leaves it. *)
Definition flags_of (max_accept : Z) (records : list ApplicantRecord)
    : list bool :=
  (fun r => bool_decide (idx r ∈ accepted_set max_accept records)) <$> records.

(** The exponential moving average written to [platform.p_high[g]]. *)
Definition p_high_update (platform : Platform) (p_old : Q) (u : list Z)
    (h : list bool) : Q :=
  clamp01 ((1 - learning_rate platform) * p_old
           + learning_rate platform * observed_signal platform u h).

(** The fields of an agent that no statement of the loop assigns. *)
Definition same_fixed_fields (a b : Agent) : Prop :=
  group a = group b /\ skill a = skill b /\
  trust_in_algorithm a = trust_in_algorithm b /\
  adaptation_speed a = adaptation_speed b /\
  risk_tolerance a = risk_tolerance b.

(** The platform and HR department of step 2. *)
Definition initial_platform (params : SimParams) : Platform :=
  {| learning_rate := lr params;
     diversity_regularization := diversity_reg params;
     feedback_weight := params_feedback_weight params;
     p_high := <["A" := 1 # 2]> (<["B" := 1 # 2]> ∅) |}.

Definition initial_hr (params : SimParams) : HRDepartment :=
  {| trust_in_model := t_hr params;
     institutional_bias := b_hr params;
     hiring_threshold := params_hiring_threshold params;
     hiring_capacity := params_hiring_capacity params |}.

(** What step 1 guarantees of every agent. *)
Definition agent_init_ok (params : SimParams) (a : Agent) : Prop :=
  is_group (group a) /\
  0 <= skill a <= 1 /\
  0 <= preference_for_high a <= 1 /\
  trust_in_algorithm a = t_user params /\
  adaptation_speed a = a_user params /\
  risk_tolerance a = r_user params.

(** Everything one pass records, read off the code of [iteration]: the
    trace's local variables come from the per-agent loop run on the state
    the pass started from, and the state it leaves is that state with steps
    4 and 5 applied. *)
Definition trace_ok `{G : PRNG} (log2 : Q -> Q) (tr : IterationTrace) : Prop :=
  let st := tr_before tr in
  let v := tr_vars tr in
  (exists s s',
     sim_for (agent_body (st_platform st) (st_hr st)) (st_agents st)
       agent_loop_init s = Some (v, s')) /\
  max_accept (st_hr st) (applicant_records v) = Some (tr_max_accept tr) /\
  record_loop (accepted_set (tr_max_accept tr) (applicant_records v))
    (applicant_records v) ([], <["A" := []]> (<["B" := []]> ∅))
    = Some (tr_accepted_flags tr, tr_hr_accepted_high tr) /\
  platform_feedback (user_chose_high v) (tr_hr_accepted_high tr)
    (st_platform st) = Some (st_platform (tr_after tr)) /\
  st_agents (tr_after tr) = update_preferences (st_agents st) (shown_levels v) /\
  st_hr (tr_after tr) = st_hr st /\
  exists p_A p_B,
    p_high (st_platform (tr_after tr)) !! "A" = Some p_A /\
    p_high (st_platform (tr_after tr)) !! "B" = Some p_B /\
    compute_iteration_metrics log2 (groups v) (shown_levels v)
      (chosen_levels v) (tr_accepted_flags tr) p_A p_B (tr_prev_disparity tr)
      = Some (tr_snapshot tr).

(** The passes of a run, in order: each starts from the state the previous
    one left and is handed the previous recorded [disparity_exposure]. *)
Inductive trace_chain `{G : PRNG} (log2 : Q -> Q)
    : SimState -> option Q -> list IterationTrace -> Prop :=
| chain_nil st prev : trace_chain log2 st prev []
| chain_cons tr rest :
    trace_ok log2 tr ->
    trace_chain log2 (tr_after tr)
      (Some (disparity_exposure (tr_snapshot tr))) rest ->
    trace_chain log2 (tr_before tr) (tr_prev_disparity tr) (tr :: rest).

(** Every agent carries one of the two labels and [p_high] has both keys. *)
Definition state_wf (st : SimState) : Prop :=
  Forall (fun a => is_group (group a)) (st_agents st) /\
  has_groups (p_high (st_platform st)).

(** The keys of [p_high]. *)
Definition group_keys : gset string := {["A"]} ∪ {["B"]}.

(** The part of the state that the loop leaves alone, relative to the state
    after step 2. *)
Definition frame_inv (st0 st : SimState) : Prop :=
  st_hr st = st_hr st0 /\
  learning_rate (st_platform st) = learning_rate (st_platform st0) /\
  diversity_regularization (st_platform st)
    = diversity_regularization (st_platform st0) /\
  feedback_weight (st_platform st) = feedback_weight (st_platform st0) /\
  dom (p_high (st_platform st)) = group_keys /\
  Forall2 same_fixed_fields (st_agents st0) (st_agents st).

(** The exposure probabilities and the preferences are in [[0, 1]]. *)
Definition state_in_range (st : SimState) : Prop :=
  (forall g, is_group g ->
     exists p, p_high (st_platform st) !! g = Some p /\ 0 <= p <= 1) /\
  (forall g p, p_high (st_platform st) !! g = Some p -> 0 <= p <= 1) /\
  Forall (fun a => 0 <= preference_for_high a <= 1) (st_agents st).

(** The scale of [round(x, 6)]. *)
Definition micro : Q := inject_Z (10 ^ Z.of_nat 6).

(** The unrounded [disparity_exposure] of a pass: the difference of the two
    unrounded rates, as a double. *)
Definition raw_disparity_exposure (groups : list string) (shown : list Z) : Q :=
  b64_round (exposure_rate "A" groups shown - exposure_rate "B" groups shown).

(** The two computations raise together or return the same value and leave
    related states. *)
Definition sim_equiv (G1 G2 : PRNG)
    (R : @rng_state G1 -> @rng_state G2 -> Prop) {A : Type}
    (m1 : @Sim G1 A) (m2 : @Sim G2 A) : Prop :=
  forall s1 s2, R s1 s2 ->
    match m1 s1, m2 s2 with
    | Some (a1, s1'), Some (a2, s2') => a1 = a2 /\ R s1' s2'
    | None, None => True
    | _, _ => False
    end.

(** ** Vocabulary of the further properties *)

(** A level, LOW or HIGH, as the code stores it: [0] or [1]. *)
Definition binary (x : Z) : Prop := x = 0%Z \/ x = 1%Z.

(** The level opposite to the shown one: [1 - shown_high]. *)
Definition opposite_level (shown_high : Z) : Z := (1 - shown_high)%Z.

(** The ranges of the stored fields that do not depend on [math.log2]. *)
Definition snapshot_in_range (snap : MetricSnapshot) : Prop :=
  0 <= exposure_high_A snap <= 1 /\ 0 <= exposure_high_B snap <= 1 /\
  0 <= choice_high_A snap <= 1 /\ 0 <= choice_high_B snap <= 1 /\
  0 <= acceptance_rate_A snap <= 1 /\ 0 <= acceptance_rate_B snap <= 1 /\
  -1 <= disparity_exposure snap <= 1 /\ -1 <= disparity_accept snap <= 1 /\
  -2 <= reinforcement_index snap <= 2 /\
  0 <= snap_p_high_A snap <= 1 /\ 0 <= snap_p_high_B snap <= 1.

(** [p_final] of step 1. *)
Definition exposure_probability (platform : Platform) (p_base : Q) : Q :=
  clamp01 ((1 - diversity_regularization platform) * p_base
           + diversity_regularization platform * (1 # 2)).

(** [shown_high] of step 1, from the exposure draw. *)
Definition shown_of (platform : Platform) (p_base u_shown : Q) : Z :=
  if Qltb u_shown (exposure_probability platform p_base) then 1%Z else 0%Z.

(** [chosen] of step 2, from the trust draw and the draw that follows it. *)
Definition chosen_of (agent : Agent) (shown_high : Z) (u_trust u_next : Q) : Z :=
  if Qltb u_trust (trust_in_algorithm agent) then
    if Qltb u_next (risk_tolerance agent) then (1 - shown_high)%Z
    else shown_high
  else
    if Qltb u_next (preference_for_high agent) then 1%Z else 0%Z.

(** The values of group [g]: [[v for g', v in zip(groups, vals) if g' == g]]. *)
Definition group_values {A : Type} (g : string) (groups : list string)
    (vals : list A) : list A :=
  snd <$> filter (fun gv => String.eqb (fst gv) g) (zip groups vals).

(** Every [random()] draw lies in [[0, 1)], as [random.Random.random]
    promises. *)
Definition unit_draws (G : PRNG) : Prop :=
  forall s, 0 <= (@rng_random G s).1 < 1.

(** What the dictionaries and records hold once the agents [done] are
    processed. *)
Definition agent_loop_detail (v : AgentLoopVars) : Prop :=
  length (groups v) = length (chosen_levels v) /\
  Forall binary (chosen_levels v) /\
  chosen_high <$> applicant_records v = chosen_levels v /\
  applicant_group <$> applicant_records v = groups v /\
  forall g, is_group g ->
    user_chose_high v !! g = Some (group_values g (groups v) (chosen_levels v)).

(** The applicants of group [g] that chose HIGH. *)
Definition high_choosers (g : string) (records : list ApplicantRecord)
    : list ApplicantRecord :=
  filter (fun r => applicant_group r = g /\ chosen_high r = 1%Z) records.

(** [user_signal] and [hr_signal] of step 4. *)
Definition user_signal (u_list : list Z) : Q :=
  safe_div0 (inject_Z (sum_ints u_list))
            (inject_Z (Z.of_nat (length u_list))).

Definition hr_signal (u_list : list Z) (h_list : list bool) : Q :=
  match h_list with
  | [] => user_signal u_list
  | _ => safe_div0 (inject_Z (sum_bools h_list))
                   (inject_Z (Z.of_nat (length h_list)))
  end.

(** Both exposure probabilities of the platform are equal to [c]. *)
Definition p_high_is (c : Q) (st : SimState) : Prop :=
  forall g, is_group g ->
    exists p, p_high (st_platform st) !! g = Some p /\ p == c.

(** The state of the random source after [n] calls of [random()]. *)
Definition draws_after `{G : PRNG} (n : nat) (s : rng_state) : rng_state :=
  Nat.iter n (fun t => (rng_random t).2) s.

(** ** Concrete runs *)

(** The default parameters with six agents and three iterations. *)
Definition example_params : SimParams :=
  {| n_agents := 6;
     group_imbalance := 1 # 2;
     seed := 42;
     t_user := 7 # 10;
     a_user := 3 # 10;
     r_user := 2 # 10;
     t_hr := 6 # 10;
     b_hr := 15 # 100;
     params_hiring_threshold := 45 # 100;
     params_hiring_capacity := 3 # 10;
     lr := 25 # 100;
     diversity_reg := 1 # 10;
     params_feedback_weight := 6 # 10;
     iterations := 3 |}.

(** Draws for [example_params]: three per agent for step 1 (three agents of
    group A, then three of group B), then three per agent for the first
    pass, in which one agent of group A and two of group B are shown HIGH.
    The later passes read the exhausted script. *)
Definition example_script (_ : Z) : list Q :=
  [ 0; 0; 0;   1 # 10; 1; 0;   2 # 10; 0; 1;
    9 # 10; 0; 0;   8 # 10; 1 # 2; 0;   7 # 10; 0; 0;
    1 # 10; 9 # 10; 9 # 10;   6 # 10; 9 # 10; 9 # 10;   6 # 10; 9 # 10; 9 # 10;
    1 # 10; 9 # 10; 9 # 10;   1 # 10; 9 # 10; 9 # 10;   6 # 10; 9 # 10; 9 # 10 ].

Definition example_prng : PRNG := scripted_prng example_script.

(** The default parameters with six agents and no iteration. *)
Definition no_iteration_params : SimParams :=
  {| n_agents := 6;
     group_imbalance := 1 # 2;
     seed := 42;
     t_user := 7 # 10;
     a_user := 3 # 10;
     r_user := 2 # 10;
     t_hr := 6 # 10;
     b_hr := 15 # 100;
     params_hiring_threshold := 45 # 100;
     params_hiring_capacity := 3 # 10;
     lr := 25 # 100;
     diversity_reg := 1 # 10;
     params_feedback_weight := 6 # 10;
     iterations := 0 |}.

(** The default parameters with 128 agents, all of group A, and two
    iterations. *)
Definition tie_params : SimParams :=
  {| n_agents := 128;
     group_imbalance := 1;
     seed := 42;
     t_user := 7 # 10;
     a_user := 3 # 10;
     r_user := 2 # 10;
     t_hr := 6 # 10;
     b_hr := 15 # 100;
     params_hiring_threshold := 45 # 100;
     params_hiring_capacity := 3 # 10;
     lr := 25 # 100;
     diversity_reg := 1 # 10;
     params_feedback_weight := 6 # 10;
     iterations := 2 |}.

(** The three draws of one agent in one pass: the exposure draw, then two
    draws of 0.99 (the agent does not trust, and chooses LOW). *)
Definition pass_draws (exposure : Q) : list Q := [exposure; 99 # 100; 99 # 100].

(** Draws for [tie_params]: all zero in step 1; in the first pass the first
    two agents are shown HIGH (exposure draw 0), in the second pass only the
    first one is; every other exposure draw is 0.99. *)
Definition tie_script (_ : Z) : list Q :=
  repeat 0 (3 * 128)
  ++ pass_draws 0 ++ pass_draws 0
  ++ concat (repeat (pass_draws (99 # 100)) 126)
  ++ pass_draws 0
  ++ concat (repeat (pass_draws (99 # 100)) 127).

Definition tie_prng : PRNG := scripted_prng tie_script.

(** Whether a computation returned. *)
Definition returned {A : Type} (o : option A) : bool :=
  match o with Some _ => true | None => false end.

(** A linear congruential source whose [random()] draws are in [[0, 1)] for
    every state: the state is a residue modulo 65537, a draw is the next
    residue over 65537, and [gauss(mu, sigma)] rescales the same residue to
    [mu + sigma * z] with [z] in [[-1, 1)]. *)
Definition lcg_next (x : Z) : Z := ((75 * x + 74) mod 65537)%Z.

Definition lcg_prng : PRNG :=
  {| rng_state := Z;
     rng_seed := fun seed => seed;
     rng_random := fun x => (lcg_next x # 65537, lcg_next x);
     rng_gauss := fun mu sigma x =>
       (mu + sigma * ((2 * lcg_next x - 65537) # 65537), lcg_next x) |}.

(** Four agents, all of group A, who always follow the platform and never
    explore, with room to hire the whole population; two iterations. *)
Definition one_group_params : SimParams :=
  {| n_agents := 4;
     group_imbalance := 1;
     seed := 42;
     t_user := 1;
     a_user := 3 # 10;
     r_user := 0;
     t_hr := 6 # 10;
     b_hr := 15 # 100;
     params_hiring_threshold := 45 # 100;
     params_hiring_capacity := 1;
     lr := 25 # 100;
     diversity_reg := 1 # 10;
     params_feedback_weight := 6 # 10;
     iterations := 2 |}.

(** The default parameters with six agents, three iterations and a
    platform that does not learn. *)
Definition frozen_params : SimParams :=
  {| n_agents := 6;
     group_imbalance := 1 # 2;
     seed := 42;
     t_user := 7 # 10;
     a_user := 3 # 10;
     r_user := 2 # 10;
     t_hr := 6 # 10;
     b_hr := 15 # 100;
     params_hiring_threshold := 45 # 100;
     params_hiring_capacity := 3 # 10;
     lr := 0;
     diversity_reg := 1 # 10;
     params_feedback_weight := 6 # 10;
     iterations := 3 |}.


(** An agent of group A with the default behaviour parameters. *)
Definition example_agent : Agent :=
  {| group := "A";
     skill := 1 # 2;
     trust_in_algorithm := 7 # 10;
     adaptation_speed := 3 # 10;
     risk_tolerance := 2 # 10;
     preference_for_high := 1 # 2 |}.



(** The lists of one pass with two agents, both of group A. *)
Definition example_metrics : option MetricSnapshot :=
  compute_iteration_metrics log2_approx ["A"; "A"] [1; 0]%Z [1; 1]%Z
    [true; false] (1 # 2) (1 # 2) None.

(** A state with one agent, as a pass finds it. *)
Definition example_state : SimState :=
  {| st_agents := [example_agent];
     st_platform := initial_platform example_params;
     st_hr := initial_hr example_params |}.

(** The default parameters with two agents, one iteration and the double
    [2^1023] as [hiring_capacity]: the product with the population size
    overflows. *)
Definition overflow_params : SimParams :=
  {| n_agents := 2;
     group_imbalance := 1 # 2;
     seed := 42;
     t_user := 7 # 10;
     a_user := 3 # 10;
     r_user := 2 # 10;
     t_hr := 6 # 10;
     b_hr := 15 # 100;
     params_hiring_threshold := 45 # 100;
     params_hiring_capacity := inject_Z (2 ^ 1023);
     lr := 25 # 100;
     diversity_reg := 1 # 10;
     params_feedback_weight := 6 # 10;
     iterations := 1 |}.

(** * Properties *)

(** ** Facts about the helpers *)

Lemma Qltb_lt (x y : Q) : Qltb x y = true <-> x < y.
Proof.
  unfold Qltb. rewrite Qlt_alt. destruct (x ?= y); split; congruence.
Qed.

Lemma Qltb_ge (x y : Q) : Qltb x y = false <-> y <= x.
Proof.
  destruct (Qltb x y) eqn:E.
  - apply Qltb_lt in E. split; [done | lra].
  - split; [intros _ | done]. apply Qnot_lt_le. intros H.
    apply Qltb_lt in H. congruence.
Qed.

Lemma Qgeb_ge (x y : Q) : Qgeb x y = true <-> y <= x.
Proof. unfold Qgeb. apply Qle_bool_iff. Qed.

Lemma py_max_cases (a b : Q) :
  (a < b /\ py_max a b = b) \/ (b <= a /\ py_max a b = a).
Proof.
  unfold py_max. destruct (Qltb a b) eqn:E.
  - left. by apply Qltb_lt in E.
  - right. by apply Qltb_ge in E.
Qed.

Lemma py_min_cases (a b : Q) :
  (b < a /\ py_min a b = b) \/ (a <= b /\ py_min a b = a).
Proof.
  unfold py_min. destruct (Qltb b a) eqn:E.
  - left. by apply Qltb_lt in E.
  - right. by apply Qltb_ge in E.
Qed.

Lemma clamp_lower (x lo hi : Q) : lo <= clamp x lo hi.
Proof.
  unfold clamp. destruct (py_max_cases lo (py_min hi x)) as [[H ->]|[H ->]]; lra.
Qed.

Lemma clamp_upper (x lo hi : Q) : lo <= hi -> clamp x lo hi <= hi.
Proof.
  intros Hb. unfold clamp.
  destruct (py_max_cases lo (py_min hi x)) as [[H ->]|[H ->]]; [|lra].
  destruct (py_min_cases hi x) as [[H' ->]|[H' ->]]; lra.
Qed.

Lemma clamp01_range (x : Q) : 0 <= clamp01 x <= 1.
Proof.
  split; [apply clamp_lower | apply clamp_upper; lra].
Qed.

(** ** Rounding *)

Lemma inject_Z_succ (z : Z) : inject_Z (z + 1) == inject_Z z + 1.
Proof. by rewrite inject_Z_plus. Qed.

Lemma round_half_even_error (x : Q) :
  - (1 # 2) <= inject_Z (round_half_even x) - x <= 1 # 2.
Proof.
  unfold round_half_even.
  pose proof (Qfloor_le x) as Hlo. pose proof (Qlt_floor x) as Hhi.
  pose proof (inject_Z_succ (Qfloor x)) as Hsucc.
  destruct (Qcompare (x - inject_Z (Qfloor x)) (1 # 2)) eqn:E.
  - apply Qeq_alt in E. destruct (Z.even (Qfloor x)); lra.
  - apply Qlt_alt in E. lra.
  - apply Qgt_alt in E. lra.
Qed.

Lemma round_decimal_6 (x : Q) :
  round_decimal x 6 = inject_Z (round_half_even (x * micro)) / micro.
Proof. reflexivity. Qed.

Lemma div_micro (x : Q) : x / micro = x * (1 # 1000000).
Proof. reflexivity. Qed.

Lemma round_micro_error (x : Q) :
  - (1 # 2) <= inject_Z (round_half_even (x * micro)) - x * 1000000 <= 1 # 2.
Proof. exact (round_half_even_error (x * micro)). Qed.

Lemma round_decimal_6_error (x : Q) :
  - (1 # 2000000) <= round_decimal x 6 - x <= 1 # 2000000.
Proof.
  rewrite round_decimal_6, div_micro.
  pose proof (round_micro_error x) as H. lra.
Qed.

Lemma round_decimal_6_zero : round_decimal 0 6 == 0.
Proof. reflexivity. Qed.

(** An integer between -3/2 and 3/2 is between -1 and 1. *)
Lemma inject_Z_small (m : Z) :
  - (3 # 2) <= inject_Z m <= 3 # 2 -> -1 <= inject_Z m <= 1.
Proof.
  intros [Hlo Hhi].
  assert (-2 < m < 2)%Z as [H1 H2].
  { split; rewrite Zlt_Qlt.
    - change (inject_Z (-2)) with (-2 # 1). lra.
    - change (inject_Z 2) with (2 # 1). lra. }
  split.
  - change (-1) with (inject_Z (-1)). rewrite <- Zle_Qle. lia.
  - change 1 with (inject_Z 1). rewrite <- Zle_Qle. lia.
Qed.

Lemma inject_Z_sub_add (a b c : Z) :
  inject_Z (a - b + c) == inject_Z a - inject_Z b + inject_Z c.
Proof.
  by rewrite inject_Z_plus, <- Z.add_opp_r, inject_Z_plus, inject_Z_opp.
Qed.

(** Rounding a difference and subtracting two roundings differ by at most
    one unit of the last place. *)
Lemma round_decimal_6_sub (a b : Q) :
  Qabs (round_decimal (a - b) 6 - (round_decimal a 6 - round_decimal b 6)) <= 1 # 1000000.
Proof.
  rewrite !round_decimal_6, !div_micro.
  pose proof (round_micro_error (a - b)) as Hd.
  pose proof (round_micro_error a) as Ha.
  pose proof (round_micro_error b) as Hb.
  set (kd := round_half_even ((a - b) * micro)) in *.
  set (ka := round_half_even (a * micro)) in *.
  set (kb := round_half_even (b * micro)) in *.
  pose proof (inject_Z_sub_add kd ka kb) as He.
  assert (Hs : - (3 # 2) <= inject_Z (kd - ka + kb) <= 3 # 2) by lra.
  apply inject_Z_small in Hs.
  apply Qabs_Qle_condition. lra.
Qed.

(** The same for a difference with an already rounded value. *)
Lemma round_decimal_6_sub_rounded (d c : Q) :
  Qabs (round_decimal (d - round_decimal c 6) 6 - (round_decimal d 6 - round_decimal c 6))
    <= 1 # 1000000.
Proof.
  rewrite (round_decimal_6 (d - round_decimal c 6)), (round_decimal_6 d), !div_micro.
  pose proof (round_micro_error (d - round_decimal c 6)) as Hd.
  pose proof (round_micro_error d) as Ha.
  set (kd := round_half_even ((d - round_decimal c 6) * micro)) in *.
  set (ka := round_half_even (d * micro)) in *.
  rewrite round_decimal_6, div_micro in Hd |- *.
  set (kc := round_half_even (c * micro)) in *.
  pose proof (inject_Z_sub_add kd ka kc) as He.
  assert (Hs : - (3 # 2) <= inject_Z (kd - ka + kc) <= 3 # 2) by lra.
  apply inject_Z_small in Hs.
  apply Qabs_Qle_condition. lra.
Qed.

Lemma round_half_even_between (x : Q) (a b : Z) :
  inject_Z a <= x <= inject_Z b -> (a <= round_half_even x <= b)%Z.
Proof.
  intros [Ha Hb]. pose proof (round_half_even_error x) as [H1 H2].
  split.
  - destruct (Z_lt_le_dec (round_half_even x) a) as [Hlt|]; [|done].
    assert (Hle : (round_half_even x + 1 <= a)%Z) by lia.
    rewrite Zle_Qle, inject_Z_succ in Hle. lra.
  - destruct (Z_lt_le_dec b (round_half_even x)) as [Hlt|]; [|done].
    assert (Hle : (b + 1 <= round_half_even x)%Z) by lia.
    rewrite Zle_Qle, inject_Z_succ in Hle. lra.
Qed.

Lemma round_decimal_6_between (x : Q) (a b : Z) :
  inject_Z a <= x <= inject_Z b -> inject_Z a <= round_decimal x 6 <= inject_Z b.
Proof.
  intros [Ha Hb]. rewrite round_decimal_6, div_micro.
  destruct (round_half_even_between (x * micro) (a * 1000000) (b * 1000000))
    as [H1 H2].
  { rewrite !inject_Z_mult. change (inject_Z 1000000) with 1000000.
    change micro with 1000000. lra. }
  rewrite Zle_Qle, inject_Z_mult in H1, H2.
  change (inject_Z 1000000) with 1000000 in H1, H2. lra.
Qed.

Lemma round_decimal_6_unit (x : Q) : 0 <= x <= 1 -> 0 <= round_decimal x 6 <= 1.
Proof. intros H. by apply (round_decimal_6_between x 0 1). Qed.

Lemma round_decimal_6_abs (x : Q) (k : Z) :
  - inject_Z k <= x <= inject_Z k -> - inject_Z k <= round_decimal x 6 <= inject_Z k.
Proof.
  intros H. rewrite <- inject_Z_opp in *. by apply round_decimal_6_between.
Qed.

Lemma round_half_even_proper (x y : Q) :
  x == y -> round_half_even x = round_half_even y.
Proof.
  intros E. unfold round_half_even.
  rewrite (Qfloor_comp _ _ E).
  assert (E' : x - inject_Z (Qfloor y) == y - inject_Z (Qfloor y)) by (rewrite E; ring).
  by rewrite (Qcompare_comp _ _ E' (1 # 2) (1 # 2) (Qeq_refl _)).
Qed.

Lemma round_decimal_proper (x y : Q) (n : nat) : x == y -> round_decimal x n == round_decimal y n.
Proof.
  intros E. unfold round_decimal.
  set (scale := inject_Z (10 ^ Z.of_nat n)).
  rewrite (round_half_even_proper (x * scale) (y * scale)); [reflexivity|].
  by rewrite E.
Qed.

(** ** Binary64 rounding *)

Lemma pow2_pos (k : Z) : 0 < 2 ^ k.
Proof. apply Qpower_0_lt. lra. Qed.

Lemma pow2_nonzero (k : Z) : ~ 2 ^ k == 0.
Proof. pose proof (pow2_pos k). lra. Qed.

Lemma pow2_le (n m : Z) : (n <= m)%Z -> 2 ^ n <= 2 ^ m.
Proof. intros H. apply Qpower_le_compat_l; [done | lra]. Qed.

Lemma pow2_lt (n m : Z) : (n < m)%Z -> 2 ^ n < 2 ^ m.
Proof. intros H. apply Qpower_lt_compat_l; [done | lra]. Qed.

Lemma pow2_add (n m : Z) : 2 ^ (n + m) == 2 ^ n * 2 ^ m.
Proof. apply Qpower_plus. lra. Qed.

Lemma pow2_sub (n m : Z) : 2 ^ (n - m) == 2 ^ n / 2 ^ m.
Proof. apply Qpower_minus. lra. Qed.

Lemma pow2_succ (n : Z) : 2 ^ (n + 1) == 2 * 2 ^ n.
Proof. rewrite pow2_add. change (2 ^ 1) with 2. ring. Qed.

Lemma pow2_Z (n : Z) : (0 <= n)%Z -> inject_Z (2 ^ n) == 2 ^ n.
Proof. intros H. by rewrite Zpower_Qpower. Qed.

Lemma Z_log2_pow2 (n : Z) :
  (0 < n)%Z -> 2 ^ Z.log2 n <= inject_Z n < 2 ^ (Z.log2 n + 1).
Proof.
  intros Hn. pose proof (Z.log2_spec n Hn) as [H1 H2].
  pose proof (Z.log2_nonneg n) as H0.
  rewrite <- !pow2_Z by lia. rewrite <- Zle_Qle, <- Zlt_Qlt.
  split; [done|]. by rewrite <- Z.add_1_r in H2.
Qed.

Lemma ilog2_spec (x : Q) : 0 < x -> 2 ^ ilog2 x <= x < 2 ^ (ilog2 x + 1).
Proof.
  intros Hx. unfold ilog2.
  destruct x as [n d]. simpl Qnum. simpl Qden.
  assert (Hn : (0 < n)%Z).
  { unfold Qlt in Hx. simpl in Hx. lia. }
  pose proof (Z_log2_pow2 n Hn) as [Hn1 Hn2].
  pose proof (Z_log2_pow2 (Zpos d) ltac:(lia)) as [Hd1 Hd2].
  set (a := Z.log2 n) in *. set (b := Z.log2 (Zpos d)) in *.
  assert (Ex : n # d == inject_Z n / inject_Z (Zpos d)) by apply Qmake_Qdiv.
  pose proof (pow2_pos a) as Pa. pose proof (pow2_pos b) as Pb.
  pose proof (pow2_succ a) as Sa. pose proof (pow2_succ b) as Sb.
  assert (Hd0 : 0 < inject_Z (Zpos d)) by lra.
  assert (Hlo : 2 ^ (a - b - 1) <= n # d).
  { rewrite Ex. replace (a - b - 1)%Z with (a - (b + 1))%Z by lia.
    rewrite pow2_sub. apply Qle_shift_div_l; [done|].
    unfold Qdiv. rewrite <- Qmult_assoc.
    assert (0 < / 2 ^ (b + 1)) by (apply Qinv_lt_0_compat, pow2_pos).
    assert (/ 2 ^ (b + 1) * inject_Z (Zpos d) <= 1).
    { rewrite Qmult_comm. apply Qle_shift_div_r; [apply pow2_pos|]. lra. }
    nra. }
  assert (Hhi : n # d < 2 ^ (a - b + 1)).
  { rewrite Ex. replace (a - b + 1)%Z with (a + 1 - b)%Z by lia.
    rewrite pow2_sub. apply Qlt_shift_div_r; [done|].
    unfold Qdiv. rewrite <- Qmult_assoc.
    assert (0 < / 2 ^ b) by (apply Qinv_lt_0_compat, pow2_pos).
    assert (1 <= / 2 ^ b * inject_Z (Zpos d)).
    { rewrite Qmult_comm. apply Qle_shift_div_l; [apply pow2_pos|]. lra. }
    nra. }
  destruct (Qle_bool (2 ^ (a - b)) (n # d)) eqn:E.
  - apply Qle_bool_iff in E. done.
  - split; [done|]. replace (a - b - 1 + 1)%Z with (a - b)%Z by lia.
    apply Qnot_le_lt. intros H. apply Qle_bool_iff in H. congruence.
Qed.

Lemma ilog2_unique (x : Q) (k : Z) :
  2 ^ k <= x -> x < 2 ^ (k + 1) -> ilog2 x = k.
Proof.
  intros H1 H2.
  assert (Hx : 0 < x) by (pose proof (pow2_pos k); lra).
  destruct (ilog2_spec x Hx) as [H3 H4].
  destruct (Z.lt_trichotomy (ilog2 x) k) as [Hlt|[Heq|Hgt]]; [|done|].
  - pose proof (pow2_le (ilog2 x + 1) k ltac:(lia)). lra.
  - pose proof (pow2_le (k + 1) (ilog2 x) ltac:(lia)). lra.
Qed.

Lemma ilog2_proper (x y : Q) : 0 < x -> x == y -> ilog2 x = ilog2 y.
Proof.
  intros Hx E. symmetry. destruct (ilog2_spec x Hx).
  apply ilog2_unique; lra.
Qed.

Lemma ilog2_le (x : Q) (k : Z) : 0 < x -> x <= 2 ^ k -> (ilog2 x <= k)%Z.
Proof.
  intros Hx H. destruct (ilog2_spec x Hx) as [H1 _].
  apply (Qpower_le_compat_l_inv 2); lra.
Qed.

Lemma ilog2_mono (x y : Q) : 0 < x -> x <= y -> (ilog2 x <= ilog2 y)%Z.
Proof.
  intros Hx Hxy. destruct (ilog2_spec x Hx) as [H1 _].
  destruct (ilog2_spec y ltac:(lra)) as [_ H2].
  assert (2 ^ ilog2 x < 2 ^ (ilog2 y + 1)) by lra.
  apply Qpower_lt_compat_l_inv in H; [lia | lra].
Qed.

Lemma Qabs_pos_nonzero (x : Q) : ~ x == 0 -> 0 < Qabs x.
Proof.
  intros H. pose proof (Qabs_nonneg x).
  destruct (Qeq_dec (Qabs x) 0) as [E|E]; [|lra].
  exfalso. apply H. revert E. apply Qabs_case; intros; lra.
Qed.

Lemma b64_exponent_proper (x y : Q) :
  ~ x == 0 -> x == y -> b64_exponent x = b64_exponent y.
Proof.
  intros Hx E. unfold b64_exponent.
  rewrite (ilog2_proper (Qabs x) (Qabs y)); [done | by apply Qabs_pos_nonzero|].
  by rewrite E.
Qed.

Lemma round_half_even_Z (m : Z) : round_half_even (inject_Z m) = m.
Proof.
  pose proof (round_half_even_between (inject_Z m) m m ltac:(lra)). lia.
Qed.

Lemma round_half_even_int (x : Q) (m : Z) :
  x == inject_Z m -> round_half_even x = m.
Proof.
  intros E. rewrite (round_half_even_proper _ _ E). apply round_half_even_Z.
Qed.

Lemma round_half_even_mono (x y : Q) :
  x <= y -> (round_half_even x <= round_half_even y)%Z.
Proof.
  intros Hxy.
  destruct (Z_lt_le_dec (round_half_even y) (round_half_even x)) as [Hlt|]; [|done].
  exfalso.
  pose proof (round_half_even_error x) as [_ H1].
  pose proof (round_half_even_error y) as [H2 _].
  assert (Hle : (round_half_even y + 1 <= round_half_even x)%Z) by lia.
  rewrite Zle_Qle, inject_Z_succ in Hle.
  assert (E : x == y) by lra.
  rewrite (round_half_even_proper _ _ E) in Hlt. lia.
Qed.

Lemma b64_round_zero (x : Q) : x == 0 -> b64_round x == 0.
Proof.
  intros E. unfold b64_round.
  rewrite (round_half_even_int _ 0); [ring|].
  apply (Qeq_trans _ (0 * / 2 ^ b64_exponent x)); [|ring].
  apply Qmult_comp; [exact E | reflexivity].
Qed.

Lemma b64_round_proper (x y : Q) : x == y -> b64_round x == b64_round y.
Proof.
  intros E. destruct (Qeq_dec x 0) as [H0|H0].
  - rewrite !b64_round_zero; [done | by rewrite <- E | done].
  - unfold b64_round. rewrite <- (b64_exponent_proper x y H0 E).
    rewrite (round_half_even_proper (x / _) (y / 2 ^ b64_exponent x));
      [reflexivity|]. apply Qmult_comp; [exact E | reflexivity].
Qed.

(** The scaled value has at most 53 bits, and exactly 53 outside the
    subnormal range. *)
Lemma b64_scaled (x : Q) :
  ~ x == 0 ->
  Qabs (x / 2 ^ b64_exponent x) < 2 ^ 53 /\
  ((-1074 < b64_exponent x)%Z -> 2 ^ 52 <= Qabs (x / 2 ^ b64_exponent x)).
Proof.
  intros H0. pose proof (Qabs_pos_nonzero x H0) as Hpos.
  destruct (ilog2_spec (Qabs x) Hpos) as [H1 H2].
  unfold b64_exponent in *. set (i := ilog2 (Qabs x)) in *.
  set (e := Z.max (-1074) (i - 52)).
  pose proof (pow2_pos e) as Pe.
  assert (Ea : Qabs (x / 2 ^ e) == Qabs x / 2 ^ e).
  { unfold Qdiv. rewrite Qabs_Qmult. rewrite (Qabs_pos (/ 2 ^ e)); [done|].
    apply Qlt_le_weak, Qinv_lt_0_compat, Pe. }
  rewrite Ea. split.
  - apply Qlt_shift_div_r; [done|].
    assert (2 ^ (i + 1) <= 2 ^ 53 * 2 ^ e).
    { rewrite <- pow2_add. apply pow2_le. lia. }
    lra.
  - intros He. assert (e = (i - 52)%Z) as -> by lia.
    apply Qle_shift_div_l; [done|].
    rewrite <- pow2_add. replace (52 + (i - 52))%Z with i by lia. done.
Qed.

Lemma b64_round_error (x : Q) :
  Qabs (b64_round x - x) <= 2 ^ (b64_exponent x - 1).
Proof.
  unfold b64_round. set (e := b64_exponent x).
  pose proof (pow2_pos e) as Pe.
  pose proof (round_half_even_error (x / 2 ^ e)) as [H1 H2].
  assert (Ex : x == (x / 2 ^ e) * 2 ^ e) by (field; apply pow2_nonzero).
  assert (Eh : 2 ^ (e - 1) == (1 # 2) * 2 ^ e).
  { rewrite pow2_sub. change (2 ^ 1) with 2. field. }
  rewrite Eh. set (y := x / 2 ^ e) in *.
  apply Qabs_Qle_condition. split; nra.
Qed.

Lemma b64_exponent_le (x : Q) (k : Z) :
  ~ x == 0 -> Qabs x <= 2 ^ k -> (-1074 <= k - 52)%Z ->
  (b64_exponent x <= k - 52)%Z.
Proof.
  intros H0 Hk Hmin. unfold b64_exponent.
  pose proof (ilog2_le (Qabs x) k (Qabs_pos_nonzero x H0) Hk). lia.
Qed.

(** At most half a unit in the last place of [2^k]. *)
Lemma b64_round_error_below (x : Q) (k : Z) :
  Qabs x <= 2 ^ k -> (-1074 <= k - 52)%Z ->
  Qabs (b64_round x - x) <= 2 ^ (k - 53).
Proof.
  intros Hk Hmin. destruct (Qeq_dec x 0) as [H0|H0].
  - rewrite (b64_round_zero x H0), H0.
    apply Qlt_le_weak. apply (Qlt_le_trans _ (2 ^ (k - 53))); [|lra].
    apply pow2_pos.
  - eapply Qle_trans; [apply b64_round_error|].
    apply pow2_le. pose proof (b64_exponent_le x k H0 Hk Hmin). lia.
Qed.

(** A value on the grid of its own exponent is not changed. *)
Lemma b64_round_fix (x : Q) (m : Z) :
  x / 2 ^ b64_exponent x == inject_Z m -> b64_round x == x.
Proof.
  intros E. unfold b64_round. rewrite (round_half_even_int _ m E), <- E.
  field. apply pow2_nonzero.
Qed.

Lemma round_half_even_0 : round_half_even 0 = 0%Z.
Proof. reflexivity. Qed.

Lemma b64_round_nonneg (x : Q) : 0 <= x -> 0 <= b64_round x.
Proof.
  intros Hx. unfold b64_round. pose proof (pow2_pos (b64_exponent x)) as Pe.
  assert (0 <= x / 2 ^ b64_exponent x).
  { apply Qle_shift_div_l; [done|]. lra. }
  pose proof (round_half_even_mono 0 _ H) as Hm.
  rewrite round_half_even_0 in Hm. rewrite Zle_Qle in Hm.
  change (inject_Z 0) with 0 in Hm. nra.
Qed.

Lemma b64_round_nonpos (x : Q) : x <= 0 -> b64_round x <= 0.
Proof.
  intros Hx. unfold b64_round. pose proof (pow2_pos (b64_exponent x)) as Pe.
  assert (x / 2 ^ b64_exponent x <= 0).
  { apply Qle_shift_div_r; [done|]. lra. }
  pose proof (round_half_even_mono _ 0 H) as Hm.
  rewrite round_half_even_0 in Hm. rewrite Zle_Qle in Hm.
  change (inject_Z 0) with 0 in Hm. nra.
Qed.

Lemma b64_exponent_pos (x : Q) :
  0 < x -> b64_exponent x = Z.max (-1074) (ilog2 x - 52).
Proof.
  intros Hx. unfold b64_exponent.
  rewrite (ilog2_proper (Qabs x) x); [done| |apply Qabs_pos; lra].
  rewrite Qabs_pos; lra.
Qed.

Lemma b64_exponent_neg (x : Q) :
  x < 0 -> b64_exponent x = Z.max (-1074) (ilog2 (- x) - 52).
Proof.
  intros Hx. unfold b64_exponent.
  rewrite (ilog2_proper (Qabs x) (- x)); [done| |apply Qabs_neg; lra].
  rewrite Qabs_neg; lra.
Qed.

Lemma pow2_53_Z : inject_Z (2 ^ 53) == 2 ^ 53.
Proof. by apply pow2_Z. Qed.

Lemma pow2_52_Z : inject_Z (2 ^ 52) == 2 ^ 52.
Proof. by apply pow2_Z. Qed.

(** The integer mantissa of a positive value. *)
Lemma b64_mantissa_pos (x : Q) :
  0 < x ->
  let e := b64_exponent x in
  let m := round_half_even (x / 2 ^ e) in
  (0 <= m <= 2 ^ 53)%Z /\ ((-1074 < e)%Z -> (2 ^ 52 <= m)%Z).
Proof.
  intros Hx e m. pose proof (pow2_pos e) as Pe.
  destruct (b64_scaled x ltac:(lra)) as [H1 H2]. fold e in H1, H2.
  assert (Hs : 0 < x / 2 ^ e) by (apply Qlt_shift_div_l; lra).
  rewrite Qabs_pos in H1, H2 by lra.
  split.
  - apply round_half_even_between. rewrite pow2_53_Z.
    change (inject_Z 0) with 0. lra.
  - intros He. specialize (H2 He).
    rewrite <- pow2_52_Z in H2.
    pose proof (round_half_even_mono _ _ H2) as Hm.
    by rewrite round_half_even_Z in Hm.
Qed.

Lemma b64_mantissa_neg (x : Q) :
  x < 0 ->
  let e := b64_exponent x in
  let m := round_half_even (x / 2 ^ e) in
  (- 2 ^ 53 <= m <= 0)%Z /\ ((-1074 < e)%Z -> (m <= - 2 ^ 52)%Z).
Proof.
  intros Hx e m. pose proof (pow2_pos e) as Pe.
  destruct (b64_scaled x ltac:(lra)) as [H1 H2]. fold e in H1, H2.
  assert (Hs : x / 2 ^ e < 0).
  { apply Qlt_shift_div_r; lra. }
  rewrite Qabs_neg in H1, H2 by lra.
  split.
  - apply round_half_even_between. rewrite inject_Z_opp, pow2_53_Z.
    change (inject_Z 0) with 0. lra.
  - intros He. specialize (H2 He).
    assert (H3 : x / 2 ^ e <= inject_Z (- 2 ^ 52)).
    { rewrite inject_Z_opp, pow2_52_Z. lra. }
    pose proof (round_half_even_mono _ _ H3) as Hm.
    by rewrite round_half_even_Z in Hm.
Qed.

Lemma b64_round_mono_pos (x y : Q) :
  0 < x -> x <= y -> b64_round x <= b64_round y.
Proof.
  intros Hx Hxy. assert (Hy : 0 < y) by lra.
  pose proof (ilog2_mono x y Hx Hxy) as Hi.
  destruct (b64_mantissa_pos x Hx) as [Hmx _].
  destruct (b64_mantissa_pos y Hy) as [_ Hmy].
  unfold b64_round.
  rewrite (b64_exponent_pos x Hx) in *. rewrite (b64_exponent_pos y Hy) in *.
  set (ex := Z.max (-1074) (ilog2 x - 52)) in *.
  set (ey := Z.max (-1074) (ilog2 y - 52)) in *.
  pose proof (pow2_pos ex) as Px. pose proof (pow2_pos ey) as Py.
  destruct (Z.eq_dec ex ey) as [E|E].
  - rewrite <- E.
    assert (Hs : x / 2 ^ ex <= y / 2 ^ ex).
    { apply Qle_shift_div_l; [done|].
      assert (x / 2 ^ ex * 2 ^ ex == x) by (field; apply pow2_nonzero). lra. }
    pose proof (round_half_even_mono _ _ Hs) as Hm. rewrite Zle_Qle in Hm.
    nra.
  - assert (Hlt : (ex < ey)%Z) by lia.
    specialize (Hmy ltac:(lia)).
    destruct Hmx as [_ Hmx]. rewrite Zle_Qle, pow2_53_Z in Hmx.
    rewrite Zle_Qle, pow2_52_Z in Hmy.
    pose proof (pow2_le (ex + 1) ey ltac:(lia)) as Hp.
    rewrite pow2_succ in Hp.
    assert (E53 : (2:Q) ^ 53 == 2 * 2 ^ 52) by reflexivity.
    pose proof (pow2_pos 52). nra.
Qed.

Lemma b64_round_mono_neg (x y : Q) :
  y < 0 -> x <= y -> b64_round x <= b64_round y.
Proof.
  intros Hy Hxy. assert (Hx : x < 0) by lra.
  pose proof (ilog2_mono (- y) (- x) ltac:(lra) ltac:(lra)) as Hi.
  destruct (b64_mantissa_neg x Hx) as [_ Hmx].
  destruct (b64_mantissa_neg y Hy) as [Hmy _].
  unfold b64_round.
  rewrite (b64_exponent_neg x Hx) in *. rewrite (b64_exponent_neg y Hy) in *.
  set (ex := Z.max (-1074) (ilog2 (- x) - 52)) in *.
  set (ey := Z.max (-1074) (ilog2 (- y) - 52)) in *.
  pose proof (pow2_pos ex) as Px. pose proof (pow2_pos ey) as Py.
  destruct (Z.eq_dec ex ey) as [E|E].
  - rewrite <- E.
    assert (Hs : x / 2 ^ ex <= y / 2 ^ ex).
    { apply Qle_shift_div_l; [done|].
      assert (x / 2 ^ ex * 2 ^ ex == x) by (field; apply pow2_nonzero). lra. }
    pose proof (round_half_even_mono _ _ Hs) as Hm. rewrite Zle_Qle in Hm.
    nra.
  - assert (Hlt : (ey < ex)%Z) by lia.
    specialize (Hmx ltac:(lia)).
    destruct Hmy as [Hmy _]. rewrite Zle_Qle, inject_Z_opp, pow2_53_Z in Hmy.
    rewrite Zle_Qle, inject_Z_opp, pow2_52_Z in Hmx.
    pose proof (pow2_le (ey + 1) ex ltac:(lia)) as Hp.
    rewrite pow2_succ in Hp.
    assert (E53 : (2:Q) ^ 53 == 2 * 2 ^ 52) by reflexivity.
    pose proof (pow2_pos 52). nra.
Qed.

(** Rounding is monotone. *)
Lemma b64_round_mono (x y : Q) : x <= y -> b64_round x <= b64_round y.
Proof.
  intros Hxy.
  destruct (Qlt_le_dec 0 x) as [Hx|Hx]; [by apply b64_round_mono_pos|].
  destruct (Qlt_le_dec y 0) as [Hy|Hy]; [by apply b64_round_mono_neg|].
  pose proof (b64_round_nonpos x Hx). pose proof (b64_round_nonneg y Hy). lra.
Qed.

Lemma b64_exponent_min (x : Q) : (-1074 <= b64_exponent x)%Z.
Proof. unfold b64_exponent. lia. Qed.

(** The binary64 numbers: [m * 2^e] with at most 53 bits in [m] and [e] not
    below the subnormal exponent, are fixed by the rounding. *)
Lemma b64_grid_fix (m e : Z) :
  (-1074 <= e)%Z -> (Z.abs m <= 2 ^ 53)%Z ->
  b64_round (inject_Z m * 2 ^ e) == inject_Z m * 2 ^ e.
Proof.
  intros He Hm. set (v := inject_Z m * 2 ^ e).
  pose proof (pow2_pos e) as Pe.
  destruct (Z.eq_dec m 0%Z) as [->|Hm0].
  { apply (Qeq_trans _ 0); [apply b64_round_zero|]; unfold v; ring. }
  assert (Hv0 : ~ v == 0).
  { unfold v. intros E. apply Qmult_integral in E as [E|E]; [|lra].
    apply Hm0. apply inject_Z_injective. exact E. }
  set (M := Z.abs m) in *. assert (HM : (0 < M)%Z) by lia.
  assert (Eabs : Qabs v == inject_Z M * 2 ^ e).
  { unfold v. rewrite Qabs_Qmult, (Qabs_pos (2 ^ e)) by lra.
    apply Qmult_comp; reflexivity. }
  pose proof (Z_log2_pow2 M HM) as [Hj1 Hj2].
  pose proof (Z.log2_nonneg M) as Hj0.
  set (j := Z.log2 M) in *.
  assert (Hj53 : (j <= 53)%Z).
  { apply (Qpower_le_compat_l_inv 2); [|lra].
    assert (inject_Z M <= 2 ^ 53) by (rewrite <- pow2_53_Z, <- Zle_Qle; done).
    lra. }
  assert (Hi : ilog2 (Qabs v) = (j + e)%Z).
  { apply ilog2_unique; rewrite Eabs.
    - rewrite pow2_add. nra.
    - replace (j + e + 1)%Z with (j + 1 + e)%Z by lia. rewrite pow2_add. nra. }
  assert (Hexp : b64_exponent v = Z.max (-1074) (j + e - 52)).
  { unfold b64_exponent. by rewrite Hi. }
  destruct (Z_le_gt_dec (b64_exponent v) e) as [Hle|Hgt].
  - apply (b64_round_fix v (m * 2 ^ (e - b64_exponent v))).
    rewrite inject_Z_mult, pow2_Z by lia. rewrite pow2_sub. unfold v.
    field. apply pow2_nonzero.
  - assert (j = 53%Z) by lia.
    assert (HM53 : M = (2 ^ 53)%Z).
    { apply Z.le_antisymm; [done|].
      rewrite Zle_Qle, pow2_53_Z. rewrite <- H. exact Hj1. }
    assert (Hexp' : b64_exponent v = (e + 1)%Z) by lia.
    apply (b64_round_fix v (m / 2)). rewrite Hexp'. unfold v.
    assert (Em : inject_Z m == 2 * inject_Z (m / 2)).
    { assert (Hcase : (m = 2 ^ 53 \/ m = - 2 ^ 53)%Z) by (unfold M in HM53; lia).
      destruct Hcase as [-> | ->]; reflexivity. }
    rewrite Em, pow2_succ. field. apply pow2_nonzero.
Qed.

Lemma b64_round_mantissa (x : Q) :
  (Z.abs (round_half_even (x / 2 ^ b64_exponent x)) <= 2 ^ 53)%Z.
Proof.
  destruct (Qeq_dec x 0) as [H0|H0].
  - rewrite (round_half_even_int _ 0); [done|].
    apply (Qeq_trans _ (0 * / 2 ^ b64_exponent x)); [|ring].
    apply Qmult_comp; [exact H0 | reflexivity].
  - destruct (b64_scaled x H0) as [H1 _].
    apply Qabs_Qlt_condition in H1 as [H1 H2].
    pose proof (round_half_even_between (x / 2 ^ b64_exponent x)
                  (- 2 ^ 53) (2 ^ 53)) as Hb.
    rewrite inject_Z_opp, pow2_53_Z in Hb. specialize (Hb ltac:(lra)). lia.
Qed.

(** Rounding twice is rounding once. *)
Lemma b64_round_idem (x : Q) : b64_round (b64_round x) == b64_round x.
Proof.
  unfold b64_round at 2 3.
  apply b64_grid_fix; [apply b64_exponent_min | apply b64_round_mantissa].
Qed.

(** Integers of at most 53 bits are binary64 numbers. *)
Lemma b64_round_Z (n : Z) :
  (Z.abs n <= 2 ^ 53)%Z -> b64_round (inject_Z n) == inject_Z n.
Proof.
  intros Hn. pose proof (b64_grid_fix n 0 ltac:(lia) Hn) as H.
  assert (E : inject_Z n * 2 ^ 0 == inject_Z n) by (change (2 ^ 0) with 1; ring).
  rewrite <- E at 2. rewrite <- H. apply b64_round_proper. by rewrite E.
Qed.

(** Bounds that are binary64 numbers survive the rounding. *)
Lemma b64_round_between (x lo hi : Q) :
  b64_round lo == lo -> b64_round hi == hi -> lo <= x <= hi ->
  lo <= b64_round x <= hi.
Proof.
  intros Hlo Hhi [H1 H2]. rewrite <- Hlo, <- Hhi.
  split; by apply b64_round_mono.
Qed.

Lemma b64_round_unit (x : Q) : 0 <= x <= 1 -> 0 <= b64_round x <= 1.
Proof. apply b64_round_between; [by apply b64_round_zero | by apply (b64_round_Z 1)]. Qed.

(** ** Finite results *)

(** A bound that is a power of two survives the rounding. *)
Lemma b64_round_abs_le (x : Q) (k : Z) :
  (-1074 <= k)%Z -> Qabs x <= 2 ^ k -> Qabs (b64_round x) <= 2 ^ k.
Proof.
  intros Hk Hx. apply Qabs_Qle_condition in Hx as [H1 H2].
  apply Qabs_Qle_condition.
  pose proof (b64_grid_fix 1 k Hk ltac:(lia)) as Hhi.
  pose proof (b64_grid_fix (-1) k Hk ltac:(lia)) as Hlo.
  assert (Ehi : inject_Z 1 * 2 ^ k == 2 ^ k) by (change (inject_Z 1) with 1; ring).
  assert (Elo : inject_Z (-1) * 2 ^ k == - 2 ^ k)
    by (change (inject_Z (-1)) with (-1 # 1); ring).
  destruct (b64_round_between x (inject_Z (-1) * 2 ^ k) (inject_Z 1 * 2 ^ k)
              Hlo Hhi) as [H3 H4].
  { rewrite Elo, Ehi. done. }
  rewrite Elo in H3. rewrite Ehi in H4. done.
Qed.

(** Below [2^1024] the operation returns the rounded value. *)
Lemma b64_finite (x : Q) : Qabs x <= 2 ^ 1023 -> b64 x = F_finite (b64_round x).
Proof.
  intros Hx. unfold b64.
  pose proof (b64_round_abs_le x 1023 ltac:(lia) Hx) as Hr.
  pose proof (pow2_lt 1023 1024 ltac:(lia)) as Hlt.
  destruct (Qle_bool (2 ^ 1024) (Qabs (b64_round x))) eqn:E; [|done].
  apply Qle_bool_iff in E. exfalso.
  apply (Qlt_irrefl (2 ^ 1024)).
  eapply Qle_lt_trans; [exact E|]. eapply Qle_lt_trans; [exact Hr | exact Hlt].
Qed.

Lemma float_of_int_finite (n : Z) :
  (Z.abs n <= 2 ^ 1023)%Z ->
  float_of_int n = Some (F_finite (b64_round (inject_Z n))).
Proof.
  intros Hn. unfold float_of_int. rewrite b64_finite; [done|].
  change (Qabs (inject_Z n)) with (inject_Z (Z.abs n)).
  rewrite <- (pow2_Z 1023) by lia. by rewrite <- Zle_Qle.
Qed.

(** In the documented range of [hiring_capacity] the product is finite:
    [int()] does not raise. *)
Lemma capacity_cap_defined (hr : HRDepartment) (N : nat) :
  0 <= hiring_capacity hr <= 1 -> (Z.of_nat N <= 2 ^ 1023)%Z ->
  is_Some (capacity_cap hr N).
Proof.
  intros Hc HN. unfold capacity_cap, capacity_product, py_float.
  rewrite float_of_int_finite by lia.
  pose proof (b64_round_unit _ Hc) as [H0 H1].
  pose proof (pow2_le 0 1023 ltac:(lia)) as Hone. change (2 ^ 0) with 1 in Hone.
  rewrite (b64_finite (hiring_capacity hr))
    by (rewrite Qabs_pos by tauto; lra).
  cbn [float_mul].
  assert (Hn : Qabs (b64_round (inject_Z (Z.of_nat N))) <= 2 ^ 1023).
  { apply b64_round_abs_le; [lia|].
    change (Qabs (inject_Z (Z.of_nat N))) with (inject_Z (Z.abs (Z.of_nat N))).
    rewrite <- (pow2_Z 1023) by lia. rewrite <- Zle_Qle. lia. }
  rewrite b64_finite; [by eexists|].
  rewrite Qabs_Qmult. rewrite (Qabs_pos (b64_round (hiring_capacity hr))) by done.
  set (a := Qabs _) in *. set (c := 2 ^ 1023) in *.
  set (h := b64_round (hiring_capacity hr)) in *.
  assert (0 <= a) by apply Qabs_nonneg.
  nra.
Qed.

(** ** utils.py: the claims *)

(** C7 (as stated, refuted): with [lo = 1] and [hi = 0] the result of
    [clamp(0, 1, 0)] is [1], which is not in the (empty) interval
    [[lo, hi]]. *)
Lemma clamp_inverted_bounds_escape :
  clamp 0 1 0 = 1 /\ ~ (1 <= clamp 0 1 0 /\ clamp 0 1 0 <= 0).
Proof. split; [reflexivity|]. intros [_ H]. vm_compute in H. by apply H. Qed.

(** C7 (amended): for all rationals [x], [lo], [hi], the result of [clamp]
    is at least [lo]; when [lo <= hi] it lies in [[lo, hi]]; and with the
    default bounds [clamp(1.5) == 1.0] and [clamp(-0.2) == 0.0]. *)
Theorem clamp_in_range (x lo hi : Q) :
  lo <= clamp x lo hi /\
  (lo <= hi -> clamp x lo hi <= hi) /\
  clamp01 (3 # 2) = 1 /\ clamp01 (- (1 # 5)) = 0.
Proof.
  split; [apply clamp_lower|]. split; [apply clamp_upper|]. done.
Qed.

Lemma shannon_entropy_outside (log2 : Q -> Q) (p : Q) :
  p <= 0 \/ 1 <= p -> shannon_entropy log2 p = Some 0.
Proof.
  intros H. unfold shannon_entropy.
  destruct (Qle_bool p 0) eqn:E0; [done|].
  destruct (Qgeb p 1) eqn:E1; [done|]. exfalso.
  destruct H as [H|H].
  - apply Qle_bool_iff in H. congruence.
  - apply Qgeb_ge in H. congruence.
Qed.

Lemma math_log2_positive (log2 : Q -> Q) (x : Q) :
  0 < x -> math_log2 log2 x = Some (log2 x).
Proof. intros H. unfold math_log2. by rewrite (proj2 (Qltb_lt 0 x) H). Qed.

Lemma shannon_entropy_inside (log2 : Q -> Q) (p : Q) :
  0 < p < 1 ->
  shannon_entropy log2 p = Some (- (p * log2 p + (1 - p) * log2 (1 - p))).
Proof.
  intros [H0 H1]. unfold shannon_entropy.
  destruct (Qle_bool p 0) eqn:E0.
  { apply Qle_bool_iff in E0. lra. }
  destruct (Qgeb p 1) eqn:E1.
  { apply Qgeb_ge in E1. lra. }
  simpl. rewrite (math_log2_positive log2 p H0). simpl.
  rewrite math_log2_positive by lra. done.
Qed.

Lemma shannon_entropy_is_Some (log2 : Q -> Q) (p : Q) :
  is_Some (shannon_entropy log2 p).
Proof.
  destruct (Qlt_le_dec 0 p) as [H0|H0].
  - destruct (Qlt_le_dec p 1) as [H1|H1].
    + rewrite shannon_entropy_inside by done. by eexists.
    + rewrite shannon_entropy_outside; [by eexists | by right].
  - rewrite shannon_entropy_outside; [by eexists | by left].
Qed.

(** C10: [shannon_entropy] is total: it returns exactly [0] whenever
    [p <= 0] or [p >= 1]; on the branch that takes the logarithms (the guard
    is false) both arguments, [p] and [1 - p], are strictly positive, so
    neither call raises; hence a value is returned for every input. *)
Theorem shannon_entropy_total (log2 : Q -> Q) (p : Q) :
  (p <= 0 \/ 1 <= p -> shannon_entropy log2 p = Some 0) /\
  (Qle_bool p 0 || Qgeb p 1 = false ->
     0 < p /\ 0 < 1 - p /\
     math_log2 log2 p = Some (log2 p) /\
     math_log2 log2 (1 - p) = Some (log2 (1 - p)) /\
     shannon_entropy log2 p =
       Some (- (p * log2 p + (1 - p) * log2 (1 - p)))) /\
  is_Some (shannon_entropy log2 p).
Proof.
  split; [apply shannon_entropy_outside|].
  split; [|apply shannon_entropy_is_Some].
  intros Hguard. apply orb_false_iff in Hguard as [E0 E1].
  assert (H0 : 0 < p).
  { apply Qnot_le_lt. intros H. apply Qle_bool_iff in H. congruence. }
  assert (H1 : p < 1).
  { apply Qnot_le_lt. intros H. apply Qgeb_ge in H. congruence. }
  split; [done|]. split; [lra|].
  split; [by apply math_log2_positive|].
  split; [apply math_log2_positive; lra|].
  by apply shannon_entropy_inside.
Qed.

(** ** Reasoning about [Sim] computations *)

Section SimFacts.

Context `{G : PRNG}.

Lemma sim_bind_Some {A B : Type} (m : Sim A) (k : A -> Sim B) s r :
  sim_bind m k s = Some r <->
  exists a s', m s = Some (a, s') /\ k a s' = Some r.
Proof.
  unfold sim_bind. split.
  - destruct (m s) as [[a s']|]; [|done]. intros Hk. by exists a, s'.
  - intros (a & s' & -> & Hk). done.
Qed.

Lemma sim_ret_Some {A : Type} (a b : A) s s' :
  sim_ret a s = Some (b, s') <-> a = b /\ s = s'.
Proof. unfold sim_ret. split; [by intros [= -> ->] | by intros [-> ->]]. Qed.

Lemma sim_lift_Some {A : Type} (o : option A) (a : A) s s' :
  sim_lift o s = Some (a, s') <-> o = Some a /\ s = s'.
Proof.
  unfold sim_lift. destruct o; split; try done.
  - by intros [= -> ->].
  - by intros [[= ->] ->].
  - by intros [? _].
Qed.

Lemma draw_random_Some s a s' :
  draw_random s = Some (a, s') <-> rng_random s = (a, s').
Proof. unfold draw_random. split; [by intros [= ->] | by intros ->]. Qed.

Lemma draw_gauss_Some mu sigma s a s' :
  draw_gauss mu sigma s = Some (a, s') <-> rng_gauss mu sigma s = (a, s').
Proof. unfold draw_gauss. split; [by intros [= ->] | by intros ->]. Qed.

(** A loop whose body never raises does not raise. *)
Lemma sim_for_total {A S : Type} (Inv : S -> Prop) (P : A -> Prop)
    (body : S -> A -> Sim S) (l : list A) :
  (forall acc x s, Inv acc -> P x ->
     exists acc' s', body acc x s = Some (acc', s') /\ Inv acc') ->
  Forall P l ->
  forall acc s, Inv acc ->
    exists acc' s', sim_for body l acc s = Some (acc', s') /\ Inv acc'.
Proof.
  intros Hbody Hl. induction Hl as [|x l Hx _ IH]; intros acc s Hacc.
  - by exists acc, s.
  - destruct (Hbody acc x s Hacc Hx) as (acc1 & s1 & Hb & Hacc1).
    destruct (IH acc1 s1 Hacc1) as (acc2 & s2 & Hl2 & Hacc2).
    exists acc2, s2. split; [|done].
    simpl. apply sim_bind_Some. by exists acc1, s1.
Qed.

(** A property kept by the body is kept by the loop. *)
Lemma sim_for_invariant {A S : Type} (Inv : list A -> S -> Prop)
    (body : S -> A -> Sim S) :
  (forall done x acc s acc' s', Inv done acc ->
     body acc x s = Some (acc', s') -> Inv (done ++ [x]) acc') ->
  forall l done acc s acc' s', Inv done acc ->
    sim_for body l acc s = Some (acc', s') -> Inv (done ++ l) acc'.
Proof.
  intros Hbody l. induction l as [|x l IH]; intros done acc s acc' s' Hinv Hrun.
  - apply sim_ret_Some in Hrun as [<- _]. by rewrite app_nil_r.
  - simpl in Hrun. apply sim_bind_Some in Hrun as (acc1 & s1 & Hb & Hrun).
    replace (done ++ x :: l) with ((done ++ [x]) ++ l)
      by (by rewrite <- app_assoc).
    eapply IH; [|exact Hrun]. by eapply Hbody.
Qed.

End SimFacts.

(** Take a hypothesis about a [Sim] computation apart, bind by bind. *)
Ltac sim_inv H :=
  repeat match type of H with
  | sim_bind _ _ _ = Some _ =>
      let a := fresh "a" in let s := fresh "s" in
      let H1 := fresh "Hstep" in
      apply sim_bind_Some in H as (a & s & H1 & H)
  end.

(** ** The per-agent loop *)

Lemma has_groups_lookup {V : Type} (m : gmap string V) (g : string) :
  has_groups m -> is_group g -> is_Some (m !! g).
Proof. intros [HA HB] [->| ->]; done. Qed.

Lemma has_groups_insert {V : Type} (m : gmap string V) (g : string) (v : V) :
  has_groups m -> has_groups (<[g := v]> m).
Proof.
  intros [HA HB]. split; rewrite lookup_insert; case_decide; done.
Qed.

Lemma has_groups_init {V : Type} (a b : V) :
  has_groups (<["A" := a]> (<["B" := b]> (∅ : gmap string V))).
Proof. split; by simplify_map_eq. Qed.

Section AgentLoop.

Context `{G : PRNG}.
Variables (platform : Platform) (hr : HRDepartment).

Lemma agent_loop_inv_init : agent_loop_inv hr [] agent_loop_init.
Proof.
  repeat split; simpl; done.
Qed.

Lemma agent_body_inv done agent v s v' s' :
  agent_loop_inv hr done v ->
  agent_body platform hr v agent s = Some (v', s') ->
  agent_loop_inv hr (done ++ [agent]) v'.
Proof.
  intros (Hg & Hs & Hs01 & Hc & Hr & Hi & Hu) Hrun.
  unfold agent_body in Hrun. sim_inv Hrun.
  apply sim_ret_Some in Hrun as [<- _]. simpl.
  assert (Hlen : length (applicant_records v) = length done).
  { symmetry. by eapply Forall2_length. }
  repeat split; simpl.
  - by rewrite fmap_app, Hg.
  - rewrite !length_app, Hs. done.
  - apply Forall_app. split; [done|]. constructor; [|done].
    destruct (Qltb a0 _); auto.
  - rewrite !length_app, Hc. done.
  - apply Forall2_app; [done|]. constructor; [|done]. done.
  - rewrite fmap_app, Hi, length_app. simpl.
    rewrite seq_app. simpl. by rewrite Hlen.
  - by apply has_groups_insert.
  - by apply has_groups_insert.
Qed.

Lemma agent_loop_spec agents s v s' :
  sim_for (agent_body platform hr) agents agent_loop_init s = Some (v, s') ->
  agent_loop_inv hr agents v.
Proof.
  intros Hrun.
  apply (sim_for_invariant (agent_loop_inv hr) (agent_body platform hr)
           agent_body_inv agents [] _ _ _ _ agent_loop_inv_init Hrun).
Qed.

(** The body raises no [KeyError] when the agent's group is a key of both
    dictionaries. *)
Lemma agent_body_total agent v s :
  has_groups (p_high platform) -> has_groups (user_chose_high v) ->
  is_group (group agent) ->
  exists v' s', agent_body platform hr v agent s = Some (v', s') /\
                has_groups (user_chose_high v').
Proof.
  intros Hp Hu Hg.
  destruct (has_groups_lookup _ _ Hp Hg) as [p_base Hpb].
  destruct (has_groups_lookup _ _ Hu Hg) as [u_list Hul].
  unfold agent_body, sim_bind, sim_lift, draw_random, sim_ret.
  rewrite Hpb.
  destruct (rng_random s) as [u1 s1].
  destruct (rng_random s1) as [u2 s2].
  destruct (Qltb u2 (trust_in_algorithm agent)); simpl;
    destruct (rng_random s2) as [u3 s3]; simpl; rewrite Hul;
    eexists _, _; (split; [reflexivity|]); simpl;
    by apply has_groups_insert.
Qed.

Lemma agent_loop_total agents s :
  has_groups (p_high platform) ->
  Forall (fun a => is_group (group a)) agents ->
  exists v s',
    sim_for (agent_body platform hr) agents agent_loop_init s = Some (v, s').
Proof.
  intros Hp Hag.
  destruct (sim_for_total (fun v => has_groups (user_chose_high v))
              (fun a => is_group (group a)) (agent_body platform hr) agents)
    with (acc := agent_loop_init) (s := s) as (v & s' & Hrun & _).
  - intros acc x s0 Hacc Hx. by apply agent_body_total.
  - done.
  - apply has_groups_init.
  - by exists v, s'.
Qed.

End AgentLoop.

(** ** The sort: permutation, order and stability *)

(** *** The order of the floats *)

(** Turn the boolean comparisons of a goal into inequalities of rationals. *)
Ltac float_cases :=
  unfold float_lt, float_eq, not_nan in *; simpl in *;
  rewrite ?Qltb_lt, ?Qltb_ge, ?Qeq_bool_iff in *;
  try discriminate; try congruence; try lra.

Lemma float_lt_trans (a b c : pyfloat) :
  float_lt a b -> float_lt b c -> float_lt a c.
Proof.
  destruct a as [x|[]|], b as [y|[]|], c as [z|[]|]; intros H1 H2; float_cases.
Qed.

Lemma float_lt_eq_trans (a b c : pyfloat) :
  float_lt a b -> float_eq b c -> float_lt a c.
Proof.
  destruct a as [x|[]|], b as [y|[]|], c as [z|[]|]; intros H1 H2; float_cases.
Qed.

Lemma float_eq_lt_trans (a b c : pyfloat) :
  float_eq a b -> float_lt b c -> float_lt a c.
Proof.
  destruct a as [x|[]|], b as [y|[]|], c as [z|[]|]; intros H1 H2; float_cases.
Qed.

Lemma float_eq_trans (a b c : pyfloat) :
  float_eq a b -> float_eq b c -> float_eq a c.
Proof.
  destruct a as [x|[]|], b as [y|[]|], c as [z|[]|]; intros H1 H2; float_cases.
Qed.

Lemma float_eq_sym (a b : pyfloat) : float_eq a b -> float_eq b a.
Proof. destruct a as [x|[]|], b as [y|[]|]; intros H; float_cases. Qed.

Lemma float_lt_asymmetric (a b : pyfloat) :
  float_lt a b -> float_lt b a -> False.
Proof. destruct a as [x|[]|], b as [y|[]|]; intros H1 H2; float_cases. Qed.

Lemma float_lt_not_eq (a b : pyfloat) :
  float_lt a b -> float_eq a b -> False.
Proof. destruct a as [x|[]|], b as [y|[]|]; intros H1 H2; float_cases. Qed.

(** Two floats that are not NaN are ordered or equal. *)
Lemma float_not_lt_cases (a b : pyfloat) :
  not_nan a -> not_nan b -> float_ltb b a = false ->
  float_lt a b \/ float_eq a b.
Proof.
  destruct a as [x|[]|], b as [y|[]|]; intros Ha Hb H;
    unfold float_lt, float_eq; simpl in *; try discriminate;
    try (by left); try (by right); try (by destruct Ha); try (by destruct Hb).
  apply Qltb_ge in H. rewrite Qltb_lt, Qeq_bool_iff.
  destruct (Qle_lt_or_eq _ _ H); [by left | by right].
Qed.

Lemma float_geb_not_nan (a b : pyfloat) : float_geb a b = true -> not_nan a.
Proof. by destruct a, b. Qed.

(** [a >= b] is [not (a < b)] when neither is NaN. *)
Lemma float_geb_ltb (a b : pyfloat) :
  not_nan a -> not_nan b -> float_geb a b = negb (float_ltb a b).
Proof. destruct a, b; intros Ha Hb; try done; by destruct Ha || by destruct Hb. Qed.

Section StableSort.

Context {A : Type}.
Variable key : A -> pyfloat.

(** [tie] is the order the elements have in the input list. *)
Variable tie : A -> A -> Prop.

Lemma insert_by_key_perm (x : A) (l : list A) :
  insert_by_key float_ltb key x l ≡ₚ x :: l.
Proof.
  induction l as [|y l IH]; simpl; [done|].
  destruct (float_ltb (key y) (key x)); [|done].
  rewrite IH. apply Permutation_swap.
Qed.

Lemma stable_sort_by_key_perm (l : list A) :
  stable_sort_by_key float_ltb key l ≡ₚ l.
Proof.
  induction l as [|x l IH]; simpl; [done|].
  by rewrite insert_by_key_perm, IH.
Qed.

Lemma insert_by_key_sorted (x : A) (l : list A) :
  not_nan (key x) -> Forall (fun y => not_nan (key y)) l ->
  StronglySorted (key_then_tie key tie) l -> Forall (tie x) l ->
  StronglySorted (key_then_tie key tie) (insert_by_key float_ltb key x l).
Proof.
  intros Hx. induction l as [|y l IH]; intros Hn Hs Ht; simpl.
  - repeat constructor.
  - apply StronglySorted_cons in Hs as [Hy Hs].
    apply Forall_cons in Ht as [Hxy Ht].
    apply Forall_cons in Hn as [Hny Hn].
    destruct (float_ltb (key y) (key x)) eqn:E.
    + apply StronglySorted_cons. split; [|by apply IH].
      rewrite insert_by_key_perm. constructor; [by left | done].
    + destruct (float_not_lt_cases _ _ Hx Hny E) as [Hlt|Heq].
      * apply StronglySorted_cons. split; [|by apply StronglySorted_cons].
        constructor; [by left|].
        rewrite Forall_forall in Hy |- *. intros z Hz. left.
        destruct (Hy z Hz) as [H|[H _]].
        -- by eapply float_lt_trans.
        -- by eapply float_lt_eq_trans.
      * apply StronglySorted_cons. split; [|by apply StronglySorted_cons].
        constructor; [by right|].
        rewrite Forall_forall in Hy, Ht |- *. intros z Hz.
        destruct (Hy z Hz) as [H|[H _]].
        -- left. by eapply float_eq_lt_trans.
        -- right. split; [by eapply float_eq_trans | by apply Ht].
Qed.

(** The sort is stable: the result ascends on the key and keeps the input
    order among equal keys. *)
Lemma stable_sort_by_key_sorted (l : list A) :
  Forall (fun y => not_nan (key y)) l -> StronglySorted tie l ->
  StronglySorted (key_then_tie key tie) (stable_sort_by_key float_ltb key l).
Proof.
  induction l as [|x l IH]; intros Hn Hs; simpl; [constructor|].
  apply StronglySorted_cons in Hs as [Hx Hs].
  apply Forall_cons in Hn as [Hnx Hn].
  apply insert_by_key_sorted; [done| |by apply IH|].
  - by rewrite stable_sort_by_key_perm.
  - by rewrite stable_sort_by_key_perm.
Qed.

End StableSort.

Lemma StronglySorted_rev {A : Type} (R : A -> A -> Prop) (l : list A) :
  StronglySorted R l -> StronglySorted (flip R) (rev l).
Proof.
  induction l as [|x l IH]; intros Hs; simpl; [constructor|].
  apply StronglySorted_cons in Hs as [Hx Hs].
  apply StronglySorted_app. split; [|split].
  - intros y z Hy Hz. apply list_elem_of_singleton in Hz as ->.
    rewrite Forall_forall in Hx. apply Hx.
    apply list_elem_of_In, in_rev. by apply list_elem_of_In.
  - by apply IH.
  - repeat constructor.
Qed.

Lemma StronglySorted_impl {A : Type} (R1 R2 : A -> A -> Prop) (l : list A) :
  (forall x y, R1 x y -> R2 x y) ->
  StronglySorted R1 l -> StronglySorted R2 l.
Proof.
  intros HR. induction 1 as [|x l Hs IH Hx]; constructor; [done|].
  eapply Forall_impl; [exact Hx | auto].
Qed.

Lemma rev_perm {A : Type} (l : list A) : rev l ≡ₚ l.
Proof. symmetry. apply Permutation_rev. Qed.

Lemma list_sort_perm {A : Type} (key : A -> pyfloat) (reverse : bool)
    (l : list A) :
  list_sort float_ltb key reverse l ≡ₚ l.
Proof.
  unfold list_sort. destruct reverse.
  - by rewrite rev_perm, stable_sort_by_key_perm, rev_perm.
  - apply stable_sort_by_key_perm.
Qed.

(** With [reverse=True] the result descends on the key and, among equal
    keys, keeps the order of the input. *)
Lemma list_sort_reverse_sorted {A : Type} (key : A -> pyfloat)
    (tie : A -> A -> Prop) (l : list A) :
  Forall (fun y => not_nan (key y)) l -> StronglySorted tie l ->
  StronglySorted
    (fun x y => float_lt (key y) (key x) \/
                (float_eq (key x) (key y) /\ tie x y))
    (list_sort float_ltb key true l).
Proof.
  intros Hn Hs. unfold list_sort.
  apply StronglySorted_rev in Hs.
  apply (stable_sort_by_key_sorted key) in Hs.
  - apply StronglySorted_rev in Hs.
    eapply StronglySorted_impl; [|exact Hs].
    intros x y [H|[H1 H2]]; [by left | right].
    split; [by apply float_eq_sym | done].
  - by rewrite rev_perm.
Qed.

(** ** The capacity cap *)

Lemma py_int_floor_max (x : Q) : Z.max 1 (py_int x) = Z.max 1 (Qfloor x).
Proof.
  destruct x as [n d]. unfold py_int, Qfloor. simpl.
  destruct (Z_lt_le_dec n 0) as [Hn|Hn].
  - assert (H1 : (n ÷ Z.pos d <= 0)%Z).
    { rewrite <- (Z.opp_involutive n), Z.quot_opp_l by lia.
      assert (0 <= (- n) ÷ Z.pos d)%Z by (apply Z.quot_pos; lia). lia. }
    assert (H2 : (n / Z.pos d < 0)%Z).
    { apply Z.div_lt_upper_bound; lia. }
    lia.
  - by rewrite Z.quot_div_nonneg by lia.
Qed.

Lemma max_accept_cap (hr : HRDepartment) (records : list ApplicantRecord) :
  max_accept hr records = capacity_cap hr (length records).
Proof.
  unfold max_accept, capacity_cap, capacity_product.
  destruct (float_of_int _) as [n|]; [|done]. cbn -[float_mul].
  destruct (float_mul (py_float (hiring_capacity hr)) n) as [q| |];
    try done. cbn.
  f_equal. apply py_int_floor_max.
Qed.

Lemma max_accept_positive (hr : HRDepartment) (records : list ApplicantRecord)
    (cap : Z) :
  max_accept hr records = Some cap -> (1 <= cap)%Z.
Proof.
  unfold max_accept. intros H.
  apply bind_Some in H as (n & _ & H). apply bind_Some in H as (c & _ & H).
  injection H as <-. lia.
Qed.

Lemma StronglySorted_filter {A : Type} (R : A -> A -> Prop) (P : A -> Prop)
    `{!forall x, Decision (P x)} (l : list A) :
  StronglySorted R l -> StronglySorted R (filter P l).
Proof.
  induction 1 as [|x l Hs IH Hx]; [constructor|].
  rewrite filter_cons. case_decide; [|done].
  constructor; [done|]. rewrite Forall_forall in Hx |- *.
  intros y Hy. apply list_elem_of_filter in Hy as [_ Hy]. by apply Hx.
Qed.

(** Records numbered consecutively are in increasing [idx] order. *)
Lemma consecutive_idx_sorted (records : list ApplicantRecord) (start : nat) :
  idx <$> records = seq start (length records) ->
  StronglySorted (fun r1 r2 => (idx r1 < idx r2)%nat) records /\
  Forall (fun r => (start <= idx r)%nat) records.
Proof.
  revert start. induction records as [|r records IH]; intros start Hidx.
  - split; constructor.
  - simpl in Hidx. injection Hidx as Hr Hrest.
    destruct (IH _ Hrest) as [Hs Hge]. split.
    + constructor; [done|]. eapply Forall_impl; [exact Hge|].
      intros r' Hr'. simpl in Hr'. lia.
    + constructor; [lia|]. eapply Forall_impl; [exact Hge|].
      intros r' Hr'. simpl in Hr'. lia.
Qed.

Lemma consecutive_idx_lookup (records : list ApplicantRecord) (i : nat)
    (r : ApplicantRecord) :
  idx <$> records = seq 0 (length records) ->
  records !! i = Some r -> idx r = i.
Proof.
  intros Hidx Hr.
  assert (H : (idx <$> records) !! i = Some (idx r)).
  { by rewrite list_lookup_fmap, Hr. }
  rewrite Hidx in H. apply lookup_seq in H as [H _]. done.
Qed.

Section Capacity.

Variable cap : Z.
Variable records : list ApplicantRecord.
Hypothesis Hidx : idx <$> records = seq 0 (length records).
Hypothesis Hscore :
  Forall (fun r => meets_threshold r = true -> not_nan (final_score r)) records.

Lemma ranked_eligible_perm :
  ranked_eligible records ≡ₚ filter (fun r => meets_threshold r) records.
Proof. apply list_sort_perm. Qed.

Lemma ranked_eligible_sorted :
  StronglySorted outranks (ranked_eligible records).
Proof.
  unfold ranked_eligible.
  apply (list_sort_reverse_sorted final_score
           (fun r1 r2 => (idx r1 < idx r2)%nat)).
  - apply Forall_forall. intros r Hr.
    apply list_elem_of_filter in Hr as [Hm Hr].
    rewrite Forall_forall in Hscore. apply (Hscore r Hr).
    by apply Is_true_true.
  - apply StronglySorted_filter.
    by apply (consecutive_idx_sorted records 0).
Qed.

Lemma ranked_eligible_elem (r : ApplicantRecord) :
  r ∈ ranked_eligible records <-> r ∈ records /\ meets_threshold r = true.
Proof.
  rewrite ranked_eligible_perm, list_elem_of_filter.
  split; intros [H1 H2]; split; try done.
  - by apply Is_true_true.
  - by apply Is_true_true.
Qed.

Lemma records_NoDup_idx : NoDup (idx <$> records).
Proof. rewrite Hidx. apply NoDup_seq. Qed.

Lemma records_idx_inj (r1 r2 : ApplicantRecord) :
  r1 ∈ records -> r2 ∈ records -> idx r1 = idx r2 -> r1 = r2.
Proof.
  intros H1 H2 Heq.
  apply list_elem_of_lookup in H1 as [i Hi].
  apply list_elem_of_lookup in H2 as [j Hj].
  pose proof (consecutive_idx_lookup _ _ _ Hidx Hi).
  pose proof (consecutive_idx_lookup _ _ _ Hidx Hj).
  assert (i = j) by congruence. subst j. congruence.
Qed.

(** Position [i] is in [accepted_set] exactly when its record is among the
    first [max_accept] of the ranking. *)
Lemma accepted_set_spec (i : nat) :
  i ∈ accepted_set cap records <->
  exists r, r ∈ take (Z.to_nat cap) (ranked_eligible records) /\ idx r = i.
Proof.
  unfold accepted_set. rewrite elem_of_list_to_set, list_elem_of_fmap.
  split; intros (r & H1 & H2); exists r; done.
Qed.

End Capacity.

Lemma outranks_asymmetric (r1 r2 : ApplicantRecord) :
  outranks r1 r2 -> outranks r2 r1 -> False.
Proof.
  intros [H1|[H1 H1']] [H2|[H2 H2']].
  - by eapply float_lt_asymmetric.
  - eapply float_lt_not_eq; [exact H1 | done].
  - eapply float_lt_not_eq; [exact H2 | done].
  - lia.
Qed.

(** The ranking is unique: two strictly ranked lists with the same elements
    are the same list. *)
Lemma outranks_ranking_unique (l1 l2 : list ApplicantRecord) :
  l1 ≡ₚ l2 -> StronglySorted outranks l1 -> StronglySorted outranks l2 ->
  l1 = l2.
Proof.
  intros Hperm H1 H2. apply (StronglySorted_unique_strong outranks); try done.
  intros x1 x2 _ _ H12 H21. by destruct (outranks_asymmetric x1 x2).
Qed.

(** ** The acceptance flags *)

Lemma record_loop_spec (accepted : gset nat) (records : list ApplicantRecord)
    (flags0 : list bool) (hah0 : gmap string (list bool))
    (flags : list bool) (hah : gmap string (list bool)) :
  record_loop accepted records (flags0, hah0) = Some (flags, hah) ->
  flags = flags0 ++ ((fun r => bool_decide (idx r ∈ accepted)) <$> records) /\
  (has_groups hah0 -> has_groups hah).
Proof.
  revert flags0 hah0. induction records as [|r records IH]; intros flags0 hah0.
  - simpl. intros [= -> ->]. by rewrite app_nil_r.
  - simpl. unfold record_body at 1. simpl.
    destruct (chosen_high r =? 1)%Z.
    + destruct (hah0 !! applicant_group r) as [h_list|]; [|done]. simpl.
      intros Hrun. apply IH in Hrun as [-> Hg]. split.
      * by rewrite <- app_assoc.
      * intros H0. by apply Hg, has_groups_insert.
    + simpl. intros Hrun. apply IH in Hrun as [-> Hg]. split; [|done].
      by rewrite <- app_assoc.
Qed.

Lemma record_loop_total (accepted : gset nat) (records : list ApplicantRecord)
    (flags0 : list bool) (hah0 : gmap string (list bool)) :
  has_groups hah0 ->
  Forall (fun r => is_group (applicant_group r)) records ->
  is_Some (record_loop accepted records (flags0, hah0)).
Proof.
  intros H0 Hrec. revert flags0 hah0 H0.
  induction Hrec as [|r records Hr _ IH]; intros flags0 hah0 H0; simpl.
  - by eexists.
  - unfold record_body. simpl. destruct (chosen_high r =? 1)%Z; simpl.
    + destruct (has_groups_lookup _ _ H0 Hr) as [h_list ->]. simpl.
      by apply IH, has_groups_insert.
    + by apply IH.
Qed.

Lemma count_true_fmap {A : Type} (f : A -> bool) (l : list A) :
  count_true (f <$> l) = length (filter (fun x => Is_true (f x)) l).
Proof.
  unfold count_true. induction l as [|x l IH]; [done|].
  rewrite fmap_cons, !filter_cons. destruct (f x); simpl; by rewrite IH.
Qed.

Lemma filter_record_of (hr : HRDepartment) (agents : list Agent)
    (records : list ApplicantRecord) :
  Forall2 (record_of hr) agents records ->
  length (filter (fun r => meets_threshold r) records) =
  length (filter (fun a => eligibleb hr a) agents).
Proof.
  induction 1 as [|a r agents records (_ & _ & Hm) _ IH]; [done|].
  rewrite !filter_cons, Hm. destruct (eligibleb hr a); simpl; by rewrite IH.
Qed.

Lemma record_of_scores (hr : HRDepartment) (agents : list Agent)
    (records : list ApplicantRecord) :
  Forall2 (record_of hr) agents records ->
  Forall (fun r => meets_threshold r = true -> not_nan (final_score r)) records.
Proof.
  induction 1 as [|a r agents records (_ & Hs & Hm) _ IH]; constructor; [|done].
  rewrite Hm, Hs. unfold eligibleb. apply float_geb_not_nan.
Qed.

Section Hiring.

Variable hr : HRDepartment.
Variable cap : Z.
Variable agents : list Agent.
Variable records : list ApplicantRecord.
Hypothesis Hrec : Forall2 (record_of hr) agents records.
Hypothesis Hidx : idx <$> records = seq 0 (length agents).

Let Hlen : length records = length agents.
Proof. symmetry. by eapply Forall2_length. Qed.

Let Hidx' : idx <$> records = seq 0 (length records).
Proof. by rewrite Hlen. Qed.

Lemma flags_of_length : length (flags_of cap records) = length agents.
Proof. unfold flags_of. by rewrite length_fmap. Qed.

Lemma flags_of_lookup (i : nat) :
  flags_of cap records !! i = Some true <->
  exists r, r ∈ take (Z.to_nat cap) (ranked_eligible records) /\ idx r = i.
Proof.
  rewrite <- accepted_set_spec.
  unfold flags_of. rewrite list_lookup_fmap. split.
  - destruct (records !! i) as [r|] eqn:Hr; [|done]. simpl.
    intros [= Hb]. apply bool_decide_eq_true in Hb.
    by rewrite (consecutive_idx_lookup _ _ _ Hidx' Hr) in Hb.
  - intros Hi. pose proof Hi as Hi'.
    apply accepted_set_spec in Hi' as (r & Hin & Hr).
    apply elem_of_take in Hin as (j & Hin & _).
    apply list_elem_of_lookup_2, (ranked_eligible_elem records) in Hin
      as [Hin _].
    apply list_elem_of_lookup in Hin as [k Hk].
    pose proof (consecutive_idx_lookup _ _ _ Hidx' Hk) as Hkk.
    assert (k = i) as -> by congruence.
    rewrite Hk. simpl. f_equal. apply bool_decide_eq_true. congruence.
Qed.

Lemma accepted_is_eligible (i : nat) :
  flags_of cap records !! i = Some true ->
  exists a, agents !! i = Some a /\ eligibleb hr a = true.
Proof.
  intros (r & Hin & Hr)%flags_of_lookup.
  apply elem_of_take in Hin as (j & Hin & _).
  apply list_elem_of_lookup_2, (ranked_eligible_elem records) in Hin
    as [Hin Hm].
  apply list_elem_of_lookup in Hin as [k Hk].
  pose proof (consecutive_idx_lookup _ _ _ Hidx' Hk) as Hkk.
  assert (k = i) as -> by congruence.
  destruct (Forall2_lookup_r _ _ _ _ _ Hrec Hk) as (a & Ha & _ & _ & Hma).
  exists a. split; [done|]. congruence.
Qed.

Lemma accepted_count_le_cap :
  (1 <= cap)%Z -> (Z.of_nat (count_true (flags_of cap records)) <= cap)%Z.
Proof.
  intros Hcap. unfold flags_of. rewrite count_true_fmap.
  set (k := Z.to_nat cap).
  set (top := take k (ranked_eligible records)).
  set (hit := filter (fun r => Is_true (bool_decide
                (idx r ∈ accepted_set cap records))) records).
  assert (Hle : (length hit <= length top)%nat).
  { rewrite <- (length_fmap idx hit), <- (length_fmap idx top).
    apply submseteq_length, NoDup_submseteq.
    - apply (NoDup_fmap_2_strong idx).
      + intros r1 r2 H1 H2. apply (records_idx_inj records Hidx').
        * by apply list_elem_of_filter in H1 as [_ ?].
        * by apply list_elem_of_filter in H2 as [_ ?].
      + apply NoDup_filter. eapply NoDup_fmap_1. apply (records_NoDup_idx _ Hidx').
    - intros i (r & -> & Hr)%list_elem_of_fmap.
      apply list_elem_of_filter in Hr as [Hr _].
      apply Is_true_true, bool_decide_eq_true in Hr.
      apply accepted_set_spec in Hr as (r' & Hin & Heq).
      apply list_elem_of_fmap. exists r'. split; done. }
  assert (length top <= k)%nat by (subst top; rewrite length_take; lia).
  subst k. lia.
Qed.

Lemma all_eligible_accepted (i : nat) (a : Agent) :
  (Z.of_nat (length (filter (fun a => eligibleb hr a) agents)) <= cap)%Z ->
  agents !! i = Some a -> eligibleb hr a = true ->
  flags_of cap records !! i = Some true.
Proof.
  intros Hcap Ha Hel. apply flags_of_lookup.
  destruct (Forall2_lookup_l _ _ _ _ _ Hrec Ha) as (r & Hr & _ & _ & Hm).
  exists r. split; [|by apply (consecutive_idx_lookup _ _ _ Hidx' Hr)].
  rewrite take_ge.
  - apply (ranked_eligible_elem records). split.
    + by eapply list_elem_of_lookup_2.
    + by rewrite Hm.
  - rewrite (ranked_eligible_perm records), (filter_record_of hr agents) by done.
    lia.
Qed.

End Hiring.

(** ** The two state updates *)

Lemma observed_signal_ext (p1 p2 : Platform) (u : list Z) (h : list bool) :
  feedback_weight p1 = feedback_weight p2 ->
  observed_signal p1 u h = observed_signal p2 u h.
Proof. unfold observed_signal. by intros ->. Qed.

Lemma platform_update_spec chose hah (platform : Platform) g platform' :
  platform_update chose hah platform g = Some platform' ->
  exists u h p_old,
    chose !! g = Some u /\ hah !! g = Some h /\
    p_high platform !! g = Some p_old /\
    learning_rate platform' = learning_rate platform /\
    diversity_regularization platform' = diversity_regularization platform /\
    feedback_weight platform' = feedback_weight platform /\
    p_high platform' = <[g := p_high_update platform p_old u h]> (p_high platform).
Proof.
  unfold platform_update. intros H.
  destruct (chose !! g) as [u|]; [|done].
  destruct (hah !! g) as [h|]; [|done].
  destruct (p_high platform !! g) as [p_old|]; [|done].
  simpl in H. injection H as <-. by exists u, h, p_old.
Qed.

(** Step 4 as a whole: each of the two entries is overwritten once, from its
    own previous value; the parameters and all other keys are untouched. *)
Lemma platform_feedback_spec chose hah (platform platform' : Platform) :
  platform_feedback chose hah platform = Some platform' ->
  learning_rate platform' = learning_rate platform /\
  diversity_regularization platform' = diversity_regularization platform /\
  feedback_weight platform' = feedback_weight platform /\
  (exists uA hA pA uB hB pB,
     chose !! "A" = Some uA /\ hah !! "A" = Some hA /\
     p_high platform !! "A" = Some pA /\
     chose !! "B" = Some uB /\ hah !! "B" = Some hB /\
     p_high platform !! "B" = Some pB /\
     p_high platform' =
       <["B" := p_high_update platform pB uB hB]>
         (<["A" := p_high_update platform pA uA hA]> (p_high platform))).
Proof.
  unfold platform_feedback. intros H.
  destruct (platform_update chose hah platform "A") as [p1|] eqn:HA; [|done].
  simpl in H.
  apply platform_update_spec in HA
    as (uA & hA & pA & HuA & HhA & HpA & Hlr & Hd & Hfw & Hp1).
  apply platform_update_spec in H
    as (uB & hB & pB & HuB & HhB & HpB & Hlr' & Hd' & Hfw' & Hp2).
  repeat split; try congruence.
  exists uA, hA, pA, uB, hB, pB. repeat split; try done.
  - rewrite Hp1 in HpB. by rewrite lookup_insert_ne in HpB.
  - rewrite Hp2, Hp1. f_equal. unfold p_high_update.
    rewrite Hlr, (observed_signal_ext p1 platform) by done. done.
Qed.

Lemma platform_feedback_total chose hah (platform : Platform) :
  has_groups chose -> has_groups hah -> has_groups (p_high platform) ->
  is_Some (platform_feedback chose hah platform).
Proof.
  intros [[uA HuA] [uB HuB]] [[hA HhA] [hB HhB]] [[pA HpA] [pB HpB]].
  unfold platform_feedback, platform_update.
  rewrite HuA, HhA, HpA. simpl. rewrite HuB, HhB. simpl.
  rewrite lookup_insert_ne by done. rewrite HpB. simpl. by eexists.
Qed.

Lemma update_preferences_fixed (agents : list Agent) (shown : list Z) :
  Forall2 same_fixed_fields agents (update_preferences agents shown).
Proof.
  revert shown. induction agents as [|a agents IH]; intros shown; simpl.
  - destruct shown; constructor.
  - destruct shown as [|s shown].
    + apply Forall2_same_length_lookup_2; [done|].
      intros i x y Hx Hy. assert (x = y) as -> by congruence. done.
    + constructor; [done | apply IH].
Qed.

Lemma update_preferences_lookup (agents : list Agent) (shown : list Z)
    (i : nat) (a : Agent) (s : Z) :
  agents !! i = Some a -> shown !! i = Some s ->
  update_preferences agents shown !! i = Some (internalize a s).
Proof.
  revert shown i. induction agents as [|a' agents IH]; intros shown i Ha Hs.
  - done.
  - destruct shown as [|s' shown]; [done|].
    destruct i as [|i]; simpl in *.
    + by injection Ha as ->; injection Hs as ->.
    + by apply IH.
Qed.

Lemma update_preferences_range (agents : list Agent) (shown : list Z) :
  length shown = length agents ->
  Forall (fun a => 0 <= preference_for_high a <= 1)
         (update_preferences agents shown).
Proof.
  revert shown. induction agents as [|a agents IH]; intros shown Hlen.
  - destruct shown; constructor.
  - destruct shown as [|s shown]; [done|]. simpl.
    constructor; [apply clamp01_range | apply IH]. simpl in Hlen. lia.
Qed.

(** ** One pass of the loop, and the chain of passes *)

Section Run.

Context `{G : PRNG}.
Variable log2 : Q -> Q.

Lemma iteration_inv st prev s tr s' :
  iteration log2 st prev s = Some (tr, s') ->
  tr_before tr = st /\ tr_prev_disparity tr = prev /\ trace_ok log2 tr.
Proof.
  unfold iteration. intros H. sim_inv H.
  apply sim_ret_Some in H as [<- _].
  apply sim_lift_Some in Hstep0 as [Hcap _].
  apply sim_lift_Some in Hstep1 as [Hrl _].
  apply sim_lift_Some in Hstep2 as [Hpf _].
  apply sim_lift_Some in Hstep3 as [HpA _].
  apply sim_lift_Some in Hstep4 as [HpB _].
  apply sim_lift_Some in Hstep5 as [Hm _].
  destruct a1 as [flags hah]. simpl in *.
  split; [done|]. split; [done|]. unfold trace_ok. simpl.
  split; [by exists s, s0|]. repeat split; try done.
  by exists a3, a4.
Qed.

Lemma iteration_loop_chain n st prev history s history' s' :
  iteration_loop log2 n st prev history s = Some (history', s') ->
  exists new, history' = history ++ new /\ length new = n /\
              trace_chain log2 st prev new.
Proof.
  revert st prev history s. induction n as [|n IH]; intros st prev history s H.
  - apply sim_ret_Some in H as [<- _]. exists []. rewrite app_nil_r.
    repeat split; constructor.
  - simpl in H. sim_inv H.
    apply iteration_inv in Hstep as (Hb & Hp & Hok).
    apply IH in H as (new & -> & Hlen & Hchain).
    exists (a :: new). rewrite <- app_assoc. simpl.
    split; [done|]. split; [by rewrite Hlen|].
    rewrite <- Hb, <- Hp. by constructor.
Qed.

(** A property of states kept by every pass holds after every pass. *)
Lemma trace_chain_invariant (Inv : SimState -> Prop) st prev history :
  (forall tr, trace_ok log2 tr -> Inv (tr_before tr) -> Inv (tr_after tr)) ->
  trace_chain log2 st prev history -> Inv st ->
  Forall (fun tr => Inv (tr_before tr) /\ Inv (tr_after tr)) history.
Proof.
  intros Hstep. induction 1 as [|tr rest Hok _ IH]; intros Hinv.
  - constructor.
  - constructor; [split; [done | by apply Hstep]|].
    apply IH. by apply Hstep.
Qed.

Lemma trace_chain_ok st prev history :
  trace_chain log2 st prev history -> Forall (trace_ok log2) history.
Proof. induction 1; constructor; done. Qed.

(** ** The initial state *)

Lemma create_agents_spec params n agents s agents' s' :
  create_agents params n agents s = Some (agents', s') ->
  exists new, agents' = agents ++ new /\ length new = n /\
              Forall (agent_init_ok params) new.
Proof.
  revert agents s. induction n as [|n IH]; intros agents s H.
  - apply sim_ret_Some in H as [<- _]. exists []. by rewrite app_nil_r.
  - simpl in H. sim_inv H. apply IH in H as (new & -> & Hlen & Hall).
    eexists (_ :: new). rewrite <- app_assoc. simpl.
    split; [reflexivity|]. split; [by rewrite Hlen|].
    constructor; [|done]. repeat split; simpl;
      try apply clamp_lower; try (apply clamp_upper; lra); try done.
    unfold is_group. destruct (Qltb a _); auto.
Qed.

Lemma create_agents_total params n agents s :
  is_Some (create_agents params n agents s).
Proof.
  revert agents s. induction n as [|n IH]; intros agents s; simpl.
  - by eexists.
  - unfold sim_bind, draw_random, draw_gauss.
    destruct (rng_random s) as [u s1].
    destruct (rng_gauss _ _ s1) as [x s2].
    destruct (rng_gauss _ _ s2) as [e s3]. apply IH.
Qed.

Lemma initial_state_spec params s st s' :
  initial_state params s = Some (st, s') ->
  length (st_agents st) = Z.to_nat (n_agents params) /\
  Forall (agent_init_ok params) (st_agents st) /\
  st_platform st = initial_platform params /\
  st_hr st = initial_hr params.
Proof.
  unfold initial_state. intros H. sim_inv H.
  apply sim_ret_Some in H as [<- _]. simpl.
  apply create_agents_spec in Hstep as (new & -> & Hlen & Hall). done.
Qed.

(** A run, taken apart: the initial state and the chain of its passes. *)
Lemma run_trace_inv params st0 history :
  run_trace log2 params = Some (st0, history) ->
  (exists s s', initial_state params s = Some (st0, s')) /\
  length history = Z.to_nat (iterations params) /\
  trace_chain log2 st0 None history.
Proof.
  unfold run_trace. intros H.
  apply fmap_Some in H as ([[st h] s'] & H & Heq). simpl in Heq.
  injection Heq as -> ->. sim_inv H.
  apply sim_ret_Some in H as [[= <- <-] _].
  apply iteration_loop_chain in Hstep0 as (new & -> & Hlen & Hchain).
  split; [by eexists _, _|]. done.
Qed.

End Run.

(** ** The run never raises *)

Lemma compute_iteration_metrics_total (log2 : Q -> Q) groups shown chosen
    accepted p_A p_B prev :
  is_Some (compute_iteration_metrics log2 groups shown chosen accepted
             p_A p_B prev).
Proof.
  unfold compute_iteration_metrics.
  destruct (shannon_entropy_is_Some log2
              (group_rate (sum_where "A" groups shown) (count_group "A" groups)))
    as [eA ->].
  destruct (shannon_entropy_is_Some log2
              (group_rate (sum_where "B" groups shown) (count_group "B" groups)))
    as [eB ->].
  simpl. by eexists.
Qed.

Section Totality.

Context `{G : PRNG}.
Variable log2 : Q -> Q.

Lemma trace_ok_wf (tr : IterationTrace) :
  trace_ok log2 tr -> state_wf (tr_before tr) -> state_wf (tr_after tr).
Proof.
  intros (_ & _ & _ & Hpf & Hag & _ & pA & pB & HA & HB & _) [Hgr _]. split.
  - rewrite Hag.
    pose proof (update_preferences_fixed (st_agents (tr_before tr))
                  (shown_levels (tr_vars tr))) as Hfix.
    apply Forall_forall. intros a' Ha'.
    apply list_elem_of_lookup in Ha' as [i Hi].
    destruct (Forall2_lookup_r _ _ _ _ _ Hfix Hi) as (a & Ha & Hsame).
    destruct Hsame as [<- _].
    rewrite Forall_forall in Hgr. apply Hgr. by eapply list_elem_of_lookup_2.
  - split; by eexists.
Qed.

Lemma trace_ok_cap_defined (tr : IterationTrace) :
  trace_ok log2 tr ->
  capacity_cap (st_hr (tr_after tr)) (length (st_agents (tr_after tr)))
  = capacity_cap (st_hr (tr_before tr)) (length (st_agents (tr_before tr))).
Proof.
  intros (_ & _ & _ & _ & Hag & Hhr & _). rewrite Hhr, Hag.
  by rewrite <- (Forall2_length _ _ _
                   (update_preferences_fixed (st_agents (tr_before tr))
                      (shown_levels (tr_vars tr)))).
Qed.

(** A pass raises only at [int()]: it returns when the capacity product
    is a finite double. *)
Lemma iteration_total st prev s :
  state_wf st ->
  is_Some (capacity_cap (st_hr st) (length (st_agents st))) ->
  is_Some (iteration log2 st prev s).
Proof.
  intros [Hgr Hp] [cap Hcap].
  destruct (agent_loop_total (st_platform st) (st_hr st) (st_agents st) s Hp Hgr)
    as (v & s1 & Hloop).
  pose proof (agent_loop_spec _ _ _ _ _ _ Hloop)
    as (_ & _ & _ & _ & Hrec & _ & Hu).
  assert (Hrg : Forall (fun r => is_group (applicant_group r))
                       (applicant_records v)).
  { apply Forall_forall. intros r Hr.
    apply list_elem_of_lookup in Hr as [i Hi].
    destruct (Forall2_lookup_r _ _ _ _ _ Hrec Hi) as (a & Ha & -> & _).
    rewrite Forall_forall in Hgr. apply Hgr. by eapply list_elem_of_lookup_2. }
  assert (Hmax : max_accept (st_hr st) (applicant_records v) = Some cap).
  { rewrite max_accept_cap, <- (Forall2_length _ _ _ Hrec). exact Hcap. }
  destruct (record_loop_total (accepted_set cap (applicant_records v))
              (applicant_records v) [] (<["A" := []]> (<["B" := []]> ∅))
              (has_groups_init _ _) Hrg) as [[flags hah] Hrl].
  pose proof (record_loop_spec _ _ _ _ _ _ Hrl) as [_ Hh].
  specialize (Hh (has_groups_init _ _)).
  destruct (platform_feedback_total _ _ _ Hu Hh Hp) as [platform' Hpf].
  pose proof (platform_feedback_spec _ _ _ _ Hpf)
    as (_ & _ & _ & uA & hA & pA & uB & hB & pB & _ & _ & _ & _ & _ & _ & Hnew).
  destruct (compute_iteration_metrics_total log2 (groups v) (shown_levels v)
              (chosen_levels v) flags
              (p_high_update (st_platform st) pA uA hA)
              (p_high_update (st_platform st) pB uB hB) prev) as [snap Hsnap].
  unfold iteration, sim_bind. rewrite Hloop. unfold sim_lift at 1.
  rewrite Hmax. unfold sim_lift at 1.
  rewrite Hrl. unfold sim_lift at 1. simpl. rewrite Hpf.
  rewrite Hnew. rewrite lookup_insert_ne by done.
  rewrite lookup_insert_eq. simpl. rewrite lookup_insert_eq. simpl.
  rewrite Hsnap. simpl. by eexists.
Qed.

(** Without a finite capacity product, a pass raises. *)
Lemma iteration_raises st prev s :
  capacity_cap (st_hr st) (length (st_agents st)) = None ->
  iteration log2 st prev s = None.
Proof.
  intros Hcap. unfold iteration, sim_bind.
  destruct (sim_for _ _ _ s) as [[v s1]|] eqn:Hloop; [|done].
  pose proof (agent_loop_spec _ _ _ _ _ _ Hloop)
    as (_ & _ & _ & _ & Hrec & _).
  unfold sim_lift at 1.
  by rewrite max_accept_cap, <- (Forall2_length _ _ _ Hrec), Hcap.
Qed.

Lemma iteration_loop_total n st prev history s :
  state_wf st ->
  is_Some (capacity_cap (st_hr st) (length (st_agents st))) ->
  is_Some (iteration_loop log2 n st prev history s).
Proof.
  revert st prev history s.
  induction n as [|n IH]; intros st prev history s Hwf Hcap.
  - by eexists.
  - simpl. unfold sim_bind.
    destruct (iteration_total st prev s Hwf Hcap) as [[tr s1] Hit]. rewrite Hit.
    apply iteration_inv in Hit as (Hb & _ & Hok).
    apply IH.
    + apply trace_ok_wf; [done|]. by rewrite Hb.
    + rewrite (trace_ok_cap_defined tr Hok). by rewrite Hb.
Qed.

Lemma initial_state_wf params s st s' :
  initial_state params s = Some (st, s') -> state_wf st.
Proof.
  intros (_ & Hall & Hp & _)%initial_state_spec. split.
  - eapply Forall_impl; [exact Hall|]. by intros a [? _].
  - rewrite Hp. apply has_groups_init.
Qed.

Lemma initial_state_total params s : is_Some (initial_state params s).
Proof.
  unfold initial_state, sim_bind.
  destruct (create_agents_total params (Z.to_nat (n_agents params)) [] s)
    as [[ag s1] ->].
  by eexists.
Qed.

(** The run returns when the capacity product of the population is a finite
    double, and also when the loop makes no pass. *)
Lemma run_trace_total params :
  is_Some (capacity_cap (initial_hr params) (Z.to_nat (n_agents params))) \/
  (iterations params <= 0)%Z ->
  is_Some (run_trace log2 params).
Proof.
  intros Hcase. unfold run_trace. apply fmap_is_Some. unfold sim_bind at 1.
  destruct (initial_state_total params (rng_seed (seed params)))
    as [[st0 s0] Hinit].
  rewrite Hinit. unfold sim_bind.
  pose proof (initial_state_spec _ _ _ _ Hinit) as (Hlen & _ & _ & Hhr).
  destruct Hcase as [Hcap | Hzero].
  - destruct (iteration_loop_total (Z.to_nat (iterations params)) st0 None [] s0
                (initial_state_wf _ _ _ _ Hinit)) as [[h s1] ->].
    + by rewrite Hhr, Hlen.
    + by eexists.
  - replace (Z.to_nat (iterations params)) with 0%nat by lia. by eexists.
Qed.

(** The run raises when the capacity product is not a finite double and
    the loop makes a pass. *)
Lemma run_trace_raises params :
  capacity_cap (initial_hr params) (Z.to_nat (n_agents params)) = None ->
  (0 < iterations params)%Z ->
  run_trace log2 params = None.
Proof.
  intros Hcap Hpos. unfold run_trace. unfold sim_bind at 1.
  destruct (initial_state_total params (rng_seed (seed params)))
    as [[st0 s0] Hinit].
  rewrite Hinit. unfold sim_bind.
  pose proof (initial_state_spec _ _ _ _ Hinit) as (Hlen & _ & _ & Hhr).
  destruct (Z.to_nat (iterations params)) as [|n] eqn:En; [lia|].
  simpl. unfold sim_bind.
  rewrite iteration_raises; [done|]. by rewrite Hhr, Hlen.
Qed.

End Totality.

(** ** What every pass of a run satisfies *)

Lemma same_fixed_fields_refl (agents : list Agent) :
  Forall2 same_fixed_fields agents agents.
Proof. apply Forall_Forall2_diag, Forall_forall. by intros a _. Qed.

Lemma same_fixed_fields_trans (l1 l2 l3 : list Agent) :
  Forall2 same_fixed_fields l1 l2 -> Forall2 same_fixed_fields l2 l3 ->
  Forall2 same_fixed_fields l1 l3.
Proof.
  intros H12 H23. eapply Forall2_trans; [|exact H12|exact H23].
  intros a b c (?&?&?&?&?) (?&?&?&?&?). repeat split; congruence.
Qed.

Section RunFacts.

Context `{G : PRNG}.
Variable log2 : Q -> Q.

(** The records and the flags of a pass, in terms of the agents it started
    from. *)
Lemma trace_ok_hiring (tr : IterationTrace) :
  trace_ok log2 tr ->
  let agents := st_agents (tr_before tr) in
  let hr := st_hr (tr_before tr) in
  let v := tr_vars tr in
  agent_loop_inv hr agents v /\
  idx <$> applicant_records v = seq 0 (length agents) /\
  tr_accepted_flags tr = flags_of (tr_max_accept tr) (applicant_records v).
Proof.
  intros ((s & s' & Hloop) & Hcap & Hrl & _). simpl.
  pose proof (agent_loop_spec _ _ _ _ _ _ Hloop) as Hinv.
  split; [done|]. destruct Hinv as (_ & _ & _ & _ & _ & Hidx & _).
  split; [done|]. by apply record_loop_spec in Hrl as [-> _].
Qed.

(** The cap of a pass is the capacity cap of the population it started
    from. *)
Lemma trace_ok_cap (tr : IterationTrace) :
  trace_ok log2 tr ->
  capacity_cap (st_hr (tr_before tr)) (length (st_agents (tr_before tr)))
  = Some (tr_max_accept tr).
Proof.
  intros ((s & s' & Hloop) & Hcap & _).
  pose proof (agent_loop_spec _ _ _ _ _ _ Hloop)
    as (_ & _ & _ & _ & Hrec & _).
  by rewrite (Forall2_length _ _ _ Hrec), <- max_accept_cap.
Qed.

Lemma trace_ok_frame (st0 : SimState) (tr : IterationTrace) :
  trace_ok log2 tr -> frame_inv st0 (tr_before tr) -> frame_inv st0 (tr_after tr).
Proof.
  intros (_ & _ & _ & Hpf & Hag & Hhr & _) (H1 & H2 & H3 & H4 & H5 & H6).
  apply platform_feedback_spec in Hpf
    as (Hlr & Hd & Hfw & uA & hA & pA & uB & hB & pB
        & _ & _ & HpA & _ & _ & HpB & Hnew).
  repeat split; try congruence.
  - rewrite Hnew, !dom_insert_L, H5. unfold group_keys. set_solver.
  - rewrite Hag. eapply same_fixed_fields_trans; [exact H6|].
    apply update_preferences_fixed.
Qed.

Lemma trace_ok_range (tr : IterationTrace) :
  trace_ok log2 tr -> state_in_range (tr_before tr) ->
  state_in_range (tr_after tr).
Proof.
  intros Hok (_ & Hall & _).
  pose proof (trace_ok_hiring tr Hok) as ((_ & Hlen & _) & _).
  destruct Hok as (_ & _ & _ & Hpf & Hag & _).
  apply platform_feedback_spec in Hpf
    as (_ & _ & _ & uA & hA & pA & uB & hB & pB & _ & _ & _ & _ & _ & _ & Hnew).
  assert (Hlk : forall g p, p_high (st_platform (tr_after tr)) !! g = Some p ->
                            0 <= p <= 1).
  { intros g p. rewrite Hnew, lookup_insert. case_decide.
    - intros [= <-]. apply clamp01_range.
    - rewrite lookup_insert. case_decide.
      + intros [= <-]. apply clamp01_range.
      + apply Hall. }
  split; [|split; [done|]].
  - intros g Hg.
    assert (Hs : is_Some (p_high (st_platform (tr_after tr)) !! g)).
    { rewrite Hnew. destruct Hg as [->| ->]; by simplify_map_eq. }
    destruct Hs as [p Hp]. exists p. split; [done|]. by eapply Hlk.
  - rewrite Hag. by apply update_preferences_range.
Qed.

Lemma initial_state_frame params s st0 s' :
  initial_state params s = Some (st0, s') -> frame_inv st0 st0.
Proof.
  intros (_ & _ & Hp & _)%initial_state_spec.
  repeat split; try done.
  - rewrite Hp. simpl. rewrite !dom_insert_L, dom_empty_L.
    unfold group_keys. set_solver.
  - apply same_fixed_fields_refl.
Qed.

Lemma initial_state_range params s st0 s' :
  initial_state params s = Some (st0, s') -> state_in_range st0.
Proof.
  intros (_ & Hall & Hp & _)%initial_state_spec.
  assert (Hlk : forall g p, p_high (st_platform st0) !! g = Some p ->
                            0 <= p <= 1).
  { intros g p. rewrite Hp. simpl. rewrite lookup_insert. case_decide.
    - intros [= <-]. lra.
    - rewrite lookup_insert. case_decide; [|done]. intros [= <-]. lra. }
  split; [|split; [done|]].
  - intros g Hg. exists (1 # 2). split; [|lra].
    rewrite Hp. destruct Hg as [->| ->]; by simplify_map_eq.
  - eapply Forall_impl; [exact Hall|]. by intros a (_ & _ & ? & _).
Qed.

(** Every pass of a run starts from and leaves a state that satisfies the
    frame and range invariants and raises nowhere. *)
Lemma run_trace_passes params st0 history :
  run_trace log2 params = Some (st0, history) ->
  Forall (fun tr =>
    trace_ok log2 tr /\
    frame_inv st0 (tr_before tr) /\ frame_inv st0 (tr_after tr) /\
    state_in_range (tr_before tr) /\ state_in_range (tr_after tr)) history.
Proof.
  intros ((s & s' & Hinit) & _ & Hchain)%run_trace_inv.
  pose proof (trace_chain_ok _ _ _ _ Hchain) as Hok.
  pose proof (trace_chain_invariant log2 (frame_inv st0) _ _ _
                (trace_ok_frame st0) Hchain (initial_state_frame _ _ _ _ Hinit))
    as Hfr.
  pose proof (trace_chain_invariant log2 state_in_range _ _ _
                trace_ok_range Hchain (initial_state_range _ _ _ _ Hinit))
    as Hrg.
  rewrite Forall_forall in Hok, Hfr, Hrg |- *. intros tr Htr.
  specialize (Hok tr Htr). specialize (Hfr tr Htr). specialize (Hrg tr Htr).
  tauto.
Qed.

End RunFacts.

Section RunClaims.

Context `{G : PRNG}.
Variable log2 : Q -> Q.

Lemma run_trace_pass_params params st0 history tr :
  run_trace log2 params = Some (st0, history) -> tr ∈ history ->
  trace_ok log2 tr /\
  st_hr (tr_before tr) = initial_hr params /\
  length (st_agents (tr_before tr)) = Z.to_nat (n_agents params).
Proof.
  intros Hrun Htr.
  pose proof (run_trace_passes log2 _ _ _ Hrun) as Hall.
  rewrite Forall_forall in Hall.
  destruct (Hall tr Htr) as (Hok & (Hhr & _ & _ & _ & _ & Hag) & _).
  apply run_trace_inv in Hrun as ((s & s' & Hinit) & _ & _).
  apply initial_state_spec in Hinit as (Hlen & _ & _ & Hhr0).
  split; [done|]. split; [congruence|].
  apply Forall2_length in Hag. congruence.
Qed.

(** C2: in every run, the state after step 2 and the state after every pass
    of the loop have [p_high["A"]] and [p_high["B"]] (indeed every entry of
    [p_high]) in [[0, 1]] and every agent's [preference_for_high] in
    [[0, 1]], whatever the parameters are. *)
Theorem p_high_and_preferences_in_unit_interval params st0 history :
  run_trace log2 params = Some (st0, history) ->
  state_in_range st0 /\
  Forall (fun tr => state_in_range (tr_after tr)) history.
Proof.
  intros Hrun. split.
  - apply run_trace_inv in Hrun as ((s & s' & Hinit) & _).
    by eapply initial_state_range.
  - eapply Forall_impl; [exact (run_trace_passes log2 _ _ _ Hrun)|].
    by intros tr (_ & _ & _ & _ & ?).
Qed.

(** C3: in every pass of every run, with [N] the population size, the
    product [hiring_capacity * N] is a finite double and, with the cap
    [max(1, floor(hiring_capacity * N))] taken on that double: every
    accepted agent is eligible (its double [final_score] compares
    [>= hiring_threshold]), at most the cap are accepted, and when no more
    agents are eligible than the cap, every eligible agent is accepted. *)
Theorem accepted_subset_of_eligible_within_cap params st0 history :
  run_trace log2 params = Some (st0, history) ->
  Forall (fun tr =>
    let agents := st_agents (tr_before tr) in
    let hr := initial_hr params in
    let N := Z.to_nat (n_agents params) in
    let flags := tr_accepted_flags tr in
    length agents = N /\ length flags = N /\
    exists cap,
      capacity_cap hr N = Some cap /\
      (forall i, flags !! i = Some true ->
         exists a, agents !! i = Some a /\ eligibleb hr a = true) /\
      (Z.of_nat (count_true flags) <= cap)%Z /\
      ((Z.of_nat (length (filter (fun a => eligibleb hr a) agents)) <= cap)%Z ->
       forall i a, agents !! i = Some a -> eligibleb hr a = true ->
                   flags !! i = Some true)) history.
Proof.
  intros Hrun. apply Forall_forall. intros tr Htr.
  destruct (run_trace_pass_params _ _ _ _ Hrun Htr) as (Hok & Hhr & Hlen).
  destruct (trace_ok_hiring log2 tr Hok) as (Hinv & Hidx & Hflags).
  pose proof (trace_ok_cap log2 tr Hok) as Hcap.
  pose proof Hok as (_ & Hmax & _). apply max_accept_positive in Hmax.
  destruct Hinv as (_ & _ & _ & _ & Hrec & _).
  simpl. rewrite Hhr in *. rewrite Hflags, <- Hlen.
  split; [done|]. split; [by apply (flags_of_length (initial_hr params))|].
  exists (tr_max_accept tr). split; [done|].
  split; [by apply (accepted_is_eligible (initial_hr params))|].
  split; [by apply (accepted_count_le_cap (initial_hr params) _ _ _ Hrec)|].
  intros Hle i a.
  exact (all_eligible_accepted (initial_hr params) _ _ _ Hrec Hidx i a Hle).
Qed.

(** C4: in every pass of every run the eligible applicant records have
    exactly one ranking that is strictly ordered by the double [final_score]
    descending and, among equal scores, by position in the population
    ascending ([idx] is the agent's position); the accepted agents are
    exactly the first [max(1, floor(hiring_capacity * N))] of that ranking,
    the product being the finite double the code computes. *)
Theorem accepted_are_top_ranked params st0 history :
  run_trace log2 params = Some (st0, history) ->
  Forall (fun tr =>
    let agents := st_agents (tr_before tr) in
    let hr := initial_hr params in
    let N := Z.to_nat (n_agents params) in
    let records := applicant_records (tr_vars tr) in
    let eligible := filter (fun r => meets_threshold r) records in
    Forall2 (record_of hr) agents records /\
    idx <$> records = seq 0 N /\
    (exists ranked, ranked ≡ₚ eligible /\ StronglySorted outranks ranked) /\
    exists cap,
      capacity_cap hr N = Some cap /\
      forall ranked,
        ranked ≡ₚ eligible -> StronglySorted outranks ranked ->
        forall i, tr_accepted_flags tr !! i = Some true <->
                  exists r, r ∈ take (Z.to_nat cap) ranked /\ idx r = i)
    history.
Proof.
  intros Hrun. apply Forall_forall. intros tr Htr.
  destruct (run_trace_pass_params _ _ _ _ Hrun Htr) as (Hok & Hhr & Hlen).
  destruct (trace_ok_hiring log2 tr Hok) as (Hinv & Hidx & Hflags).
  pose proof (trace_ok_cap log2 tr Hok) as Hcap.
  destruct Hinv as (_ & _ & _ & _ & Hrec & _).
  simpl. rewrite Hhr in *. rewrite Hflags, <- Hlen.
  assert (Hsorted : StronglySorted outranks
                      (ranked_eligible (applicant_records (tr_vars tr)))).
  { apply ranked_eligible_sorted.
    - apply Forall2_length in Hrec. congruence.
    - by eapply record_of_scores. }
  split; [done|]. split; [done|]. split.
  - exists (ranked_eligible (applicant_records (tr_vars tr))).
    split; [apply ranked_eligible_perm | done].
  - exists (tr_max_accept tr). split; [done|].
    intros ranked Hperm Hs i.
    assert (ranked = ranked_eligible (applicant_records (tr_vars tr))) as ->.
    { apply outranks_ranking_unique; try done.
      by rewrite Hperm, ranked_eligible_perm. }
    by apply (flags_of_lookup (initial_hr params) _ _ _ Hrec).
Qed.

(** C8: with [hiring_capacity] in its documented range [[0, 1]] (and a
    population of at most [2^1023], so that its size is a finite double),
    or with no pass to make, the run returns; the loop makes exactly
    [iterations] passes (none when [iterations] is negative, as [range] is
    then empty) and the returned history has one snapshot per pass, so
    [iterations = 0] yields the empty history. *)
Theorem run_simulation_history_length params :
  (0 <= params_hiring_capacity params <= 1 /\
   (n_agents params <= 2 ^ 1023)%Z) \/
  (iterations params <= 0)%Z ->
  exists st0 history r,
    run_trace log2 params = Some (st0, history) /\
    run_simulation log2 params = Some r /\
    result_iterations r = tr_snapshot <$> history /\
    Z.of_nat (length history) = Z.max 0 (iterations params) /\
    Z.of_nat (length (result_iterations r)) = Z.max 0 (iterations params) /\
    (iterations params = 0%Z -> result_iterations r = []).
Proof.
  intros Hcase.
  destruct (run_trace_total log2 params) as [[st0 history] Hrun].
  { destruct Hcase as [[Hc Hn] | Hz]; [left | by right].
    apply capacity_cap_defined; [done|]. lia. }
  pose proof (run_trace_inv log2 _ _ _ Hrun) as (_ & Hlen & _).
  exists st0, history. eexists. split; [done|].
  unfold run_simulation. rewrite Hrun. simpl.
  split; [reflexivity|]. simpl. split; [done|].
  rewrite length_fmap, Hlen.
  split; [lia|]. split; [lia|].
  intros Hz. rewrite Hz in Hlen. simpl in Hlen.
  by destruct history.
Qed.

End RunClaims.

(** ** Consecutive passes *)

Section Chain.

Context `{G : PRNG}.
Variable log2 : Q -> Q.

Lemma trace_chain_head st prev history tr :
  trace_chain log2 st prev history -> history !! 0%nat = Some tr ->
  tr_before tr = st /\ tr_prev_disparity tr = prev.
Proof. intros Hchain Hk. destruct Hchain; simplify_eq/=. done. Qed.

Lemma trace_chain_succ st prev history k tr tr' :
  trace_chain log2 st prev history ->
  history !! k = Some tr -> history !! S k = Some tr' ->
  tr_before tr' = tr_after tr /\
  tr_prev_disparity tr' = Some (disparity_exposure (tr_snapshot tr)).
Proof.
  intros Hchain. revert k. induction Hchain as [|tr0 rest _ Hrest IH]; intros k Hk Hk'.
  - done.
  - destruct k as [|k]; simpl in *.
    + injection Hk as ->. by eapply trace_chain_head.
    + by eapply IH.
Qed.

End Chain.

(** ** The stored doubles *)

Lemma py_round_proper (x y : Q) (n : nat) : x == y -> py_round x n == py_round y n.
Proof.
  intros E. unfold py_round. by apply b64_round_proper, round_decimal_proper.
Qed.

Lemma py_round_6_zero : py_round 0 6 == 0.
Proof. unfold py_round. apply b64_round_zero. apply round_decimal_6_zero. Qed.

Lemma py_round_6_unit (x : Q) : 0 <= x <= 1 -> 0 <= py_round x 6 <= 1.
Proof. intros H. unfold py_round. by apply b64_round_unit, round_decimal_6_unit. Qed.

Lemma b64_round_signed_unit (x : Q) : -1 <= x <= 1 -> -1 <= b64_round x <= 1.
Proof.
  apply b64_round_between; [by apply (b64_round_Z (-1)) | by apply (b64_round_Z 1)].
Qed.

Lemma py_round_6_signed_unit (x : Q) : -1 <= x <= 1 -> -1 <= py_round x 6 <= 1.
Proof.
  intros H. unfold py_round. apply b64_round_signed_unit.
  by apply (round_decimal_6_abs x 1).
Qed.

Lemma pow2_m53 : 2 ^ (-53) == 1 # 9007199254740992.
Proof. reflexivity. Qed.

Lemma pow2_m52 : 2 ^ (-52) == 1 # 4503599627370496.
Proof. reflexivity. Qed.

Lemma pow2_m51 : 2 ^ (-51) == 1 # 2251799813685248.
Proof. reflexivity. Qed.

(** The rounding error of a double in [[-1, 1]] and in [[-2, 2]]. *)
Lemma b64_round_error_1 (x : Q) :
  -1 <= x <= 1 -> Qabs (b64_round x - x) <= 1 # 9007199254740992.
Proof.
  intros H. rewrite <- pow2_m53.
  apply (b64_round_error_below x 0); [|lia].
  change (2 ^ 0) with 1. by apply Qabs_Qle_condition.
Qed.

Lemma b64_round_error_2 (x : Q) :
  -2 <= x <= 2 -> Qabs (b64_round x - x) <= 1 # 4503599627370496.
Proof.
  intros H. rewrite <- pow2_m52.
  apply (b64_round_error_below x 1); [|lia].
  change (2 ^ 1) with 2. by apply Qabs_Qle_condition.
Qed.

(** An integer strictly between -2 and 2 is between -1 and 1. *)
Lemma inject_Z_below_2 (m : Z) :
  -2 < inject_Z m < 2 -> -1 <= inject_Z m <= 1.
Proof.
  intros [Hlo Hhi].
  assert (-2 < m < 2)%Z as [H1 H2].
  { split; rewrite Zlt_Qlt.
    - by change (inject_Z (-2)) with (-2 # 1).
    - by change (inject_Z 2) with (2 # 1). }
  split.
  - change (-1) with (inject_Z (-1)). rewrite <- Zle_Qle. lia.
  - change 1 with (inject_Z 1). rewrite <- Zle_Qle. lia.
Qed.

(** The stored difference of two rates against the difference of the two
    stored rates: one unit of the sixth decimal, and the rounding of the
    three doubles. *)
Lemma py_round_6_sub (a b : Q) :
  0 <= a <= 1 -> 0 <= b <= 1 ->
  Qabs (py_round (b64_round (a - b)) 6 - (py_round a 6 - py_round b 6))
    <= (1 # 1000000) + 2 ^ (-51).
Proof.
  intros Ha Hb. rewrite pow2_m51. unfold py_round.
  set (d := b64_round (a - b)).
  pose proof (b64_round_error_1 (a - b) ltac:(lra)) as Ed.
  pose proof (b64_round_signed_unit (a - b) ltac:(lra)) as Hd. fold d in Ed, Hd.
  apply Qabs_Qle_condition in Ed.
  pose proof (round_decimal_6_abs d 1 Hd) as HD.
  pose proof (round_decimal_6_unit a Ha) as HA.
  pose proof (round_decimal_6_unit b Hb) as HB.
  change (inject_Z 1) with 1 in HD.
  pose proof (b64_round_error_1 (round_decimal d 6) ltac:(lra)) as ED.
  pose proof (b64_round_error_1 (round_decimal a 6) ltac:(lra)) as EA.
  pose proof (b64_round_error_1 (round_decimal b 6) ltac:(lra)) as EB.
  apply Qabs_Qle_condition in ED, EA, EB.
  set (D := b64_round (round_decimal d 6)) in *.
  set (A := b64_round (round_decimal a 6)) in *.
  set (B := b64_round (round_decimal b 6)) in *.
  rewrite !round_decimal_6, !div_micro in ED, EA, EB.
  pose proof (round_micro_error d) as Kd.
  pose proof (round_micro_error a) as Ka.
  pose proof (round_micro_error b) as Kb.
  set (kd := round_half_even (d * micro)) in *.
  set (ka := round_half_even (a * micro)) in *.
  set (kb := round_half_even (b * micro)) in *.
  pose proof (inject_Z_sub_add kd ka kb) as He.
  assert (Hs : -2 < inject_Z (kd - ka + kb) < 2) by lra.
  apply inject_Z_below_2 in Hs.
  apply Qabs_Qle_condition. lra.
Qed.

(** The same for the stored change against the difference of two stored
    disparities, the earlier one already stored. *)
Lemma py_round_6_sub_stored (d c : Q) :
  -1 <= d <= 1 -> -1 <= c <= 1 ->
  Qabs (py_round (b64_round (d - py_round c 6)) 6
        - (py_round d 6 - py_round c 6))
    <= (1 # 1000000) + 2 ^ (-51).
Proof.
  intros Hd Hc. rewrite pow2_m51. unfold py_round.
  pose proof (round_decimal_6_abs c 1 Hc) as HC.
  change (inject_Z 1) with 1 in HC.
  pose proof (b64_round_error_1 (round_decimal c 6) ltac:(lra)) as EC.
  pose proof (b64_round_signed_unit (round_decimal c 6) ltac:(lra)) as HC'.
  apply Qabs_Qle_condition in EC.
  set (C := b64_round (round_decimal c 6)) in *.
  set (r := b64_round (d - C)).
  pose proof (b64_round_error_2 (d - C) ltac:(lra)) as Er.
  assert (Hr : -2 <= r <= 2).
  { apply b64_round_between;
      [by apply (b64_round_Z (-2)) | by apply (b64_round_Z 2) | lra]. }
  fold r in Er. apply Qabs_Qle_condition in Er.
  pose proof (round_decimal_6_abs r 2 Hr) as HR.
  pose proof (round_decimal_6_abs d 1 Hd) as HD.
  change (inject_Z 2) with 2 in HR. change (inject_Z 1) with 1 in HD.
  pose proof (b64_round_error_2 (round_decimal r 6) ltac:(lra)) as ER.
  pose proof (b64_round_error_1 (round_decimal d 6) ltac:(lra)) as ED.
  apply Qabs_Qle_condition in ER, ED.
  set (R := b64_round (round_decimal r 6)) in *.
  set (D := b64_round (round_decimal d 6)) in *.
  rewrite !round_decimal_6, !div_micro in ER, ED, EC.
  pose proof (round_micro_error r) as Kr.
  pose proof (round_micro_error d) as Kd.
  pose proof (round_micro_error c) as Kc.
  set (kr := round_half_even (r * micro)) in *.
  set (kd := round_half_even (d * micro)) in *.
  set (kc := round_half_even (c * micro)) in *.
  pose proof (inject_Z_sub_add kr kd kc) as He.
  assert (Hs : -2 < inject_Z (kr - kd + kc) < 2) by lra.
  apply inject_Z_below_2 in Hs.
  apply Qabs_Qle_condition. lra.
Qed.

(** ** The rates of a group *)

Lemma sum_where_bounds g (groups : list string) (vals : list Z) :
  Forall binary vals ->
  (0 <= sum_where g groups vals <= count_group g groups)%Z.
Proof.
  unfold sum_where, count_group. revert vals.
  induction groups as [|g' groups IH]; intros vals Hv.
  - simpl. lia.
  - destruct vals as [|v vals].
    + simpl. rewrite filter_cons. destruct (decide _); simpl; lia.
    + apply Forall_cons in Hv as [Hv Hvs]. specialize (IH vals Hvs).
      change (zip (g' :: groups) (v :: vals)) with ((g', v) :: zip groups vals).
      rewrite !filter_cons. cbn [fst].
      destruct (String.eqb g' g) eqn:E.
      * rewrite !decide_True by done. rewrite fmap_cons.
        cbn [foldr snd length]. destruct Hv as [-> | ->]; lia.
      * rewrite !decide_False by (cbv; tauto). lia.
Qed.

Lemma count_accepted_bounds g (groups : list string) (accepted : list bool) :
  (0 <= count_accepted g groups accepted <= count_group g groups)%Z.
Proof.
  unfold count_accepted, count_group. revert accepted.
  induction groups as [|g' groups IH]; intros accepted.
  - simpl. lia.
  - destruct accepted as [|a accepted].
    + simpl. rewrite filter_cons. destruct (decide _); simpl; lia.
    + specialize (IH accepted).
      change (zip (g' :: groups) (a :: accepted))
        with ((g', a) :: zip groups accepted).
      rewrite !filter_cons. cbn [fst snd].
      destruct (String.eqb g' g) eqn:E.
      * rewrite (decide_True (P := Is_true true)) by done.
        destruct a; simpl andb.
        -- rewrite decide_True by done. cbn [length]. lia.
        -- rewrite decide_False by (cbv; tauto). cbn [length]. lia.
      * rewrite !decide_False by (cbv; tauto). lia.
Qed.

Lemma safe_div0_unit (total n : Z) :
  (0 <= total <= n)%Z -> 0 <= safe_div0 (inject_Z total) (inject_Z n) <= 1.
Proof.
  intros [H0 H1]. unfold safe_div0, safe_div.
  destruct (Qeq_bool (inject_Z n) 0) eqn:E; [lra|].
  assert (Hn : (0 < n)%Z).
  { destruct (Z.eq_dec n 0%Z) as [->|]; [done | lia]. }
  assert (Hq : 0 < inject_Z n) by (change 0 with (inject_Z 0); by rewrite <- Zlt_Qlt).
  split.
  - apply Qle_shift_div_l; [done|]. rewrite Qmult_0_l.
    change 0 with (inject_Z 0). by rewrite <- Zle_Qle.
  - apply Qle_shift_div_r; [done|]. rewrite Qmult_1_l. by rewrite <- Zle_Qle.
Qed.

Lemma group_rate_unit (total n : Z) :
  (0 <= total <= n)%Z -> 0 <= group_rate total n <= 1.
Proof. intros H. unfold group_rate. by apply b64_round_unit, safe_div0_unit. Qed.

Lemma group_rate_empty (total : Z) : group_rate total 0 == 0.
Proof. unfold group_rate. by apply b64_round_zero. Qed.

Lemma group_rate_zero (n : Z) : group_rate 0 n == 0.
Proof.
  unfold group_rate. apply b64_round_zero. unfold safe_div0, safe_div.
  destruct (Qeq_bool (inject_Z n) 0) eqn:E; [done|].
  unfold Qdiv. change (inject_Z 0) with 0. by rewrite Qmult_0_l.
Qed.

Lemma exposure_rate_unit g (groups : list string) (shown : list Z) :
  Forall binary shown -> 0 <= exposure_rate g groups shown <= 1.
Proof. intros H. by apply group_rate_unit, sum_where_bounds. Qed.

Lemma raw_disparity_exposure_range (groups : list string) (shown : list Z) :
  Forall binary shown -> -1 <= raw_disparity_exposure groups shown <= 1.
Proof.
  intros H. unfold raw_disparity_exposure. apply b64_round_signed_unit.
  pose proof (exposure_rate_unit "A" groups shown H).
  pose proof (exposure_rate_unit "B" groups shown H). lra.
Qed.

(** ** What the snapshot stores *)

Lemma compute_iteration_metrics_exposure (log2 : Q -> Q) groups shown chosen
    accepted p_A p_B prev snap :
  compute_iteration_metrics log2 groups shown chosen accepted p_A p_B prev
    = Some snap ->
  exposure_high_A snap = py_round (exposure_rate "A" groups shown) 6 /\
  exposure_high_B snap = py_round (exposure_rate "B" groups shown) 6 /\
  disparity_exposure snap = py_round (raw_disparity_exposure groups shown) 6 /\
  reinforcement_index snap =
    py_round (match prev with
              | Some p => b64_round (raw_disparity_exposure groups shown - p)
              | None => 0
              end) 6.
Proof.
  unfold compute_iteration_metrics. cbv zeta. intros H.
  apply bind_Some in H as (eA & _ & H).
  apply bind_Some in H as (eB & _ & H).
  injection H as <-. simpl. by repeat split.
Qed.

Section SnapshotClaims.

Context `{G : PRNG}.
Variable log2 : Q -> Q.

Lemma trace_ok_snapshot (tr : IterationTrace) :
  trace_ok log2 tr ->
  let v := tr_vars tr in
  let snap := tr_snapshot tr in
  exposure_high_A snap = py_round (exposure_rate "A" (groups v) (shown_levels v)) 6 /\
  exposure_high_B snap = py_round (exposure_rate "B" (groups v) (shown_levels v)) 6 /\
  disparity_exposure snap
    = py_round (raw_disparity_exposure (groups v) (shown_levels v)) 6 /\
  reinforcement_index snap =
    py_round (match tr_prev_disparity tr with
              | Some p =>
                  b64_round (raw_disparity_exposure (groups v) (shown_levels v) - p)
              | None => 0
              end) 6.
Proof.
  intros (_ & _ & _ & _ & _ & _ & pA & pB & _ & _ & Hm).
  by eapply compute_iteration_metrics_exposure.
Qed.

Lemma trace_ok_shown_binary (tr : IterationTrace) :
  trace_ok log2 tr -> Forall binary (shown_levels (tr_vars tr)).
Proof.
  intros Hok.
  by pose proof (trace_ok_hiring log2 tr Hok) as ((_ & _ & Hs & _) & _).
Qed.

(** C5 (amended): in every recorded snapshot, [exposure_high_A] and
    [exposure_high_B] are [round(rate, 6)] of the two unrounded rates (each
    the double quotient of two counts) and [disparity_exposure] is
    [round(rate_A - rate_B, 6)] of their double difference, each stored as
    the double nearest to the 6-digit decimal; the stored disparity is
    within [0.000001 + 2^-51] of the difference of the two stored rates. *)
Theorem disparity_exposure_rounded_difference params st0 history :
  run_trace log2 params = Some (st0, history) ->
  Forall (fun tr =>
    let v := tr_vars tr in
    let snap := tr_snapshot tr in
    let rate_A := exposure_rate "A" (groups v) (shown_levels v) in
    let rate_B := exposure_rate "B" (groups v) (shown_levels v) in
    exposure_high_A snap = py_round rate_A 6 /\
    exposure_high_B snap = py_round rate_B 6 /\
    disparity_exposure snap = py_round (b64_round (rate_A - rate_B)) 6 /\
    Qabs (disparity_exposure snap - (exposure_high_A snap - exposure_high_B snap))
      <= (1 # 1000000) + 2 ^ (-51)) history.
Proof.
  intros Hrun. apply Forall_forall. intros tr Htr.
  destruct (run_trace_pass_params log2 _ _ _ _ Hrun Htr) as (Hok & _).
  destruct (trace_ok_snapshot tr Hok) as (HA & HB & HD & _).
  pose proof (trace_ok_shown_binary tr Hok) as Hbin. cbv zeta.
  split; [done|]. split; [done|]. split; [done|].
  rewrite HA, HB, HD. unfold raw_disparity_exposure.
  apply py_round_6_sub; by apply exposure_rate_unit.
Qed.

(** C6 (amended): the first recorded [reinforcement_index] is exactly [0];
    in every later pass it is [round(raw - recorded_prev, 6)], with [raw]
    that pass's unrounded [disparity_exposure], [recorded_prev] the previous
    pass's recorded [disparity_exposure] and the difference a double, and
    so within [0.000001 + 2^-51] of the difference of the two recorded
    disparities. *)
Theorem reinforcement_index_rounded_change params st0 history :
  run_trace log2 params = Some (st0, history) ->
  (forall tr, history !! 0%nat = Some tr ->
     reinforcement_index (tr_snapshot tr) == 0) /\
  (forall t tr_prev tr,
     history !! t = Some tr_prev -> history !! S t = Some tr ->
     let raw := raw_disparity_exposure (groups (tr_vars tr))
                  (shown_levels (tr_vars tr)) in
     let recorded_prev := disparity_exposure (tr_snapshot tr_prev) in
     disparity_exposure (tr_snapshot tr) = py_round raw 6 /\
     reinforcement_index (tr_snapshot tr)
       = py_round (b64_round (raw - recorded_prev)) 6 /\
     Qabs (reinforcement_index (tr_snapshot tr)
           - (disparity_exposure (tr_snapshot tr) - recorded_prev))
       <= (1 # 1000000) + 2 ^ (-51)).
Proof.
  intros Hrun.
  pose proof (run_trace_inv log2 _ _ _ Hrun) as (_ & _ & Hchain).
  split.
  - intros tr Htr.
    destruct (trace_chain_head log2 _ _ _ _ Hchain Htr) as [_ Hprev].
    apply list_elem_of_lookup_2 in Htr.
    destruct (run_trace_pass_params log2 _ _ _ _ Hrun Htr) as (Hok & _).
    destruct (trace_ok_snapshot tr Hok) as (_ & _ & _ & HR).
    rewrite HR, Hprev. apply py_round_6_zero.
  - intros t tr_prev tr Ht Ht'.
    destruct (trace_chain_succ log2 _ _ _ _ _ _ Hchain Ht Ht') as [_ Hprev].
    apply list_elem_of_lookup_2 in Ht, Ht'.
    destruct (run_trace_pass_params log2 _ _ _ _ Hrun Ht) as (Hok0 & _).
    destruct (run_trace_pass_params log2 _ _ _ _ Hrun Ht') as (Hok & _).
    destruct (trace_ok_snapshot tr_prev Hok0) as (_ & _ & HD0 & _).
    destruct (trace_ok_snapshot tr Hok) as (_ & _ & HD & HR). cbv zeta.
    rewrite Hprev in HR.
    split; [done|]. split; [done|].
    rewrite HR, HD, HD0.
    apply py_round_6_sub_stored; apply raw_disparity_exposure_range;
      by apply trace_ok_shown_binary.
Qed.

(** C9: across a run only [p_high] and the agents' [preference_for_high]
    change.  The passes are chained from the state after step 2; after
    every pass the HR department, the platform's three parameters, the keys
    of [p_high] and each agent's [group], [skill], [trust_in_algorithm],
    [adaptation_speed] and [risk_tolerance] are what they were after step 2
    (which are the parameters' values); the per-agent loop of the pass ran
    entirely on the state the pass started from; and the pass wrote each
    [p_high] entry and each preference once, from its value before the pass. *)
Theorem only_p_high_and_preferences_change params st0 history :
  run_trace log2 params = Some (st0, history) ->
  st_hr st0 = initial_hr params /\
  st_platform st0 = initial_platform params /\
  Forall (agent_init_ok params) (st_agents st0) /\
  (forall tr, history !! 0%nat = Some tr -> tr_before tr = st0) /\
  (forall k tr tr', history !! k = Some tr -> history !! S k = Some tr' ->
                    tr_before tr' = tr_after tr) /\
  Forall (fun tr =>
    let before := tr_before tr in
    let after := tr_after tr in
    let v := tr_vars tr in
    frame_inv st0 after /\
    (exists s s',
       sim_for (agent_body (st_platform before) (st_hr before))
         (st_agents before) agent_loop_init s = Some (v, s')) /\
    (forall g, is_group g ->
       exists p_old u h,
         p_high (st_platform before) !! g = Some p_old /\
         user_chose_high v !! g = Some u /\
         tr_hr_accepted_high tr !! g = Some h /\
         p_high (st_platform after) !! g
           = Some (p_high_update (st_platform before) p_old u h)) /\
    length (st_agents after) = length (st_agents before) /\
    (forall i a, st_agents before !! i = Some a ->
       exists shown, shown_levels v !! i = Some shown /\
                     st_agents after !! i = Some (internalize a shown)))
    history.
Proof.
  intros Hrun.
  pose proof (run_trace_inv log2 _ _ _ Hrun) as ((s & s' & Hinit) & _ & Hchain).
  pose proof (initial_state_spec _ _ _ _ Hinit) as (_ & Hag0 & Hp0 & Hhr0).
  split; [done|]. split; [done|]. split; [done|].
  split.
  { intros tr Htr. by destruct (trace_chain_head log2 _ _ _ _ Hchain Htr). }
  split.
  { intros k tr tr' Hk Hk'.
    by destruct (trace_chain_succ log2 _ _ _ _ _ _ Hchain Hk Hk'). }
  pose proof (run_trace_passes log2 _ _ _ Hrun) as Hall.
  eapply Forall_impl; [exact Hall|]. clear Hall.
  intros tr (Hok & _ & Hfr & _). simpl.
  split; [done|].
  pose proof (trace_ok_hiring log2 tr Hok) as ((_ & Hlen & _) & _).
  destruct Hok as (Hloop & _ & _ & Hpf & Hag & _).
  split; [done|].
  apply platform_feedback_spec in Hpf
    as (_ & _ & _ & uA & hA & pA & uB & hB & pB
        & HuA & HhA & HpA & HuB & HhB & HpB & Hnew).
  split.
  { intros g [->| ->].
    - exists pA, uA, hA. repeat split; try done.
      rewrite Hnew. by simplify_map_eq.
    - exists pB, uB, hB. repeat split; try done.
      rewrite Hnew. by simplify_map_eq. }
  split.
  { rewrite Hag. symmetry. eapply Forall2_length, update_preferences_fixed. }
  intros i a Ha.
  destruct (lookup_lt_is_Some_2 (shown_levels (tr_vars tr)) i) as [sh Hsh].
  { rewrite Hlen. by eapply lookup_lt_Some. }
  exists sh. split; [done|]. rewrite Hag. by apply update_preferences_lookup.
Qed.

End SnapshotClaims.

(** ** Determinism

    Two random sources are related by [R] when related states yield the same
    draw and related next states.  Runs on related sources agree. *)

Section Determinism.

Variables G1 G2 : PRNG.
Variable R : @rng_state G1 -> @rng_state G2 -> Prop.

Hypothesis R_random : forall s1 s2, R s1 s2 ->
  (@rng_random G1 s1).1 = (@rng_random G2 s2).1 /\
  R (@rng_random G1 s1).2 (@rng_random G2 s2).2.

Hypothesis R_gauss : forall mu sigma s1 s2, R s1 s2 ->
  (@rng_gauss G1 mu sigma s1).1 = (@rng_gauss G2 mu sigma s2).1 /\
  R (@rng_gauss G1 mu sigma s1).2 (@rng_gauss G2 mu sigma s2).2.

Lemma sim_equiv_ret {A : Type} (a : A) : sim_equiv G1 G2 R (sim_ret a) (sim_ret a).
Proof. intros s1 s2 HR. by simpl. Qed.

Lemma sim_equiv_lift {A : Type} (o : option A) :
  sim_equiv G1 G2 R (sim_lift o) (sim_lift o).
Proof. intros s1 s2 HR. unfold sim_lift. by destruct o. Qed.

Lemma sim_equiv_bind {A B : Type} (m1 : @Sim G1 A) (m2 : @Sim G2 A)
    (k1 : A -> @Sim G1 B) (k2 : A -> @Sim G2 B) :
  sim_equiv G1 G2 R m1 m2 -> (forall a, sim_equiv G1 G2 R (k1 a) (k2 a)) ->
  sim_equiv G1 G2 R (sim_bind m1 k1) (sim_bind m2 k2).
Proof.
  intros Hm Hk s1 s2 HR. specialize (Hm s1 s2 HR). unfold sim_bind.
  destruct (m1 s1) as [[a1 s1']|], (m2 s2) as [[a2 s2']|]; try done.
  destruct Hm as [-> HR']. by apply Hk.
Qed.

Lemma sim_equiv_random : sim_equiv G1 G2 R draw_random draw_random.
Proof.
  intros s1 s2 HR. unfold draw_random.
  destruct (R_random s1 s2 HR) as [Hv Hs].
  destruct (@rng_random G1 s1), (@rng_random G2 s2). done.
Qed.

Lemma sim_equiv_gauss mu sigma :
  sim_equiv G1 G2 R (draw_gauss mu sigma) (draw_gauss mu sigma).
Proof.
  intros s1 s2 HR. unfold draw_gauss.
  destruct (R_gauss mu sigma s1 s2 HR) as [Hv Hs].
  destruct (@rng_gauss G1 mu sigma s1), (@rng_gauss G2 mu sigma s2). done.
Qed.

Lemma sim_equiv_for {A S : Type} (body1 : S -> A -> @Sim G1 S)
    (body2 : S -> A -> @Sim G2 S) (l : list A) :
  (forall acc x, sim_equiv G1 G2 R (body1 acc x) (body2 acc x)) ->
  forall acc, sim_equiv G1 G2 R (sim_for body1 l acc) (sim_for body2 l acc).
Proof.
  intros Hbody. induction l as [|x l IH]; intros acc; simpl.
  - apply sim_equiv_ret.
  - apply sim_equiv_bind; [apply Hbody | apply IH].
Qed.

Lemma create_agents_equiv params n agents :
  sim_equiv G1 G2 R (@create_agents G1 params n agents)
            (@create_agents G2 params n agents).
Proof.
  revert agents. induction n as [|n IH]; intros agents; simpl.
  - apply sim_equiv_ret.
  - apply sim_equiv_bind; [apply sim_equiv_random | intros u].
    apply sim_equiv_bind; [apply sim_equiv_gauss | intros x].
    apply sim_equiv_bind; [apply sim_equiv_gauss | intros e].
    apply IH.
Qed.

Lemma agent_body_equiv platform hr v agent :
  sim_equiv G1 G2 R (@agent_body G1 platform hr v agent)
            (@agent_body G2 platform hr v agent).
Proof.
  unfold agent_body.
  apply sim_equiv_bind; [apply sim_equiv_lift | intros p_base].
  apply sim_equiv_bind; [apply sim_equiv_random | intros u_shown].
  apply sim_equiv_bind; [apply sim_equiv_random | intros u_trust].
  apply sim_equiv_bind.
  - destruct (Qltb u_trust (trust_in_algorithm agent));
      (apply sim_equiv_bind; [apply sim_equiv_random | intros u3]);
      apply sim_equiv_ret.
  - intros chosen.
    apply sim_equiv_bind; [apply sim_equiv_lift | intros u_list].
    apply sim_equiv_ret.
Qed.

Lemma iteration_equiv log2 st prev :
  sim_equiv G1 G2 R (@iteration G1 log2 st prev) (@iteration G2 log2 st prev).
Proof.
  unfold iteration.
  apply sim_equiv_bind.
  { apply sim_equiv_for. intros acc x. apply agent_body_equiv. }
  intros v.
  apply sim_equiv_bind; [apply sim_equiv_lift | intros cap].
  apply sim_equiv_bind; [apply sim_equiv_lift | intros fh].
  apply sim_equiv_bind; [apply sim_equiv_lift | intros platform'].
  apply sim_equiv_bind; [apply sim_equiv_lift | intros p_A].
  apply sim_equiv_bind; [apply sim_equiv_lift | intros p_B].
  apply sim_equiv_bind; [apply sim_equiv_lift | intros snapshot].
  apply sim_equiv_ret.
Qed.

Lemma iteration_loop_equiv log2 n st prev history :
  sim_equiv G1 G2 R (@iteration_loop G1 log2 n st prev history)
            (@iteration_loop G2 log2 n st prev history).
Proof.
  revert st prev history. induction n as [|n IH]; intros st prev history; simpl.
  - apply sim_equiv_ret.
  - apply sim_equiv_bind; [apply iteration_equiv | intros tr]. apply IH.
Qed.

Lemma initial_state_equiv params :
  sim_equiv G1 G2 R (@initial_state G1 params) (@initial_state G2 params).
Proof.
  unfold initial_state.
  apply sim_equiv_bind; [apply create_agents_equiv | intros agents].
  apply sim_equiv_ret.
Qed.

Lemma run_trace_equiv log2 params :
  R (@rng_seed G1 (seed params)) (@rng_seed G2 (seed params)) ->
  @run_trace G1 log2 params = @run_trace G2 log2 params.
Proof.
  intros Hseed. unfold run_trace.
  assert (He : sim_equiv G1 G2 R
    (sim_bind (@initial_state G1 params) (fun st0 =>
       sim_bind (@iteration_loop G1 log2 (Z.to_nat (iterations params)) st0 None [])
         (fun history => sim_ret (st0, history))))
    (sim_bind (@initial_state G2 params) (fun st0 =>
       sim_bind (@iteration_loop G2 log2 (Z.to_nat (iterations params)) st0 None [])
         (fun history => sim_ret (st0, history))))).
  { apply sim_equiv_bind; [apply initial_state_equiv | intros st0].
    apply sim_equiv_bind; [apply iteration_loop_equiv | intros history].
    apply sim_equiv_ret. }
  specialize (He _ _ Hseed).
  destruct (sim_bind (@initial_state G1 params) _ _) as [[r1 s1]|],
           (sim_bind (@initial_state G2 params) _ _) as [[r2 s2]|]; try done.
  destruct He as [-> _]. done.
Qed.

(** C1: two runs with identical parameters, on random sources that deliver
    the same draws from the same seed, end the same way: both raise, or
    both return the same result, with the same list of snapshots, field for
    field, and the same echoed parameters, which are the input parameters. *)
Theorem run_simulation_deterministic log2 (params1 params2 : SimParams) :
  params1 = params2 ->
  R (@rng_seed G1 (seed params1)) (@rng_seed G2 (seed params2)) ->
  @run_simulation G1 log2 params1 = @run_simulation G2 log2 params2 /\
  forall r, @run_simulation G1 log2 params1 = Some r ->
            @run_simulation G2 log2 params2 = Some r /\
            result_params r = params1.
Proof.
  intros <- Hseed.
  assert (Heq : @run_simulation G1 log2 params1 = @run_simulation G2 log2 params1).
  { unfold run_simulation. by rewrite (run_trace_equiv log2 params1 Hseed). }
  split; [done|]. intros r Hr. split; [by rewrite <- Heq|].
  unfold run_simulation in Hr.
  destruct (@run_trace G1 log2 params1) as [run|]; [|done].
  simpl in Hr. injection Hr as <-. simpl. by destruct params1.
Qed.

End Determinism.

(** ** The claims that fail as stated *)

(** C5 (as stated, refuted): in the first snapshot of the example run the
    stored rates are the doubles 0.333333 and 0.666667 and the stored
    disparity is the double -0.333333; it is neither the exact nor the
    double difference of the two stored rates, which is about -0.333334. *)
Lemma stored_disparity_not_stored_difference :
  match @run_simulation example_prng log2_approx example_params with
  | Some r =>
      match result_iterations r with
      | snap :: _ =>
          exposure_high_A snap == b64_round (333333 # 1000000) /\
          exposure_high_B snap == b64_round (666667 # 1000000) /\
          disparity_exposure snap == b64_round (- (333333 # 1000000)) /\
          ~ disparity_exposure snap
            == exposure_high_A snap - exposure_high_B snap /\
          ~ disparity_exposure snap
            == b64_round (exposure_high_A snap - exposure_high_B snap)
      | [] => False
      end
  | None => False
  end.
Proof. vm_compute. repeat split; done. Qed.

(** C6 (as stated, refuted): in the second pass of the 128-agent run the
    unrounded disparity is 1/128 = 0.0078125 and the previous recorded
    disparity is 2/128 = 0.015625, both doubles; the recorded
    [reinforcement_index] is the double -0.007812, which is neither the
    unrounded change -0.0078125 nor the difference, exact or double, of the
    two recorded disparities, which is about -0.007813. *)
Lemma reinforcement_index_not_exact_change :
  match @run_trace tie_prng log2_approx tie_params with
  | Some (_, [tr1; tr2]) =>
      let raw := raw_disparity_exposure (groups (tr_vars tr2))
                   (shown_levels (tr_vars tr2)) in
      let recorded1 := disparity_exposure (tr_snapshot tr1) in
      let recorded2 := disparity_exposure (tr_snapshot tr2) in
      let index2 := reinforcement_index (tr_snapshot tr2) in
      raw == 1 # 128 /\
      recorded1 == 15625 # 1000000 /\
      recorded2 == b64_round (7812 # 1000000) /\
      index2 == b64_round (- (7812 # 1000000)) /\
      ~ index2 == raw - recorded1 /\
      ~ index2 == recorded2 - recorded1 /\
      ~ index2 == b64_round (recorded2 - recorded1)
  | _ => False
  end.
Proof. vm_compute. repeat split; done. Qed.

(** ** The theorems at the concrete runs *)

Lemma example_run_returned :
  returned (@run_trace example_prng log2_approx example_params) = true.
Proof. vm_compute. reflexivity. Qed.

Lemma example_cap :
  capacity_cap (initial_hr example_params)
    (Z.to_nat (n_agents example_params)) = Some 1%Z.
Proof. vm_compute. reflexivity. Qed.

Lemma tie_run_returned :
  returned (@run_trace tie_prng log2_approx tie_params) = true.
Proof. vm_compute. reflexivity. Qed.

Lemma clamp_in_range_witness :
  0 <= 3 /\ 0 <= clamp 5 0 3 /\ clamp 5 0 3 <= 3.
Proof.
  assert (H : 0 <= 3) by (by vm_compute).
  destruct (clamp_in_range 5 0 3) as (Hlo & Hhi & _).
  split; [exact H|]. split; [exact Hlo | exact (Hhi H)].
Defined.

Lemma shannon_entropy_total_witness :
  (1 <= 2) /\
  (Qle_bool (1 # 2) 0 || Qgeb (1 # 2) 1 = false) /\
  shannon_entropy log2_approx 2 = Some 0 /\
  shannon_entropy log2_approx (1 # 2)
    = Some (- ((1 # 2) * log2_approx (1 # 2)
               + (1 - (1 # 2)) * log2_approx (1 - (1 # 2)))).
Proof.
  assert (Hout : 1 <= 2) by (by vm_compute).
  assert (Hin : Qle_bool (1 # 2) 0 || Qgeb (1 # 2) 1 = false) by reflexivity.
  destruct (shannon_entropy_total log2_approx 2) as (Hzero & _ & _).
  destruct (shannon_entropy_total log2_approx (1 # 2)) as (_ & Hmid & _).
  split; [exact Hout|]. split; [exact Hin|].
  split; [exact (Hzero (or_intror Hout))|].
  exact (proj2 (proj2 (proj2 (proj2 (Hmid Hin))))).
Defined.

Lemma scripted_indexed_next (s1 : list Q) (s2 : list Q * nat) :
  same_position s1 s2 ->
  (scripted_next s1).1 = (indexed_next s2).1 /\
  same_position (scripted_next s1).2 (indexed_next s2).2.
Proof.
  destruct s2 as [l n]. unfold same_position. simpl. intros ->.
  revert n. induction l as [|x l IH]; intros n.
  - rewrite !drop_nil. by destruct n.
  - destruct n as [|n]; [done|]. simpl. apply IH.
Qed.

Lemma run_simulation_deterministic_witness :
  @run_simulation example_prng log2_approx example_params
    = @run_simulation (indexed_prng example_script) log2_approx example_params /\
  forall r,
    @run_simulation example_prng log2_approx example_params = Some r ->
    @run_simulation (indexed_prng example_script) log2_approx example_params
      = Some r /\
    result_params r = example_params.
Proof.
  apply (run_simulation_deterministic example_prng
           (indexed_prng example_script) same_position).
  - exact scripted_indexed_next.
  - intros mu sigma s1 s2 HR.
    destruct (scripted_indexed_next s1 s2 HR) as [Hv Hs]. simpl.
    destruct (scripted_next s1) as [z1 s1']. simpl in Hv, Hs |- *.
    rewrite Hv. split; [reflexivity | exact Hs].
  - reflexivity.
  - reflexivity.
Defined.

Lemma p_high_and_preferences_in_unit_interval_witness :
  match @run_trace example_prng log2_approx example_params with
  | Some (st0, history) =>
      state_in_range st0 /\
      Forall (fun tr => state_in_range (tr_after tr)) history
  | None => False
  end.
Proof.
  pose proof example_run_returned as Hret.
  destruct (@run_trace example_prng log2_approx example_params)
    as [[st0 history]|] eqn:Hrun; [|discriminate Hret].
  exact (@p_high_and_preferences_in_unit_interval example_prng log2_approx
           example_params st0 history Hrun).
Defined.

Lemma accepted_subset_of_eligible_within_cap_witness :
  match @run_trace example_prng log2_approx example_params with
  | Some (st0, history) =>
      Forall (fun tr =>
        (Z.of_nat (count_true (tr_accepted_flags tr)) <= 1)%Z) history
  | None => False
  end.
Proof.
  pose proof example_run_returned as Hret.
  destruct (@run_trace example_prng log2_approx example_params)
    as [[st0 history]|] eqn:Hrun; [|discriminate Hret].
  eapply Forall_impl.
  - exact (@accepted_subset_of_eligible_within_cap example_prng log2_approx
             example_params st0 history Hrun).
  - intros tr (_ & _ & cap & Hcap & _ & Hle & _).
    rewrite example_cap in Hcap. injection Hcap as <-. exact Hle.
Defined.

Lemma accepted_are_top_ranked_witness :
  match @run_trace example_prng log2_approx example_params with
  | Some (st0, history) =>
      Forall (fun tr =>
        exists ranked,
          ranked ≡ₚ filter (fun r => meets_threshold r)
                      (applicant_records (tr_vars tr)) /\
          StronglySorted outranks ranked /\
          forall i, tr_accepted_flags tr !! i = Some true <->
                    exists r, r ∈ take 1 ranked /\ idx r = i) history
  | None => False
  end.
Proof.
  pose proof example_run_returned as Hret.
  destruct (@run_trace example_prng log2_approx example_params)
    as [[st0 history]|] eqn:Hrun; [|discriminate Hret].
  eapply Forall_impl.
  - exact (@accepted_are_top_ranked example_prng log2_approx example_params
             st0 history Hrun).
  - intros tr (_ & _ & (ranked & Hperm & Hs) & cap & Hcap & H).
    rewrite example_cap in Hcap. injection Hcap as <-.
    exists ranked. split; [exact Hperm|]. split; [exact Hs|].
    exact (H ranked Hperm Hs).
Defined.

Lemma disparity_exposure_rounded_difference_witness :
  match @run_trace example_prng log2_approx example_params with
  | Some (st0, history) =>
      Forall (fun tr =>
        Qabs (disparity_exposure (tr_snapshot tr)
              - (exposure_high_A (tr_snapshot tr)
                 - exposure_high_B (tr_snapshot tr)))
          <= (1 # 1000000) + 2 ^ (-51)) history
  | None => False
  end.
Proof.
  pose proof example_run_returned as Hret.
  destruct (@run_trace example_prng log2_approx example_params)
    as [[st0 history]|] eqn:Hrun; [|discriminate Hret].
  eapply Forall_impl.
  - exact (@disparity_exposure_rounded_difference example_prng log2_approx
             example_params st0 history Hrun).
  - intros tr (_ & _ & _ & H). exact H.
Defined.

Lemma reinforcement_index_rounded_change_witness :
  match @run_trace tie_prng log2_approx tie_params with
  | Some (st0, history) =>
      (forall tr, history !! 0%nat = Some tr ->
         reinforcement_index (tr_snapshot tr) == 0) /\
      (forall t tr_prev tr,
         history !! t = Some tr_prev -> history !! S t = Some tr ->
         Qabs (reinforcement_index (tr_snapshot tr)
               - (disparity_exposure (tr_snapshot tr)
                  - disparity_exposure (tr_snapshot tr_prev)))
           <= (1 # 1000000) + 2 ^ (-51))
  | None => False
  end.
Proof.
  pose proof tie_run_returned as Hret.
  destruct (@run_trace tie_prng log2_approx tie_params)
    as [[st0 history]|] eqn:Hrun; [|discriminate Hret].
  destruct (@reinforcement_index_rounded_change tie_prng log2_approx
              tie_params st0 history Hrun) as [Hfirst Hlater].
  split; [exact Hfirst|].
  intros t tr_prev tr Ht Ht'.
  exact (proj2 (proj2 (Hlater t tr_prev tr Ht Ht'))).
Defined.

Lemma run_simulation_history_length_witness :
  (0 <= params_hiring_capacity example_params <= 1 /\
   (n_agents example_params <= 2 ^ 1023)%Z) /\
  exists r,
    @run_simulation example_prng log2_approx example_params = Some r /\
    Z.of_nat (length (result_iterations r)) = 3%Z.
Proof.
  assert (Hrange : 0 <= params_hiring_capacity example_params <= 1 /\
                   (n_agents example_params <= 2 ^ 1023)%Z).
  { split; [split|]; by vm_compute. }
  split; [exact Hrange|].
  destruct (@run_simulation_history_length example_prng log2_approx
              example_params (or_introl Hrange))
    as (st0 & history & r & _ & Hr & _ & _ & Hlen & _).
  exists r. split; [exact Hr | exact Hlen].
Defined.

Lemma only_p_high_and_preferences_change_witness :
  match @run_trace example_prng log2_approx example_params with
  | Some (st0, history) =>
      Forall (fun tr => frame_inv st0 (tr_after tr)) history
  | None => False
  end.
Proof.
  pose proof example_run_returned as Hret.
  destruct (@run_trace example_prng log2_approx example_params)
    as [[st0 history]|] eqn:Hrun; [|discriminate Hret].
  destruct (@only_p_high_and_preferences_change example_prng log2_approx
              example_params st0 history Hrun) as (_ & _ & _ & _ & _ & Hall).
  eapply Forall_impl; [exact Hall|].
  intros tr (H & _). exact H.
Defined.

(** * Further properties

    Properties of the same code beyond the statements above, grouped by the
    source file they are read from. *)

(** ** utils.py *)

Lemma clamp_inside (x lo hi : Q) : lo <= x <= hi -> clamp x lo hi == x.
Proof.
  intros [H1 H2]. unfold clamp.
  destruct (py_max_cases lo (py_min hi x)) as [[H ->]|[H ->]];
    destruct (py_min_cases hi x) as [[H' E]|[H' E]]; rewrite ?E in *; lra.
Qed.

Lemma clamp_below (x lo hi : Q) : lo <= hi -> x <= lo -> clamp x lo hi == lo.
Proof.
  intros H1 H2. unfold clamp.
  destruct (py_max_cases lo (py_min hi x)) as [[H ->]|[H ->]];
    destruct (py_min_cases hi x) as [[H' E]|[H' E]]; rewrite ?E in *; lra.
Qed.

Lemma clamp_above (x lo hi : Q) : lo <= hi -> hi <= x -> clamp x lo hi == hi.
Proof.
  intros H1 H2. unfold clamp.
  destruct (py_max_cases lo (py_min hi x)) as [[H ->]|[H ->]];
    destruct (py_min_cases hi x) as [[H' E]|[H' E]]; rewrite ?E in *; lra.
Qed.

Lemma clamp_monotone (x y lo hi : Q) : x <= y -> clamp x lo hi <= clamp y lo hi.
Proof.
  intros Hxy. unfold clamp.
  destruct (py_max_cases lo (py_min hi x)) as [[H3 ->]|[H3 ->]];
    destruct (py_max_cases lo (py_min hi y)) as [[H4 ->]|[H4 ->]];
    destruct (py_min_cases hi x) as [[H1 E1]|[H1 E1]];
    destruct (py_min_cases hi y) as [[H2 E2]|[H2 E2]];
    rewrite ?E1, ?E2 in *; lra.
Qed.

Lemma clamp_proper (x y lo hi : Q) : x == y -> clamp x lo hi == clamp y lo hi.
Proof.
  intros Hxy. unfold clamp.
  destruct (py_max_cases lo (py_min hi x)) as [[H3 ->]|[H3 ->]];
    destruct (py_max_cases lo (py_min hi y)) as [[H4 ->]|[H4 ->]];
    destruct (py_min_cases hi x) as [[H1 E1]|[H1 E1]];
    destruct (py_min_cases hi y) as [[H2 E2]|[H2 E2]];
    rewrite ?E1, ?E2 in *; lra.
Qed.

Lemma clamp01_id (x : Q) : 0 <= x <= 1 -> clamp01 x == x.
Proof.
  intros [H1 H2]. unfold clamp01, clamp.
  destruct (py_max_cases 0 (py_min 1 x)) as [[H ->]|[H ->]];
    destruct (py_min_cases 1 x) as [[H' E]|[H' E]]; rewrite ?E in *; lra.
Qed.

(** X1: with ordered bounds [lo <= hi], [clamp] is the projection onto
    [[lo, hi]]: it returns a value that is already inside, returns [lo] for
    a value at or below [lo] and [hi] for a value at or above [hi], applying
    it twice is applying it once, and it is monotone in the value. *)
Theorem clamp_saturates (x y lo hi : Q) :
  lo <= hi ->
  (lo <= x <= hi -> clamp x lo hi == x) /\
  (x <= lo -> clamp x lo hi == lo) /\
  (hi <= x -> clamp x lo hi == hi) /\
  clamp (clamp x lo hi) lo hi == clamp x lo hi /\
  (x <= y -> clamp x lo hi <= clamp y lo hi).
Proof.
  intros Hb. split; [apply clamp_inside|].
  split; [by apply clamp_below|]. split; [by apply clamp_above|].
  split; [|apply clamp_monotone].
  apply clamp_inside. split; [apply clamp_lower | by apply clamp_upper].
Qed.

Lemma clamp_saturates_witness :
  clamp (3 # 2) 0 1 == 1 /\ clamp (- (1 # 5)) 0 1 == 0.
Proof.
  destruct (clamp_saturates (3 # 2) (- (1 # 5)) 0 1 ltac:(lra))
    as (_ & _ & Hhi & _).
  destruct (clamp_saturates (- (1 # 5)) 0 0 1 ltac:(lra))
    as (_ & Hlo & _).
  split; [apply Hhi | apply Hlo]; lra.
Defined.

Lemma safe_div_zero n d def : d == 0 -> safe_div n d def = def.
Proof. intros H. unfold safe_div. by rewrite (proj2 (Qeq_bool_iff d 0) H). Qed.

Lemma safe_div_nonzero n d def : ~ d == 0 -> safe_div n d def = n / d.
Proof.
  intros H. unfold safe_div. destruct (Qeq_bool d 0) eqn:E; [|done].
  by apply Qeq_bool_iff in E.
Qed.

(** X2: [safe_div] of a part by its whole is a fraction: when
    [0 <= numerator <= denominator] and the default is in [[0, 1]], the
    result is in [[0, 1]], also when the whole is [0] (the default is
    returned, nothing is divided). *)
Theorem safe_div_part_of_whole (numerator denominator default : Q) :
  0 <= numerator <= denominator -> 0 <= default <= 1 ->
  0 <= safe_div numerator denominator default <= 1.
Proof.
  intros Hn Hd. destruct (Qeq_dec denominator 0) as [E|E].
  - by rewrite safe_div_zero.
  - rewrite safe_div_nonzero by done.
    assert (0 < denominator) by lra.
    split; [apply Qle_shift_div_l | apply Qle_shift_div_r]; lra.
Qed.

Lemma safe_div_part_of_whole_witness :
  0 <= safe_div 1 3 0 <= 1 /\ 0 <= safe_div 0 0 (1 # 2) <= 1.
Proof.
  split; apply safe_div_part_of_whole; lra.
Defined.

Lemma log2_approx_nonpositive (x : Q) : 0 < x -> x <= 1 -> log2_approx x <= 0.
Proof.
  intros H0 H1. unfold log2_approx. rewrite Qred_correct.
  assert (Hd : 0 < (x + 1) * (693147 # 1000000)) by nra.
  apply Qle_shift_div_r; [done|]. lra.
Qed.

(** X3: [shannon_entropy] returns a value, and the value is never negative,
    whatever [p] is, as long as the logarithm is non-positive on (0, 1]. *)
Theorem shannon_entropy_nonnegative (log2 : Q -> Q) (p : Q) :
  (forall x, 0 < x -> x <= 1 -> log2 x <= 0) ->
  exists h, shannon_entropy log2 p = Some h /\ 0 <= h.
Proof.
  intros log2_nonpositive.
  destruct (Qlt_le_dec 0 p) as [H0|H0]; [destruct (Qlt_le_dec p 1) as [H1|H1]|].
  - rewrite (shannon_entropy_inside log2 p) by (split; lra).
    eexists. split; [done|].
    pose proof (log2_nonpositive p H0 ltac:(lra)) as Hl.
    pose proof (log2_nonpositive (1 - p) ltac:(lra) ltac:(lra)) as Hl'.
    nra.
  - rewrite (shannon_entropy_outside log2 p) by (right; lra). by exists 0.
  - rewrite (shannon_entropy_outside log2 p) by (left; lra). by exists 0.
Qed.

Lemma shannon_entropy_nonnegative_witness :
  exists h, shannon_entropy log2_approx (1 # 3) = Some h /\ 0 <= h.
Proof.
  apply shannon_entropy_nonnegative. apply log2_approx_nonpositive.
Defined.

(** ** metrics.py *)

(** A rate is a double already. *)
Lemma group_rate_double (total n : Z) :
  b64_round (group_rate total n) == group_rate total n.
Proof. unfold group_rate. apply b64_round_idem. Qed.

Lemma py_round_6_abs (x : Q) (k : Z) :
  (Z.abs k <= 2 ^ 53)%Z ->
  - inject_Z k <= x <= inject_Z k -> - inject_Z k <= py_round x 6 <= inject_Z k.
Proof.
  intros Hk H. unfold py_round. rewrite <- inject_Z_opp.
  apply b64_round_between.
  - apply b64_round_Z. lia.
  - by apply b64_round_Z.
  - rewrite inject_Z_opp. by apply round_decimal_6_abs.
Qed.

(** All thirteen stored fields, in terms of the unrounded quantities. *)
Lemma compute_iteration_metrics_fields (log2 : Q -> Q) groups shown chosen
    accepted p_A p_B prev snap :
  compute_iteration_metrics log2 groups shown chosen accepted p_A p_B prev
    = Some snap ->
  let n_A := count_group "A" groups in
  let n_B := count_group "B" groups in
  let exposure_A := group_rate (sum_where "A" groups shown) n_A in
  let exposure_B := group_rate (sum_where "B" groups shown) n_B in
  let choice_A := group_rate (sum_where "A" groups chosen) n_A in
  let choice_B := group_rate (sum_where "B" groups chosen) n_B in
  let acceptance_A := group_rate (count_accepted "A" groups accepted) n_A in
  let acceptance_B := group_rate (count_accepted "B" groups accepted) n_B in
  exposure_high_A snap = py_round exposure_A 6 /\
  exposure_high_B snap = py_round exposure_B 6 /\
  choice_high_A snap = py_round choice_A 6 /\
  choice_high_B snap = py_round choice_B 6 /\
  acceptance_rate_A snap = py_round acceptance_A 6 /\
  acceptance_rate_B snap = py_round acceptance_B 6 /\
  (exists h, shannon_entropy log2 exposure_A = Some h /\
             diversity_entropy_A snap = py_round h 6) /\
  (exists h, shannon_entropy log2 exposure_B = Some h /\
             diversity_entropy_B snap = py_round h 6) /\
  disparity_exposure snap = py_round (b64_round (exposure_A - exposure_B)) 6 /\
  disparity_accept snap
    = py_round (b64_round (acceptance_A - acceptance_B)) 6 /\
  reinforcement_index snap =
    py_round (match prev with
              | Some p => b64_round (b64_round (exposure_A - exposure_B) - p)
              | None => 0
              end) 6 /\
  snap_p_high_A snap = py_round p_A 6 /\
  snap_p_high_B snap = py_round p_B 6.
Proof.
  unfold compute_iteration_metrics. cbv zeta. intros H.
  apply bind_Some in H as (eA & HeA & H).
  apply bind_Some in H as (eB & HeB & H).
  injection H as <-. cbn [exposure_high_A exposure_high_B choice_high_A
    choice_high_B acceptance_rate_A acceptance_rate_B diversity_entropy_A
    diversity_entropy_B disparity_exposure disparity_accept
    reinforcement_index snap_p_high_A snap_p_high_B].
  repeat split; try done; by eexists.
Qed.

(** The stored rates and entropy of a group without members are [0]. *)
Lemma compute_iteration_metrics_absent (log2 : Q -> Q) groups shown chosen
    accepted p_A p_B prev snap :
  compute_iteration_metrics log2 groups shown chosen accepted p_A p_B prev
    = Some snap ->
  (count_group "A" groups = 0%Z ->
     exposure_high_A snap == 0 /\ choice_high_A snap == 0 /\
     acceptance_rate_A snap == 0 /\ diversity_entropy_A snap == 0) /\
  (count_group "B" groups = 0%Z ->
     exposure_high_B snap == 0 /\ choice_high_B snap == 0 /\
     acceptance_rate_B snap == 0 /\ diversity_entropy_B snap == 0).
Proof.
  intros Hm.
  apply compute_iteration_metrics_fields in Hm
    as (-> & -> & -> & -> & -> & -> & (hA & HhA & ->) & (hB & HhB & ->) & _).
  assert (E : forall t, py_round (group_rate t 0) 6 == 0).
  { intros t. rewrite (py_round_proper _ 0 6 (group_rate_empty t)).
    apply py_round_6_zero. }
  split; intros Hn; rewrite Hn in *.
  - rewrite shannon_entropy_outside in HhA
      by (left; rewrite group_rate_empty; lra).
    injection HhA as <-. repeat split; try apply E; apply py_round_6_zero.
  - rewrite shannon_entropy_outside in HhB
      by (left; rewrite group_rate_empty; lra).
    injection HhB as <-. repeat split; try apply E; apply py_round_6_zero.
Qed.

(** X4: [compute_iteration_metrics] on a population in which a group has
    no member: that group's exposure, choice and acceptance rates and its
    entropy are stored as [0] (no division takes place); and when it is
    group B that is absent, the two stored disparities are group A's stored
    exposure and acceptance rates. *)
Theorem absent_group_rates_zero (log2 : Q -> Q) groups shown chosen accepted
    p_A p_B prev snap :
  compute_iteration_metrics log2 groups shown chosen accepted p_A p_B prev
    = Some snap ->
  (count_group "A" groups = 0%Z ->
     exposure_high_A snap == 0 /\ choice_high_A snap == 0 /\
     acceptance_rate_A snap == 0 /\ diversity_entropy_A snap == 0) /\
  (count_group "B" groups = 0%Z ->
     exposure_high_B snap == 0 /\ choice_high_B snap == 0 /\
     acceptance_rate_B snap == 0 /\ diversity_entropy_B snap == 0 /\
     disparity_exposure snap == exposure_high_A snap /\
     disparity_accept snap == acceptance_rate_A snap).
Proof.
  intros Hm.
  destruct (compute_iteration_metrics_absent _ _ _ _ _ _ _ _ _ Hm) as [HA HB].
  split; [exact HA|]. intros Hn.
  destruct (HB Hn) as (H1 & H2 & H3 & H4).
  repeat (split; [done|]).
  apply compute_iteration_metrics_fields in Hm
    as (-> & _ & _ & _ & -> & _ & _ & _ & -> & -> & _).
  rewrite Hn.
  split; apply py_round_proper;
    (etransitivity; [|apply group_rate_double]);
    apply b64_round_proper; rewrite group_rate_empty; ring.
Qed.

Lemma example_metrics_returned : returned example_metrics = true.
Proof. reflexivity. Qed.

Lemma absent_group_rates_zero_witness :
  match example_metrics with
  | Some snap =>
      exposure_high_B snap == 0 /\
      disparity_exposure snap == exposure_high_A snap
  | None => False
  end.
Proof.
  pose proof example_metrics_returned as Hret.
  destruct example_metrics as [snap|] eqn:Hm; [|discriminate Hret].
  destruct (absent_group_rates_zero log2_approx ["A"; "A"] [1; 0]%Z [1; 1]%Z
              [true; false] (1 # 2) (1 # 2) None snap Hm) as [_ HB].
  destruct (HB eq_refl) as (H1 & _ & _ & _ & H5 & _).
  split; [exact H1 | exact H5].
Defined.

(** The stored fields are in range when the levels are [0] or [1]. *)
Lemma compute_iteration_metrics_range (log2 : Q -> Q) groups shown chosen
    accepted p_A p_B prev snap :
  Forall binary shown -> Forall binary chosen ->
  0 <= p_A <= 1 -> 0 <= p_B <= 1 ->
  (forall d, prev = Some d -> -1 <= d <= 1) ->
  compute_iteration_metrics log2 groups shown chosen accepted p_A p_B prev
    = Some snap ->
  snapshot_in_range snap.
Proof.
  intros Hs Hc HpA HpB Hprev Hm. unfold snapshot_in_range.
  apply compute_iteration_metrics_fields in Hm
    as (-> & -> & -> & -> & -> & -> & _ & _ & -> & -> & -> & -> & ->).
  pose proof (group_rate_unit _ _ (sum_where_bounds "A" groups shown Hs)) as EA.
  pose proof (group_rate_unit _ _ (sum_where_bounds "B" groups shown Hs)) as EB.
  pose proof (group_rate_unit _ _ (sum_where_bounds "A" groups chosen Hc)) as CA.
  pose proof (group_rate_unit _ _ (sum_where_bounds "B" groups chosen Hc)) as CB.
  pose proof (group_rate_unit _ _ (count_accepted_bounds "A" groups accepted)) as AA.
  pose proof (group_rate_unit _ _ (count_accepted_bounds "B" groups accepted)) as AB.
  pose proof (b64_round_signed_unit
                (group_rate (sum_where "A" groups shown) (count_group "A" groups)
                 - group_rate (sum_where "B" groups shown)
                     (count_group "B" groups)) ltac:(lra)) as DE.
  pose proof (b64_round_signed_unit
                (group_rate (count_accepted "A" groups accepted)
                   (count_group "A" groups)
                 - group_rate (count_accepted "B" groups accepted)
                     (count_group "B" groups)) ltac:(lra)) as DA.
  repeat split; try (by apply py_round_6_unit);
    try (by apply py_round_6_signed_unit).
  - apply (py_round_6_abs _ 2); [lia|]. change (inject_Z 2) with 2.
    destruct prev as [d|]; [|lra]. specialize (Hprev d eq_refl).
    apply (b64_round_between _ (-2) 2);
      [by apply (b64_round_Z (-2)) | by apply (b64_round_Z 2) | lra].
  - apply (py_round_6_abs _ 2); [lia|]. change (inject_Z 2) with 2.
    destruct prev as [d|]; [|lra]. specialize (Hprev d eq_refl).
    apply (b64_round_between _ (-2) 2);
      [by apply (b64_round_Z (-2)) | by apply (b64_round_Z 2) | lra].
Qed.

(** ** simulation.py: the capacity cap *)

Section HiringMore.

Variable hr : HRDepartment.
Variable cap : Z.
Variable agents : list Agent.
Variable records : list ApplicantRecord.
Hypothesis Hrec : Forall2 (record_of hr) agents records.
Hypothesis Hidx : idx <$> records = seq 0 (length agents).

Let Hlen : length records = length agents.
Proof. symmetry. by eapply Forall2_length. Qed.

Let Hidx' : idx <$> records = seq 0 (length records).
Proof. by rewrite Hlen. Qed.

Lemma records_NoDup : NoDup records.
Proof. eapply NoDup_fmap_1. apply (records_NoDup_idx _ Hidx'). Qed.

Lemma ranked_eligible_NoDup : NoDup (ranked_eligible records).
Proof.
  rewrite (ranked_eligible_perm records). apply NoDup_filter, records_NoDup.
Qed.

Lemma accepted_count_exact :
  count_true (flags_of cap records) =
  Nat.min (Z.to_nat cap) (length (filter (fun a => eligibleb hr a) agents)).
Proof.
  unfold flags_of. rewrite count_true_fmap.
  rewrite <- (filter_record_of hr agents records Hrec).
  rewrite <- (ranked_eligible_perm records).
  rewrite <- length_take.
  apply Permutation_length, NoDup_Permutation.
  - apply NoDup_filter, records_NoDup.
  - eapply sublist_NoDup; [apply ranked_eligible_NoDup | apply sublist_take].
  - intros r. rewrite list_elem_of_filter. split.
    + intros [Hin Hr]. apply Is_true_true, bool_decide_eq_true in Hin.
      apply accepted_set_spec in Hin as (r' & Hr' & Heq).
      assert (r' = r) as <-; [|done].
      apply (records_idx_inj records Hidx'); [|done..].
      apply elem_of_take in Hr' as (j & Hj & _).
      by apply list_elem_of_lookup_2, (ranked_eligible_elem records) in Hj as [? _].
    + intros Hr. split.
      * apply Is_true_true, bool_decide_eq_true, accepted_set_spec. by exists r.
      * apply elem_of_take in Hr as (j & Hj & _).
        by apply list_elem_of_lookup_2, (ranked_eligible_elem records) in Hj as [? _].
Qed.

(** A member of the ranking that outranks a member of its first [k] entries
    is among the first [k] entries itself. *)
Lemma take_ranked_upward (k : nat) (r r' : ApplicantRecord) :
  r ∈ take k (ranked_eligible records) -> r' ∈ ranked_eligible records ->
  outranks r' r -> r' ∈ take k (ranked_eligible records).
Proof.
  intros Hr Hr' Hout.
  rewrite <- (take_drop k (ranked_eligible records)) in Hr'.
  apply elem_of_app in Hr' as [Hr'|Hr']; [done|]. exfalso.
  pose proof (ranked_eligible_sorted records Hidx'
                (record_of_scores hr agents records Hrec)) as Hs.
  rewrite <- (take_drop k (ranked_eligible records)) in Hs.
  apply (outranks_asymmetric r r'); [|done].
  by eapply StronglySorted_app_1_elem_of.
Qed.

Lemma accepted_upward_closed (i j : nat) (a b : Agent) :
  flags_of cap records !! i = Some true ->
  agents !! i = Some a -> agents !! j = Some b ->
  eligibleb hr b = true ->
  float_lt (agent_score hr a) (agent_score hr b) \/
    (float_eq (agent_score hr b) (agent_score hr a) /\ (j < i)%nat) ->
  flags_of cap records !! j = Some true.
Proof.
  intros Hi Ha Hb Hel Hrank.
  apply (flags_of_lookup hr cap agents records Hrec Hidx) in Hi
    as (r & Hr & Hri).
  apply (flags_of_lookup hr cap agents records Hrec Hidx).
  destruct (Forall2_lookup_l _ _ _ _ _ Hrec Hb) as (r' & Hr' & _ & Hs' & Hm').
  pose proof (consecutive_idx_lookup _ _ _ Hidx' Hr') as Hj.
  exists r'. split; [|done].
  apply (take_ranked_upward _ r r'); [done| |].
  - apply (ranked_eligible_elem records). split.
    + by eapply list_elem_of_lookup_2.
    + by rewrite Hm'.
  - assert (Hra : final_score r = agent_score hr a).
    { apply elem_of_take in Hr as (p & Hp & _).
      apply list_elem_of_lookup_2, (ranked_eligible_elem records) in Hp as [Hp _].
      apply list_elem_of_lookup in Hp as [q Hq].
      pose proof (consecutive_idx_lookup _ _ _ Hidx' Hq) as Hqi.
      assert (q = i) as -> by congruence.
      destruct (Forall2_lookup_r _ _ _ _ _ Hrec Hq) as (a' & Ha' & _ & Hs & _).
      congruence. }
    unfold outranks. rewrite Hra, Hs', Hj, Hri. done.
Qed.

(** With [hiring_capacity >= 1] and a population whose size is a double,
    the cap is at least the population. *)
Lemma capacity_cap_full (N : nat) :
  1 <= hiring_capacity hr -> (Z.of_nat N <= 2 ^ 53)%Z ->
  capacity_cap hr N = Some cap -> (Z.of_nat N <= cap)%Z.
Proof.
  intros Hc HN. unfold capacity_cap, capacity_product, py_float.
  assert (Hpow : (2 ^ 53 <= 2 ^ 1023)%Z) by (apply Z.pow_le_mono_r; lia).
  assert (Habs : (Z.abs (Z.of_nat N) <= 2 ^ 53)%Z) by lia.
  rewrite float_of_int_finite by lia.
  pose proof (b64_round_Z (Z.of_nat N) Habs) as En.
  set (n := b64_round (inject_Z (Z.of_nat N))) in *.
  destruct (b64 (hiring_capacity hr)) as [h|sgn|] eqn:Eh.
  - assert (Hh : 1 <= h).
    { unfold b64 in Eh. destruct (Qle_bool _ _); [done|].
      injection Eh as <-.
      pose proof (b64_round_mono 1 _ Hc) as H.
      by rewrite (b64_round_Z 1) in H. }
    cbn [float_mul]. unfold b64.
    destruct (Qle_bool _ _); [done|].
    change (Some (Z.max 1 (Qfloor (b64_round (h * n))))
            = Some cap -> (Z.of_nat N <= cap)%Z).
    intros Heq. apply (inj Some) in Heq. rewrite <- Heq. clear Heq.
    assert (H0 : 0 <= inject_Z (Z.of_nat N)).
    { change 0 with (inject_Z 0). rewrite <- Zle_Qle. lia. }
    assert (Hle : n <= h * n) by (rewrite En; nra).
    apply b64_round_mono in Hle.
    assert (En' : b64_round n == inject_Z (Z.of_nat N)).
    { rewrite (b64_round_proper _ _ En). by apply b64_round_Z. }
    rewrite En' in Hle.
    apply Qfloor_resp_le in Hle. rewrite Qfloor_Z in Hle. lia.
  - cbn [float_mul]. by destruct (Qeq_bool n 0).
  - done.
Qed.

Lemma accepted_iff_eligible_full_capacity (i : nat) :
  1 <= hiring_capacity hr -> (Z.of_nat (length agents) <= 2 ^ 53)%Z ->
  capacity_cap hr (length agents) = Some cap ->
  flags_of cap records !! i = Some true <->
  exists a, agents !! i = Some a /\ eligibleb hr a = true.
Proof.
  intros Hc HN Hcap. split.
  - by apply accepted_is_eligible.
  - intros (a & Ha & Hel).
    apply (all_eligible_accepted hr cap agents records Hrec Hidx i a); [|done..].
    pose proof (capacity_cap_full (length agents) Hc HN Hcap).
    pose proof (length_filter (fun a => eligibleb hr a) agents). lia.
Qed.

End HiringMore.

(** ** simulation.py: the per-agent loop *)

Lemma group_values_snoc {A : Type} (g g' : string) (groups : list string)
    (vals : list A) (x : A) :
  length groups = length vals ->
  group_values g (groups ++ [g']) (vals ++ [x]) =
  group_values g groups vals ++ (if String.eqb g' g then [x] else []).
Proof.
  intros Hlen. unfold group_values.
  rewrite zip_with_app by done. rewrite filter_app, fmap_app. f_equal.
  change (zip [g'] [x]) with [(g', x)]. rewrite filter_cons. cbn [fst].
  destruct (String.eqb g' g).
  - by rewrite decide_True.
  - by rewrite decide_False by (cbv; tauto).
Qed.


Lemma group_values_binary (g : string) groups (vals : list Z) :
  Forall binary vals -> Forall binary (group_values g groups vals).
Proof.
  intros Hv. unfold group_values. apply Forall_forall. intros x Hx.
  apply list_elem_of_fmap in Hx as ([g' x'] & -> & Hx).
  apply list_elem_of_filter in Hx as [_ Hx].
  apply elem_of_zip_r in Hx. rewrite Forall_forall in Hv. by apply Hv.
Qed.

Section AgentLoopMore.

Context `{G : PRNG}.
Variables (platform : Platform) (hr : HRDepartment).

(** The three draws of one agent, in the order the code makes them, and what
    they decide. *)
Lemma agent_body_draws v agent s v' s' :
  agent_body platform hr v agent s = Some (v', s') ->
  exists p_base,
    p_high platform !! group agent = Some p_base /\
    let d1 := rng_random s in
    let d2 := rng_random d1.2 in
    let d3 := rng_random d2.2 in
    let shown := shown_of platform p_base d1.1 in
    s' = d3.2 /\
    groups v' = groups v ++ [group agent] /\
    shown_levels v' = shown_levels v ++ [shown] /\
    chosen_levels v' = chosen_levels v ++ [chosen_of agent shown d2.1 d3.1].
Proof.
  unfold agent_body, sim_bind, sim_lift, draw_random, sim_ret.
  destruct (p_high platform !! group agent) as [p_base|]; [|done].
  destruct (rng_random s) as [u1 s1] eqn:E1.
  destruct (rng_random s1) as [u2 s2] eqn:E2. simpl.
  intros H. exists p_base. split; [done|]. simpl. rewrite E2. simpl.
  unfold chosen_of, shown_of, exposure_probability.
  destruct (Qltb u2 (trust_in_algorithm agent));
    destruct (rng_random s2) as [u3 s3] eqn:E3; simpl in *;
    destruct (user_chose_high v !! group agent); simpl in H; try done;
    injection H as <- <-; done.
Qed.

Lemma agent_body_detail v agent s v' s' :
  agent_loop_detail v ->
  agent_body platform hr v agent s = Some (v', s') ->
  agent_loop_detail v'.
Proof.
  intros (Hlen & Hbin & Hch & Hgr & Hu) Hrun.
  assert (Hc01 : forall (b : bool) (x y : Z), binary x -> binary y ->
                   binary (if b then x else y)) by (by intros []).
  unfold agent_body in Hrun. sim_inv Hrun.
  apply sim_ret_Some in Hrun as [<- _].
  apply sim_lift_Some in Hstep as [Hp _].
  apply sim_lift_Some in Hstep3 as [Hul _].
  assert (Ha2 : binary a2).
  { destruct (Qltb a1 _); sim_inv Hstep2;
      apply sim_ret_Some in Hstep2 as [<- _];
      repeat (destruct (Qltb _ _)); unfold binary; lia. }
  split; [|split; [|split; [|split]]]; simpl.
  - rewrite !length_app. simpl. lia.
  - apply Forall_app. split; [done|]. by constructor.
  - by rewrite fmap_app, Hch.
  - by rewrite fmap_app, Hgr.
  - intros g Hg. rewrite group_values_snoc by done.
    destruct (String.eqb (group agent) g) eqn:E.
    + apply String.eqb_eq in E. subst g.
      rewrite lookup_insert_eq. rewrite (Hu _ Hg) in Hul. by injection Hul as <-.
    + apply String.eqb_neq in E. rewrite lookup_insert_ne by done.
      rewrite app_nil_r. by apply Hu.
Qed.

Lemma agent_loop_detail_init : agent_loop_detail agent_loop_init.
Proof.
  repeat split; simpl; try done. intros g [->| ->]; by simplify_map_eq.
Qed.

Lemma agent_loop_detail_spec agents s v s' :
  sim_for (agent_body platform hr) agents agent_loop_init s = Some (v, s') ->
  agent_loop_detail v.
Proof.
  intros Hrun.
  apply (sim_for_invariant (fun _ v => agent_loop_detail v)
           (agent_body platform hr)
           (fun done x acc s0 acc' s0' => agent_body_detail acc x s0 acc' s0')
           agents [] _ _ _ _ agent_loop_detail_init Hrun).
Qed.



(** X6: the body of the per-agent loop raises exactly when the agent's
    group label is not a key of [platform.p_high] or not a key of
    [user_chose_high]; no draw and no arithmetic makes it raise. *)
Theorem agent_body_raises_only_on_missing_key v agent s :
  agent_body platform hr v agent s = None <->
  p_high platform !! group agent = None \/
  user_chose_high v !! group agent = None.
Proof.
  unfold agent_body, sim_bind, sim_lift, draw_random, sim_ret.
  destruct (p_high platform !! group agent) as [p_base|] eqn:Ep.
  - destruct (rng_random s) as [u1 s1].
    destruct (rng_random s1) as [u2 s2].
    destruct (Qltb u2 (trust_in_algorithm agent));
      destruct (rng_random s2) as [u3 s3];
      destruct (user_chose_high v !! group agent) eqn:Eu;
      (split;
         [intros H; first [discriminate H | by right]
         |intros [H|H]; first [discriminate H | done]]).
  - split; [by left | done].
Qed.

End AgentLoopMore.



(** ** simulation.py: the feedback signals *)

Lemma record_loop_detail (accepted : gset nat) (records : list ApplicantRecord)
    (flags0 : list bool) (hah0 : gmap string (list bool))
    (flags : list bool) (hah : gmap string (list bool)) :
  record_loop accepted records (flags0, hah0) = Some (flags, hah) ->
  forall g h0, hah0 !! g = Some h0 ->
    hah !! g = Some (h0 ++ ((fun r => bool_decide (idx r ∈ accepted))
                              <$> high_choosers g records)).
Proof.
  revert flags0 hah0. induction records as [|r records IH]; intros flags0 hah0.
  - simpl. intros [= -> ->] g h0 ->. by rewrite app_nil_r.
  - simpl. unfold record_body at 1. simpl. unfold high_choosers.
    destruct (chosen_high r =? 1)%Z eqn:E.
    + apply Z.eqb_eq in E.
      destruct (hah0 !! applicant_group r) as [h_list|] eqn:Hh; [|done]. simpl.
      intros Hrun g h0 Hg. rewrite filter_cons.
      destruct (decide (applicant_group r = g)) as [<-|Hne].
      * rewrite decide_True by done. rewrite fmap_cons.
        rewrite (IH _ _ Hrun (applicant_group r) (h_list ++ [bool_decide (idx r ∈ accepted)])).
        -- rewrite Hh in Hg. injection Hg as <-. by rewrite <- app_assoc.
        -- by rewrite lookup_insert_eq.
      * rewrite decide_False by tauto.
        apply (IH _ _ Hrun). by rewrite lookup_insert_ne.
    + apply Z.eqb_neq in E. simpl. intros Hrun g h0 Hg.
      rewrite filter_cons, decide_False by tauto. by apply (IH _ _ Hrun).
Qed.











Lemma platform_feedback_lookup chose hah (platform platform' : Platform) g :
  is_group g ->
  platform_feedback chose hah platform = Some platform' ->
  exists u h p,
    chose !! g = Some u /\ hah !! g = Some h /\
    p_high platform !! g = Some p /\
    p_high platform' !! g = Some (p_high_update platform p u h).
Proof.
  intros Hg Hf.
  apply platform_feedback_spec in Hf
    as (_ & _ & _ & uA & hA & pA & uB & hB & pB & ? & ? & ? & ? & ? & ? & ->).
  destruct Hg as [-> | ->].
  - exists uA, hA, pA. repeat split; try done.
    rewrite lookup_insert_ne by done. by rewrite lookup_insert_eq.
  - exists uB, hB, pB. repeat split; try done.
    by rewrite lookup_insert_eq.
Qed.






(** ** simulation.py: every pass of every run *)

Section RunMore.

Context `{G : PRNG}.
Variable log2 : Q -> Q.

Lemma trace_ok_detail (tr : IterationTrace) :
  trace_ok log2 tr ->
  let v := tr_vars tr in
  agent_loop_detail v /\
  forall g, is_group g ->
    tr_hr_accepted_high tr !! g =
    Some ((fun r => bool_decide
                      (idx r ∈ accepted_set (tr_max_accept tr)
                                 (applicant_records v)))
            <$> high_choosers g (applicant_records v)).
Proof.
  intros ((s & s' & Hloop) & Hcap & Hrl & _). simpl.
  split; [by eapply agent_loop_detail_spec|].
  intros g Hg.
  rewrite (record_loop_detail _ _ _ _ _ _ Hrl g []); [done|].
  destruct Hg as [->| ->]; by simplify_map_eq.
Qed.

Lemma trace_ok_snapshot_range (tr : IterationTrace) :
  trace_ok log2 tr -> state_in_range (tr_after tr) ->
  (forall d, tr_prev_disparity tr = Some d -> -1 <= d <= 1) ->
  snapshot_in_range (tr_snapshot tr).
Proof.
  intros Hok (_ & Hrange & _) Hprev.
  pose proof (trace_ok_hiring log2 tr Hok) as ((_ & _ & Hs & _) & _).
  pose proof (trace_ok_detail tr Hok) as ((_ & Hc & _) & _).
  destruct Hok as (_ & _ & _ & _ & _ & _ & pA & pB & HpA & HpB & Hm).
  eapply compute_iteration_metrics_range;
    [exact Hs | exact Hc | exact (Hrange _ _ HpA) | exact (Hrange _ _ HpB)
    | exact Hprev | exact Hm].
Qed.

Lemma trace_chain_snapshot_range st prev history :
  trace_chain log2 st prev history ->
  (forall d, prev = Some d -> -1 <= d <= 1) ->
  Forall (fun tr => state_in_range (tr_after tr)) history ->
  Forall (fun tr => snapshot_in_range (tr_snapshot tr)) history.
Proof.
  induction 1 as [|tr rest Hok _ IH]; intros Hprev Hall; [constructor|].
  apply Forall_cons in Hall as [Hr Hall].
  pose proof (trace_ok_snapshot_range tr Hok Hr Hprev) as Hsnap.
  constructor; [done|]. apply IH; [|done].
  intros d [= <-]. by destruct Hsnap as (_ & _ & _ & _ & _ & _ & ? & _).
Qed.

(** X8: in every pass of every run the stored rates (exposure, choice and
    acceptance of both groups) and the two stored probabilities are in
    [[0, 1]], the two stored disparities are in [[-1, 1]] and the stored
    reinforcement index is in [[-2, 2]]. *)
Theorem run_snapshots_in_range params st0 history :
  run_trace log2 params = Some (st0, history) ->
  Forall (fun tr => snapshot_in_range (tr_snapshot tr)) history.
Proof.
  intros Hrun.
  pose proof (run_trace_passes log2 _ _ _ Hrun) as Hall.
  apply run_trace_inv in Hrun as (_ & _ & Hchain).
  eapply trace_chain_snapshot_range; [exact Hchain|done|].
  eapply Forall_impl; [exact Hall|]. by intros tr (_ & _ & _ & _ & ?).
Qed.

End RunMore.

Section HiringRuns.

Context `{G : PRNG}.
Variable log2 : Q -> Q.

Lemma run_trace_pass_hiring params st0 history tr :
  run_trace log2 params = Some (st0, history) -> tr ∈ history ->
  let agents := st_agents (tr_before tr) in
  let hr := initial_hr params in
  let records := applicant_records (tr_vars tr) in
  length agents = Z.to_nat (n_agents params) /\
  Forall2 (record_of hr) agents records /\
  idx <$> records = seq 0 (length agents) /\
  tr_accepted_flags tr = flags_of (tr_max_accept tr) records /\
  capacity_cap hr (length agents) = Some (tr_max_accept tr) /\
  (1 <= tr_max_accept tr)%Z.
Proof.
  intros Hrun Htr.
  destruct (run_trace_pass_params _ _ _ _ _ Hrun Htr) as (Hok & Hhr & Hlen).
  destruct (trace_ok_hiring log2 tr Hok) as (Hinv & Hidx & Hflags).
  pose proof (trace_ok_cap log2 tr Hok) as Hcap.
  pose proof Hok as (_ & Hmax & _). apply max_accept_positive in Hmax.
  destruct Hinv as (_ & _ & _ & _ & Hrec & _).
  simpl. rewrite Hhr in *. done.
Qed.

(** X9: in every pass of every run the number of accepted agents is
    exactly the smaller of the cap [max(1, floor(hiring_capacity * N))]
    (on the double product) and the number of eligible agents; in
    particular, as soon as one agent is eligible at least one is accepted,
    whatever [hiring_capacity] is. *)
Theorem accepted_count_is_min_of_cap_and_eligible params st0 history :
  run_trace log2 params = Some (st0, history) ->
  Forall (fun tr =>
    let agents := st_agents (tr_before tr) in
    let hr := initial_hr params in
    let N := Z.to_nat (n_agents params) in
    let flags := tr_accepted_flags tr in
    exists cap,
      capacity_cap hr N = Some cap /\
      count_true flags =
        Nat.min (Z.to_nat cap)
                (length (filter (fun a => eligibleb hr a) agents)) /\
      ((exists a, a ∈ agents /\ eligibleb hr a = true) ->
       (0 < count_true flags)%nat)) history.
Proof.
  intros Hrun. apply Forall_forall. intros tr Htr.
  destruct (run_trace_pass_hiring _ _ _ _ Hrun Htr)
    as (Hlen & Hrec & Hidx & Hflags & Hcap & Hpos).
  simpl. rewrite Hflags, <- Hlen.
  exists (tr_max_accept tr). split; [done|].
  rewrite (accepted_count_exact _ _ _ _ Hrec Hidx).
  split; [done|]. intros (a & Ha & Hel).
  assert (Hin : a ∈ filter (fun a => eligibleb (initial_hr params) a)
                      (st_agents (tr_before tr))).
  { apply list_elem_of_filter. split; [|done]. by apply Is_true_true. }
  assert (0 < length (filter (fun a => eligibleb (initial_hr params) a)
                        (st_agents (tr_before tr))))%nat.
  { destruct (filter _ _); [by apply elem_of_nil in Hin | simpl; lia]. }
  lia.
Qed.

(** X10: in every pass of every run acceptance respects the ranking: when
    an agent is accepted, every eligible agent with a strictly higher
    [final_score], and every eligible agent with an equal score and an
    earlier position in the population, is accepted too; scores are the
    doubles the code compares. *)
Theorem accepted_never_outranked_by_rejected params st0 history :
  run_trace log2 params = Some (st0, history) ->
  Forall (fun tr =>
    let agents := st_agents (tr_before tr) in
    let hr := initial_hr params in
    let flags := tr_accepted_flags tr in
    forall i j a b,
      flags !! i = Some true ->
      agents !! i = Some a -> agents !! j = Some b ->
      eligibleb hr b = true ->
      float_lt (agent_score hr a) (agent_score hr b) \/
        (float_eq (agent_score hr b) (agent_score hr a) /\ (j < i)%nat) ->
      flags !! j = Some true) history.
Proof.
  intros Hrun. apply Forall_forall. intros tr Htr.
  destruct (run_trace_pass_hiring _ _ _ _ Hrun Htr)
    as (Hlen & Hrec & Hidx & Hflags & _).
  simpl. rewrite Hflags. intros i j a b.
  by apply (accepted_upward_closed (initial_hr params)).
Qed.

(** X11: with [hiring_capacity >= 1] (and a population of at most [2^53],
    so that its size is a double) the cap never binds: in every pass of
    every run an agent is accepted exactly when it is eligible (its double
    [final_score] compares [>= hiring_threshold]). *)
Theorem full_capacity_accepts_exactly_the_eligible params st0 history :
  1 <= params_hiring_capacity params ->
  (n_agents params <= 2 ^ 53)%Z ->
  run_trace log2 params = Some (st0, history) ->
  Forall (fun tr =>
    let agents := st_agents (tr_before tr) in
    let hr := initial_hr params in
    forall i, tr_accepted_flags tr !! i = Some true <->
      exists a, agents !! i = Some a /\ eligibleb hr a = true) history.
Proof.
  intros Hc HN Hrun. apply Forall_forall. intros tr Htr.
  destruct (run_trace_pass_hiring _ _ _ _ Hrun Htr)
    as (Hlen & Hrec & Hidx & Hflags & Hcap & _).
  simpl. rewrite Hflags. intros i.
  apply (accepted_iff_eligible_full_capacity (initial_hr params)); try done.
  rewrite Hlen. lia.
Qed.

End HiringRuns.

Section PlatformRuns.

Context `{G : PRNG}.
Variable log2 : Q -> Q.

Lemma run_trace_pass_platform params st0 history tr :
  run_trace log2 params = Some (st0, history) -> tr ∈ history ->
  let platform := st_platform (tr_before tr) in
  trace_ok log2 tr /\
  state_in_range (tr_before tr) /\ state_in_range (tr_after tr) /\
  learning_rate platform = lr params /\
  diversity_regularization platform = diversity_reg params /\
  feedback_weight platform = params_feedback_weight params /\
  Forall2 same_fixed_fields (st_agents st0) (st_agents (tr_before tr)) /\
  Forall (agent_init_ok params) (st_agents st0).
Proof.
  intros Hrun Htr.
  pose proof (run_trace_passes log2 _ _ _ Hrun) as Hall.
  rewrite Forall_forall in Hall.
  destruct (Hall tr Htr) as (Hok & Hfr & _ & Hr & Hr').
  apply run_trace_inv in Hrun as ((s & s' & Hinit) & _).
  apply initial_state_spec in Hinit as (_ & Hagents & Hpl & _).
  destruct Hfr as (_ & Hlr & Hd & Hfw & _ & Hfix).
  simpl. rewrite Hlr, Hd, Hfw, Hpl. done.
Qed.

Lemma trace_ok_feedback (tr : IterationTrace) (g : string) :
  trace_ok log2 tr -> is_group g ->
  let v := tr_vars tr in
  let platform := st_platform (tr_before tr) in
  exists p,
    p_high platform !! g = Some p /\
    p_high (st_platform (tr_after tr)) !! g =
      Some (p_high_update platform p
              (group_values g (groups v) (chosen_levels v))
              ((fun r => bool_decide
                  (idx r ∈ accepted_set (tr_max_accept tr)
                             (applicant_records v)))
                 <$> high_choosers g (applicant_records v))).
Proof.
  intros Hok Hg.
  destruct (trace_ok_detail log2 tr Hok) as ((_ & _ & _ & _ & Hu) & Hh).
  destruct Hok as (_ & _ & _ & Hf & _).
  destruct (platform_feedback_lookup _ _ _ _ g Hg Hf)
    as (u & h & p & Hcu & Hch & Hpg & Hp').
  rewrite (Hu g Hg) in Hcu. injection Hcu as <-.
  rewrite (Hh g Hg) in Hch. injection Hch as <-.
  by exists p.
Qed.


End PlatformRuns.

Section FrozenPlatform.

Context `{G : PRNG}.
Variable log2 : Q -> Q.

Lemma py_round_6_half : py_round (1 # 2) 6 == 1 # 2.
Proof. vm_compute. reflexivity. Qed.

Lemma trace_ok_frozen (tr : IterationTrace) :
  trace_ok log2 tr ->
  learning_rate (st_platform (tr_before tr)) == 0 /\ p_high_is (1 # 2) (tr_before tr) ->
  learning_rate (st_platform (tr_after tr)) == 0 /\ p_high_is (1 # 2) (tr_after tr).
Proof.
  intros Hok [Hlr Hp]. split.
  - destruct Hok as (_ & _ & _ & Hf & _).
    apply platform_feedback_spec in Hf as (-> & _). done.
  - intros g Hg.
    destruct (trace_ok_feedback log2 tr g Hok Hg) as (p & Hpg & Hp').
    destruct (Hp g Hg) as (p0 & Hp0 & Ehalf).
    rewrite Hpg in Hp0. injection Hp0 as <-.
    eexists. split; [exact Hp'|].
    unfold p_high_update.
    transitivity (clamp01 (1 # 2)); [|by apply clamp01_id].
    apply clamp_proper. rewrite Hlr, Ehalf. ring.
Qed.

(** X13: with [lr = 0] the platform never learns: before and after every
    pass of every run both exposure probabilities are equal to their initial
    value [0.5], and every snapshot stores [0.5] for both. *)
Theorem zero_learning_rate_freezes_p_high params st0 history :
  lr params == 0 ->
  run_trace log2 params = Some (st0, history) ->
  Forall (fun tr =>
    p_high_is (1 # 2) (tr_before tr) /\ p_high_is (1 # 2) (tr_after tr) /\
    snap_p_high_A (tr_snapshot tr) == 1 # 2 /\
    snap_p_high_B (tr_snapshot tr) == 1 # 2) history.
Proof.
  intros Hlr Hrun.
  pose proof (run_trace_inv log2 _ _ _ Hrun) as ((s & s' & Hinit) & _ & Hchain).
  apply initial_state_spec in Hinit as (_ & _ & Hpl & _).
  pose proof (trace_chain_ok log2 _ _ _ Hchain) as Hoks.
  eapply (trace_chain_invariant log2
            (fun st => learning_rate (st_platform st) == 0 /\ p_high_is (1 # 2) st))
    in Hchain; [|exact trace_ok_frozen|].
  - rewrite Forall_forall in Hchain, Hoks. apply Forall_forall. intros tr Htr.
    destruct (Hchain tr Htr) as ((_ & Hb) & (_ & Ha)).
    split; [done|]. split; [done|].
    destruct (Hoks tr Htr) as (_ & _ & _ & _ & _ & _ & p_A & p_B & HA & HB & Hm).
    apply compute_iteration_metrics_fields in Hm
      as (_ & _ & _ & _ & _ & _ & _ & _ & _ & _ & _ & -> & ->).
    destruct (Ha "A" ltac:(by left)) as (p & Hp & Ep).
    destruct (Ha "B" ltac:(by right)) as (q & Hq & Eq).
    rewrite HA in Hp. injection Hp as <-. rewrite HB in Hq. injection Hq as <-.
    split.
    + rewrite (py_round_proper _ _ 6 Ep). apply py_round_6_half.
    + rewrite (py_round_proper _ _ 6 Eq). apply py_round_6_half.
  - unfold p_high_is. rewrite Hpl. split; [exact Hlr|].
    intros g [-> | ->]; exists (1 # 2); (split; [|reflexivity]); simpl.
    + apply lookup_insert_eq.
    + rewrite lookup_insert_ne by done. apply lookup_insert_eq.
Qed.

End FrozenPlatform.

Section Population.

Context `{G : PRNG}.
Variable log2 : Q -> Q.

Lemma create_agents_groups params n agents s agents' s' :
  unit_draws G ->
  create_agents params n agents s = Some (agents', s') ->
  exists new, agents' = agents ++ new /\
    (1 <= group_imbalance params -> Forall (fun a => group a = "A") new) /\
    (group_imbalance params <= 0 -> Forall (fun a => group a = "B") new).
Proof.
  intros Hunit. revert agents s. induction n as [|n IH]; intros agents s H.
  - apply sim_ret_Some in H as [<- _]. exists []. by rewrite app_nil_r.
  - simpl in H. sim_inv H. apply IH in H as (new & -> & HA & HB).
    apply draw_random_Some in Hstep.
    pose proof (Hunit s) as Hu. rewrite Hstep in Hu. simpl in Hu.
    eexists (_ :: new). rewrite <- app_assoc. simpl.
    split; [reflexivity|].
    split; intros Hg; (constructor; [simpl | auto]).
    + by rewrite (proj2 (Qltb_lt _ _)) by lra.
    + by rewrite (proj2 (Qltb_ge _ _)) by lra.
Qed.

Lemma same_fixed_fields_groups (l l' : list Agent) :
  Forall2 same_fixed_fields l l' -> group <$> l' = group <$> l.
Proof.
  induction 1 as [|a b l l' Hab _ IH]; [done|].
  destruct Hab as (Hg & _). rewrite !fmap_cons, IH, Hg. done.
Qed.

(** X14: with [random()] in [[0, 1)], [group_imbalance >= 1] puts every
    agent in group A and [group_imbalance <= 0] puts every agent in group B,
    at creation and in the [groups] list of every pass. *)
Theorem extreme_group_imbalance_gives_one_group params st0 history :
  unit_draws G ->
  run_trace log2 params = Some (st0, history) ->
  (1 <= group_imbalance params ->
     Forall (fun a => group a = "A") (st_agents st0) /\
     Forall (fun tr => Forall (fun g => g = "A") (groups (tr_vars tr)))
            history) /\
  (group_imbalance params <= 0 ->
     Forall (fun a => group a = "B") (st_agents st0) /\
     Forall (fun tr => Forall (fun g => g = "B") (groups (tr_vars tr)))
            history).
Proof.
  intros Hunit Hrun.
  assert (Hpass : forall tr, tr ∈ history ->
            groups (tr_vars tr) = group <$> st_agents st0).
  { intros tr Htr.
    destruct (run_trace_pass_platform log2 _ _ _ _ Hrun Htr)
      as (Hok & _ & _ & _ & _ & _ & Hfix & _).
    destruct (trace_ok_hiring log2 tr Hok) as ((-> & _) & _).
    by apply same_fixed_fields_groups. }
  pose proof (run_trace_inv log2 _ _ _ Hrun) as ((s & s' & Hinit) & _).
  unfold initial_state in Hinit. sim_inv Hinit.
  apply sim_ret_Some in Hinit as [<- _]. simpl in *.
  apply (create_agents_groups _ _ _ _ _ _ Hunit) in Hstep as (new & -> & HA & HB).
  simpl in *.
  split; intros Hg; (split; [auto|]); apply Forall_forall; intros tr Htr;
    rewrite (Hpass tr Htr); apply Forall_fmap; auto.
Qed.




End Population.

Section TrustingUsers.

Context `{G : PRNG}.
Variable log2 : Q -> Q.
Hypothesis Hunit : unit_draws G.

Lemma chosen_of_trusting (agent : Agent) (shown : Z) (s2 s3 : rng_state) :
  1 <= trust_in_algorithm agent ->
  (risk_tolerance agent <= 0 ->
     chosen_of agent shown (rng_random s2).1 (rng_random s3).1 = shown) /\
  (1 <= risk_tolerance agent ->
     chosen_of agent shown (rng_random s2).1 (rng_random s3).1
     = opposite_level shown).
Proof.
  intros Ht. unfold chosen_of.
  pose proof (Hunit s2) as H2. pose proof (Hunit s3) as H3.
  rewrite (proj2 (Qltb_lt _ _)) by lra.
  split; intros Hr.
  - by rewrite (proj2 (Qltb_ge _ _)) by lra.
  - by rewrite (proj2 (Qltb_lt _ _)) by lra.
Qed.

Lemma agent_loop_trusting platform hr agents s v s' :
  Forall (fun a => 1 <= trust_in_algorithm a) agents ->
  sim_for (agent_body platform hr) agents agent_loop_init s = Some (v, s') ->
  (Forall (fun a => risk_tolerance a <= 0) agents ->
     chosen_levels v = shown_levels v) /\
  (Forall (fun a => 1 <= risk_tolerance a) agents ->
     chosen_levels v = opposite_level <$> shown_levels v).
Proof.
  intros Ht Hloop.
  set (Inv := fun (done : list Agent) (acc : AgentLoopVars) =>
       Forall (fun a => 1 <= trust_in_algorithm a) done ->
       (Forall (fun a => risk_tolerance a <= 0) done ->
          chosen_levels acc = shown_levels acc) /\
       (Forall (fun a => 1 <= risk_tolerance a) done ->
          chosen_levels acc = opposite_level <$> shown_levels acc)).
  assert (Hstep : forall done x acc t acc' t', Inv done acc ->
            agent_body platform hr acc x t = Some (acc', t') ->
            Inv (done ++ [x]) acc').
  { intros done x acc t acc' t' IH Hbody Htr.
    rewrite Forall_app, Forall_singleton in Htr. destruct Htr as [Htr Hx].
    destruct (IH Htr) as [IH0 IH1].
    apply agent_body_draws in Hbody as (p_base & _ & _ & _ & Hs & Hc).
    rewrite Hs, Hc.
    destruct (chosen_of_trusting x
                (shown_of platform p_base (rng_random t).1)
                (rng_random t).2 (rng_random (rng_random t).2).2 Hx)
      as [C0 C1].
    split; intros Hr; rewrite Forall_app, Forall_singleton in Hr;
      destruct Hr as [Hr Hrx].
    - by rewrite IH0, C0.
    - rewrite fmap_app, IH1, C1 by done. done. }
  assert (Hinit : Inv [] agent_loop_init) by (intros _; split; done).
  exact (sim_for_invariant Inv _ Hstep agents [] agent_loop_init s v s'
           Hinit Hloop Ht).
Qed.

(** X17: with [random()] in [[0, 1)] and [t_user >= 1] every agent follows
    the platform: when [r_user <= 0], in every pass of every run each agent
    chooses the level it was shown, and the stored choice rates are the
    stored exposure rates; when [r_user >= 1] each agent chooses the
    opposite level. *)
Theorem trusting_users_choose_what_is_shown params st0 history :
  1 <= t_user params ->
  run_trace log2 params = Some (st0, history) ->
  Forall (fun tr =>
    let v := tr_vars tr in
    let snap := tr_snapshot tr in
    (r_user params <= 0 ->
       chosen_levels v = shown_levels v /\
       choice_high_A snap = exposure_high_A snap /\
       choice_high_B snap = exposure_high_B snap) /\
    (1 <= r_user params ->
       chosen_levels v = opposite_level <$> shown_levels v)) history.
Proof.
  intros Ht Hrun. apply Forall_forall. intros tr Htr.
  destruct (run_trace_pass_platform log2 _ _ _ _ Hrun Htr)
    as (Hok & _ & _ & _ & _ & _ & Hfix & Hinit).
  assert (Hagents : Forall (fun a => trust_in_algorithm a = t_user params /\
                                     risk_tolerance a = r_user params)
                      (st_agents (tr_before tr))).
  { clear -Hfix Hinit. induction Hfix as [|a b l l' Hab _ IH]; [done|].
    apply Forall_cons in Hinit as [Ha Hl]. constructor; [|by apply IH].
    destruct Ha as (_ & _ & _ & Hta & _ & Hra).
    destruct Hab as (_ & _ & Htb & _ & Hrb). by rewrite <- Htb, <- Hrb. }
  pose proof Hok as ((s & s' & Hloop) & _ & _ & _ & _ & _ & p_A & p_B & _ & _ & Hm).
  apply agent_loop_trusting in Hloop as [H0 H1].
  2:{ eapply Forall_impl; [exact Hagents|]. intros a [-> _]. done. }
  simpl. split; intros Hr.
  - assert (E : chosen_levels (tr_vars tr) = shown_levels (tr_vars tr)).
    { apply H0. eapply Forall_impl; [exact Hagents|]. by intros a [_ ->]. }
    split; [done|].
    apply compute_iteration_metrics_fields in Hm
      as (-> & -> & -> & -> & _). by rewrite E.
  - apply H1. eapply Forall_impl; [exact Hagents|]. by intros a [_ ->].
Qed.

End TrustingUsers.

Section Draws.

Context `{G : PRNG}.
Variable log2 : Q -> Q.

Lemma draws_after_add (n m : nat) (s : rng_state) :
  draws_after (n + m) s = draws_after n (draws_after m s).
Proof. apply Nat.iter_add. Qed.

Lemma agent_loop_draws platform hr agents v0 s v s' :
  sim_for (agent_body platform hr) agents v0 s = Some (v, s') ->
  s' = draws_after (3 * length agents) s.
Proof.
  revert v0 s. induction agents as [|a agents IH]; intros v0 s H.
  - apply sim_ret_Some in H as [_ <-]. done.
  - simpl in H. apply sim_bind_Some in H as (v1 & s1 & Hbody & H).
    apply IH in H. subst s'.
    apply agent_body_draws in Hbody as (_ & _ & -> & _).
    replace (3 * length (a :: agents))%nat
      with (3 * length agents + 3)%nat by (simpl; lia).
    by rewrite draws_after_add.
Qed.

(** X18: one pass of the iteration loop calls [random()] exactly three
    times per agent, whichever branches the agents take, and nothing else in
    the pass touches the random source: its state after the pass is its
    state before the pass advanced by [3 * len(agents)] draws. *)
Theorem pass_consumes_three_draws_per_agent st prev s tr s' :
  iteration log2 st prev s = Some (tr, s') ->
  s' = draws_after (3 * length (st_agents st)) s.
Proof.
  unfold iteration. intros H. sim_inv H.
  apply sim_ret_Some in H as [_ <-].
  apply sim_lift_Some in Hstep0 as [_ <-].
  apply sim_lift_Some in Hstep1 as [_ <-].
  apply sim_lift_Some in Hstep2 as [_ <-].
  apply sim_lift_Some in Hstep3 as [_ <-].
  apply sim_lift_Some in Hstep4 as [_ <-].
  apply sim_lift_Some in Hstep5 as [_ <-].
  by eapply agent_loop_draws.
Qed.

End Draws.

Section Outcome.

Context `{G : PRNG}.
Variable log2 : Q -> Q.

(** X19: the [params] entry of the dictionary [run_simulation] returns is
    the input, field by field. *)
Theorem run_simulation_echoes_params params r :
  run_simulation log2 params = Some r -> result_params r = params.
Proof.
  unfold run_simulation. intros H.
  apply bind_Some in H as (run & _ & H). injection H as <-.
  by destruct params.
Qed.

(** X20: [run_simulation] raises in exactly one situation: it returns if
    and only if the loop makes no pass or the product
    [hiring_capacity * len(applicant_records)] is a finite double, so that
    [int()] of it is defined. *)
Theorem run_returns_iff_capacity_product_finite params :
  is_Some (run_simulation log2 params) <->
  is_Some (capacity_cap (initial_hr params) (Z.to_nat (n_agents params))) \/
  (iterations params <= 0)%Z.
Proof.
  split.
  - intros Hret.
    destruct (capacity_cap (initial_hr params) (Z.to_nat (n_agents params)))
      as [cap|] eqn:Hcap; [by left; eexists|].
    destruct (Z_le_gt_dec (iterations params) 0) as [Hz|Hpos]; [by right|].
    exfalso. unfold run_simulation in Hret.
    rewrite (run_trace_raises log2 params Hcap) in Hret by lia.
    by destruct Hret.
  - intros Hcase. destruct (run_trace_total log2 params Hcase) as [run Hrun].
    unfold run_simulation. rewrite Hrun. by eexists.
Qed.

End Outcome.

(** ** Concrete runs of the further properties *)

Lemma lcg_unit_draws : unit_draws lcg_prng.
Proof.
  intros s. simpl. unfold lcg_next.
  pose proof (Z.mod_pos_bound (75 * s + 74) 65537 ltac:(lia)) as [H0 H1].
  unfold Qle, Qlt. simpl. lia.
Qed.

Lemma one_group_run_returned :
  returned (@run_trace lcg_prng log2_approx one_group_params) = true.
Proof. by vm_compute. Qed.


Lemma frozen_run_returned :
  returned (@run_trace example_prng log2_approx frozen_params) = true.
Proof. by vm_compute. Qed.


Lemma example_simulation_returned :
  returned (@run_simulation example_prng log2_approx example_params) = true.
Proof. by vm_compute. Qed.

Lemma example_pass_returned :
  returned (@iteration example_prng log2_approx example_state None
              (pass_draws (1 # 10))) = true.
Proof. by vm_compute. Qed.

Lemma run_snapshots_in_range_witness :
  match @run_trace example_prng log2_approx example_params with
  | Some (st0, history) =>
      Forall (fun tr =>
        0 <= exposure_high_A (tr_snapshot tr) <= 1 /\
        -2 <= reinforcement_index (tr_snapshot tr) <= 2) history
  | None => False
  end.
Proof.
  pose proof example_run_returned as Hret.
  destruct (@run_trace example_prng log2_approx example_params)
    as [[st0 history]|] eqn:Hrun; [|discriminate Hret].
  eapply Forall_impl.
  - exact (@run_snapshots_in_range example_prng log2_approx example_params
             st0 history Hrun).
  - intros tr (H1 & _ & _ & _ & _ & _ & _ & _ & H9 & _).
    split; [exact H1 | exact H9].
Defined.

Lemma accepted_count_is_min_of_cap_and_eligible_witness :
  match @run_trace example_prng log2_approx example_params with
  | Some (st0, history) =>
      Forall (fun tr =>
        count_true (tr_accepted_flags tr) =
        Nat.min 1 (length (filter (fun a => eligibleb (initial_hr example_params) a)
                             (st_agents (tr_before tr))))) history
  | None => False
  end.
Proof.
  pose proof example_run_returned as Hret.
  destruct (@run_trace example_prng log2_approx example_params)
    as [[st0 history]|] eqn:Hrun; [|discriminate Hret].
  eapply Forall_impl.
  - exact (@accepted_count_is_min_of_cap_and_eligible example_prng
             log2_approx example_params st0 history Hrun).
  - intros tr (cap & Hcap & H & _).
    rewrite example_cap in Hcap. injection Hcap as <-. exact H.
Defined.

Lemma accepted_never_outranked_by_rejected_witness :
  match @run_trace example_prng log2_approx example_params with
  | Some (st0, history) =>
      Forall (fun tr =>
        forall i j a b,
          tr_accepted_flags tr !! i = Some true ->
          st_agents (tr_before tr) !! i = Some a ->
          st_agents (tr_before tr) !! j = Some b ->
          eligibleb (initial_hr example_params) b = true ->
          float_lt (agent_score (initial_hr example_params) a)
                   (agent_score (initial_hr example_params) b) ->
          tr_accepted_flags tr !! j = Some true) history
  | None => False
  end.
Proof.
  pose proof example_run_returned as Hret.
  destruct (@run_trace example_prng log2_approx example_params)
    as [[st0 history]|] eqn:Hrun; [|discriminate Hret].
  eapply Forall_impl.
  - exact (@accepted_never_outranked_by_rejected example_prng log2_approx
             example_params st0 history Hrun).
  - intros tr H i j a b Hi Ha Hb Hel Hlt.
    exact (H i j a b Hi Ha Hb Hel (or_introl Hlt)).
Defined.

Lemma full_capacity_accepts_exactly_the_eligible_witness :
  match @run_trace lcg_prng log2_approx one_group_params with
  | Some (st0, history) =>
      Forall (fun tr =>
        forall i a,
          st_agents (tr_before tr) !! i = Some a ->
          eligibleb (initial_hr one_group_params) a = true ->
          tr_accepted_flags tr !! i = Some true) history
  | None => False
  end.
Proof.
  pose proof one_group_run_returned as Hret.
  destruct (@run_trace lcg_prng log2_approx one_group_params)
    as [[st0 history]|] eqn:Hrun; [|discriminate Hret].
  assert (Hcap : 1 <= params_hiring_capacity one_group_params)
    by (simpl; lra).
  assert (Hn : (n_agents one_group_params <= 2 ^ 53)%Z) by (simpl; lia).
  eapply Forall_impl.
  - exact (@full_capacity_accepts_exactly_the_eligible lcg_prng log2_approx
             one_group_params st0 history Hcap Hn Hrun).
  - intros tr H i a Ha Hel. apply (proj2 (H i)). exists a. split; assumption.
Defined.


Lemma zero_learning_rate_freezes_p_high_witness :
  match @run_trace example_prng log2_approx frozen_params with
  | Some (st0, history) =>
      Forall (fun tr =>
        snap_p_high_A (tr_snapshot tr) == 1 # 2 /\
        snap_p_high_B (tr_snapshot tr) == 1 # 2) history
  | None => False
  end.
Proof.
  pose proof frozen_run_returned as Hret.
  destruct (@run_trace example_prng log2_approx frozen_params)
    as [[st0 history]|] eqn:Hrun; [|discriminate Hret].
  assert (Hlr : lr frozen_params == 0) by reflexivity.
  eapply Forall_impl.
  - exact (@zero_learning_rate_freezes_p_high example_prng log2_approx
             frozen_params st0 history Hlr Hrun).
  - intros tr (_ & _ & HA & HB). split; [exact HA | exact HB].
Defined.



Lemma trusting_users_choose_what_is_shown_witness :
  match @run_trace lcg_prng log2_approx one_group_params with
  | Some (st0, history) =>
      Forall (fun tr =>
        chosen_levels (tr_vars tr) = shown_levels (tr_vars tr)) history
  | None => False
  end.
Proof.
  pose proof one_group_run_returned as Hret.
  destruct (@run_trace lcg_prng log2_approx one_group_params)
    as [[st0 history]|] eqn:Hrun; [|discriminate Hret].
  assert (Ht : 1 <= t_user one_group_params) by (simpl; lra).
  assert (Hr : r_user one_group_params <= 0) by (simpl; lra).
  eapply Forall_impl.
  - exact (@trusting_users_choose_what_is_shown lcg_prng log2_approx
             lcg_unit_draws one_group_params st0 history Ht Hrun).
  - intros tr [H _]. exact (proj1 (H Hr)).
Defined.

Lemma extreme_group_imbalance_gives_one_group_witness :
  match @run_trace lcg_prng log2_approx one_group_params with
  | Some (st0, history) =>
      Forall (fun a => group a = "A") (st_agents st0) /\
      Forall (fun tr => Forall (fun g => g = "A") (groups (tr_vars tr)))
             history
  | None => False
  end.
Proof.
  pose proof one_group_run_returned as Hret.
  destruct (@run_trace lcg_prng log2_approx one_group_params)
    as [[st0 history]|] eqn:Hrun; [|discriminate Hret].
  assert (Hg : 1 <= group_imbalance one_group_params) by (simpl; lra).
  exact (proj1 (@extreme_group_imbalance_gives_one_group lcg_prng
                  log2_approx one_group_params st0 history lcg_unit_draws
                  Hrun) Hg).
Defined.

Lemma pass_consumes_three_draws_per_agent_witness :
  match @iteration example_prng log2_approx example_state None
          (pass_draws (1 # 10)) with
  | Some (tr, s') => s' = []
  | None => False
  end.
Proof.
  pose proof example_pass_returned as Hret.
  destruct (@iteration example_prng log2_approx example_state None
              (pass_draws (1 # 10))) as [[tr s']|] eqn:Hpass;
    [|discriminate Hret].
  rewrite (@pass_consumes_three_draws_per_agent example_prng log2_approx
             example_state None (pass_draws (1 # 10)) tr s' Hpass).
  reflexivity.
Defined.

Lemma run_simulation_echoes_params_witness :
  match @run_simulation example_prng log2_approx example_params with
  | Some r => result_params r = example_params
  | None => False
  end.
Proof.
  pose proof example_simulation_returned as Hret.
  destruct (@run_simulation example_prng log2_approx example_params)
    as [r|] eqn:Hrun; [|discriminate Hret].
  exact (@run_simulation_echoes_params example_prng log2_approx
           example_params r Hrun).
Defined.

Lemma overflow_cap :
  capacity_cap (initial_hr overflow_params)
    (Z.to_nat (n_agents overflow_params)) = None.
Proof. vm_compute. reflexivity. Qed.

Lemma run_returns_iff_capacity_product_finite_witness :
  ~ is_Some (@run_simulation example_prng log2_approx overflow_params) /\
  is_Some (@run_simulation example_prng log2_approx example_params).
Proof.
  split.
  - intros Hret.
    apply (@run_returns_iff_capacity_product_finite example_prng log2_approx
             overflow_params) in Hret as [Hcap | Hz].
    + rewrite overflow_cap in Hcap. destruct Hcap as [cap Hcap].
      discriminate Hcap.
    + simpl in Hz. lia.
  - apply (@run_returns_iff_capacity_product_finite example_prng log2_approx
             example_params).
    left. rewrite example_cap. eexists. reflexivity.
Defined.
